(** * Ecosystem sustainability solver: simulator and subset enumerator

    Shallow embedding of [solve_ecosystem.py].

    Numbers.  The program computes with Python floats.  The simulator is
    given twice.  In the first reading a float is an exact rational ([Q]):
    comparisons, [abs], [min], [max], [+], [-], [*] and [/] are the exact
    ones, so rounding, infinities and NaN are outside it; equality of
    reserves is [Qeq] ([==]).  Module [Binary64] is the same code over IEEE
    754 doubles with their rounded operations; what depends on rounding is
    stated there.

    Dictionaries.  [sp_map] is an insertion-ordered dict, kept as an
    association list (its order decides the order of the combinations);
    the working dicts [cp] and [cn] are finite maps.

    Loops.  Both [while] loops take fuel; [None] is "fuel exhausted".  In
    the exact reading a feeding is a single pass, [simulate_set_fuel_total]
    shows that [S (length animals)] is always enough, and [simulate_set]
    runs with that much.  In [Binary64] a feeding may take further passes,
    and the two loops have their own fuel. *)

From Stdlib Require Import QArith Qabs Qminmax Lqa Factorial Floats.
From stdpp Require Import base gmap strings list.

Local Open Scope Q_scope.

(** ** Data model *)

Record Species := {
  name : string;
  typ : string;        (* "Producer" or "Animal" *)
  cp0 : Q;
  cn0 : Q;
  foods : list string  (* species names it can eat *)
}.

(** [Dict[str, Species]], in insertion order. *)
Definition SpMap := list (string * Species).

Fixpoint sp_lookup (sp_map : SpMap) (k : string) : option Species :=
  match sp_map with
  | [] => None
  | (k', s) :: rest => if String.eqb k' k then Some s else sp_lookup rest k
  end.

Definition sp_values (sp_map : SpMap) : list Species := map snd sp_map.

Inductive exn :=
| KeyError
| ValueError_producers (found : nat)
| ValueError_animals (found : nat)
| ValueError_negative_r.

(** [d.get(k, 0.0)]; also [d[k]] where the key is known to be present. *)
Definition get (d : gmap string Q) (k : string) : Q := default 0 (d !! k).

(** [{s: sp_map[s].field for s in keys}]; [None] is the [KeyError] of
    [sp_map[s]]. *)
Fixpoint dict_of (sp_map : SpMap) (field : Species -> Q) (keys : list string)
  : option (gmap string Q) :=
  match keys with
  | [] => Some ∅
  | s :: rest =>
      match sp_lookup sp_map s, dict_of sp_map field rest with
      | Some sp, Some d => Some (<[s := field sp]> d)
      | _, _ => None
      end
  end.

(** ** The simulator *)

(** The reserves, with the history of the assignments [cp[f] -= take_each]
    made so far (the history is ghost state: the program keeps only [cp]). *)
Record pool := {
  cp : gmap string Q;
  writes : list (string * Q)
}.

Definition set_cp (f : string) (v : Q) (p : pool) : pool :=
  {| cp := <[f := v]> (cp p); writes := writes p ++ [(f, v)] |}.

Definition Qltb (x y : Q) : bool := negb (Qle_bool y x).

(** [(x1, a1) > (x2, a2)] on Python tuples: the first components decide
    unless they are equal. *)
Definition key_gt (k1 k2 : Q * string) : bool :=
  if Qeq_bool (fst k1) (fst k2) then String.ltb (snd k2) (snd k1)
  else Qltb (fst k2) (fst k1).

(** The scan of [max] and [min] over a non-empty sequence
    [best :: items]: the running best is replaced only by an item whose key
    is strictly better. *)
Fixpoint pick_by {A K : Type} (better : K -> K -> bool) (key : A -> K)
    (best : A) (items : list A) : A :=
  match items with
  | [] => best
  | x :: rest =>
      pick_by better key (if better (key x) (key best) then x else best) rest
  end.

(** [max(hungry, key=lambda a: (cp.get(a, 0.0), a))] for
    [hungry = first :: others]. *)
Definition next_eater (cp : gmap string Q) (first : string) (others : list string)
  : string :=
  pick_by key_gt (fun a => (get cp a, a)) first others.

(** [max(vs)] and [min(vs)]; of the empty sequence Python raises, and the
    program never asks: the model answers 0 there. *)
Definition max_of (vs : list Q) : Q :=
  match vs with
  | [] => 0
  | v :: rest => pick_by (fun x best => Qltb best x) (fun v => v) v rest
  end.

Definition min_of (vs : list Q) : Q :=
  match vs with
  | [] => 0
  | v :: rest => pick_by (fun x best => Qltb x best) (fun v => v) v rest
  end.

(** [for f in top: cp[f] -= take_each; ...]: [false] is [return False]. *)
Fixpoint draw (eps take_each : Q) (top : list string) (p : pool) : bool * pool :=
  match top with
  | [] => (true, p)
  | f :: rest =>
      let p' := set_cp f (get (cp p) f - take_each) p in
      if Qltb (get (cp p') f) (- eps) then (false, p')
      else if Qle_bool (get (cp p') f) eps then (false, p')
      else draw eps take_each rest p'
  end.

(** [available], as the list of pairs the program builds. *)
Definition available_of (eps : Q) (allowed_foods : list string)
    (cp : gmap string Q) : list (string * Q) :=
  map (fun f => (f, get cp f))
      (filter (fun f => Qltb eps (get cp f) = true) allowed_foods).

Definition top_of (eps max_cp : Q) (available : list (string * Q)) : list string :=
  map fst (filter (fun fv => Qle_bool (Qabs (snd fv - max_cp)) eps = true) available).

(** [while need > eps: ...]; [Some (true, p)] when the loop ends,
    [Some (false, p)] on [return False].  With exact division
    [(k * min_top_cp) / k] is [min_top_cp], so a tie group that gives all it
    has is always stopped by the check [cp[f] <= eps] and no feeding makes
    a second pass; with doubles the quotient can round low, see
    [Binary64.feed]. *)
Fixpoint feed (fuel : nat) (eps : Q) (allowed_foods : list string)
    (need : Q) (p : pool) : option (bool * pool) :=
  if Qltb eps need then
    match fuel with
    | O => None
    | S fuel' =>
        let available := available_of eps allowed_foods (cp p) in
        match available with
        | [] => Some (false, p)
        | _ :: _ =>
            let max_cp := max_of (map snd available) in
            let top := top_of eps max_cp available in
            let k := length top in
            match k with
            | O => Some (false, p)
            | S _ =>
                let min_top_cp := min_of (map (get (cp p)) top) in
                let max_total_take := inject_Z (Z.of_nat k) * min_top_cp in
                let take_total := Qmin need max_total_take in
                let take_each := take_total / inject_Z (Z.of_nat k) in
                match draw eps take_each top p with
                | (false, p') => Some (false, p')
                | (true, p') => feed fuel' eps allowed_foods (need - take_total) p'
                end
            end
        end
    end
  else Some (true, p).

(** What a call leaves behind: the value returned, with the final pool, or
    the exception raised. *)
Inductive outcome :=
| Returned (b : bool) (p : pool)
| Raised (e : exn).

(** [hungry = [a for a in animals if cn[a] > eps]]. *)
Definition hungry_of (eps : Q) (cn : gmap string Q) (animals : list string)
  : list string :=
  filter (fun a => Qltb eps (get cn a) = true) animals.

(** [while True: ...], the turns.  [None] is fuel exhausted, in this loop or
    in a feeding loop (each is given [ifuel]). *)
Fixpoint turns (ifuel fuel : nat) (sp_map : SpMap) (selected : gset string)
    (animals : list string) (eps : Q) (cn : gmap string Q) (p : pool)
  : option outcome :=
  match fuel with
  | O => None
  | S fuel' =>
      match hungry_of eps cn animals with
      | [] => Some (Returned true p)
      | first :: others =>
          let eater := next_eater (cp p) first others in
          let need := get cn eater in
          if Qle_bool need eps then
            turns ifuel fuel' sp_map selected animals eps (<[eater := 0]> cn) p
          else
            match sp_lookup sp_map eater with
            | None => Some (Raised KeyError)
            | Some sp =>
                let allowed_foods := filter (fun f => f ∈ selected) (foods sp) in
                match allowed_foods with
                | [] => Some (Returned false p)
                | _ :: _ =>
                    match feed ifuel eps allowed_foods need p with
                    | None => None
                    | Some (false, p') => Some (Returned false p')
                    | Some (true, p') =>
                        turns ifuel fuel' sp_map selected animals eps
                              (<[eater := 0]> cn) p'
                    end
                end
            end
      end
  end.

(** The default [eps = 1e-9]: the double nearest to [10^-9], which is
    [4835703278458517 / 2^82], a little above [10^-9]. *)
Definition eps_default : Q :=
  4835703278458517 # 4835703278458516698824704.

Definition simulate_set_fuel (fuel : nat) (sp_map : SpMap)
    (producers animals : list string) (eps : Q) : option outcome :=
  let selected : gset string := list_to_set producers ∪ list_to_set animals in
  match dict_of sp_map cp0 (elements selected) with
  | None => Some (Raised KeyError)
  | Some cp =>
      match dict_of sp_map cn0 animals with
      | None => Some (Raised KeyError)
      | Some cn =>
          turns fuel fuel sp_map selected animals eps cn
                {| cp := cp; writes := [] |}
      end
  end.

(** [simulate_set(sp_map, producers, animals, eps)], with the fuel that
    [simulate_set_fuel_total] proves sufficient for every input. *)
Definition simulate_set (sp_map : SpMap) (producers animals : list string)
    (eps : Q) : option outcome :=
  simulate_set_fuel (S (length animals)) sp_map producers animals eps.

(** ** The enumerator *)

(** [itertools.combinations(pool, r)] for [0 <= r], in the order the
    iterator yields them. *)
Fixpoint combinations {A : Type} (pool : list A) (r : nat) : list (list A) :=
  match r, pool with
  | O, _ => [[]]
  | S _, [] => []
  | S r', x :: rest => map (cons x) (combinations rest r') ++ combinations rest r
  end.

(** [math.comb(n, k)]. *)
Fixpoint comb (n k : nat) : nat :=
  match k, n with
  | O, _ => 1
  | S _, O => 0
  | S k', S n' => comb n' k' + comb n' k
  end.

Record Row := {
  Producers : string;
  Animals : string;
  AllSpecies : string
}.

Definition join (sep : string) (items : list string) : string :=
  String.concat sep items.

Definition row_of (producers animal_set : list string) : Row :=
  {| Producers := join ", " producers;
     Animals := join ", " animal_set;
     AllSpecies := join ", " (producers ++ animal_set) |}.

(** What a run of the enumerator leaves behind: the list returned or the
    exception raised, and the arguments [(producers, animals)] of each call
    to the simulator, in order (ghost state). *)
Record report := {
  answer : list Row + exn;
  calls : list (list string * list string)
}.

(** [for animal_set in combos: ...], with [break] when the cap is reached.
    [None]: a call to the simulator ran out of fuel. *)
Fixpoint sweep (sp_map : SpMap) (producers : list string) (cap_results : option Z)
    (combos : list (list string)) (results : list Row)
    (calls : list (list string * list string)) : option report :=
  match combos with
  | [] => Some {| answer := inl results; calls := calls |}
  | animal_set :: rest =>
      let calls' := calls ++ [(producers, animal_set)] in
      match simulate_set sp_map producers animal_set eps_default with
      | None => None
      | Some (Raised e) => Some {| answer := inr e; calls := calls' |}
      | Some (Returned ok _) =>
          if ok then
            let results' := results ++ [row_of producers animal_set] in
            match cap_results with
            | Some cap =>
                if (cap <=? Z.of_nat (length results'))%Z
                then Some {| answer := inl results'; calls := calls' |}
                else sweep sp_map producers cap_results rest results' calls'
            | None => sweep sp_map producers cap_results rest results' calls'
            end
          else sweep sp_map producers cap_results rest results calls'
      end
  end.

(** [animals_to_choose] is taken within [r_min .. r_max], see below. *)
Definition find_sustainable_sets_for_ecosystem (sp_map : SpMap)
    (animals_to_choose : Z) (cap_results : option Z) : option report :=
  let producers :=
    map name (filter (fun s => typ s = "Producer") (sp_values sp_map)) in
  let animals_all :=
    map name (filter (fun s => typ s = "Animal") (sp_values sp_map)) in
  if negb (length producers =? 3)%nat then
    Some {| answer := inr (ValueError_producers (length producers)); calls := [] |}
  else if negb (length animals_all =? 10)%nat then
    Some {| answer := inr (ValueError_animals (length animals_all)); calls := [] |}
  else if (animals_to_choose <? 0)%Z then
    Some {| answer := inr ValueError_negative_r; calls := [] |}
  else
    sweep sp_map producers cap_results
          (combinations animals_all (Z.to_nat animals_to_choose)) [] [].

(** The range of [animals_to_choose] that the model covers.  CPython reads
    the [r] of [itertools.combinations(pool, r)] as a C [ssize_t], raising
    [OverflowError] outside its range, and allocates [r] indices before it
    yields anything, raising [MemoryError] when it cannot: neither is
    represented here.  [r_max] is a count whose indices any machine that runs
    the program can allocate. *)
Definition r_min : Z := - 2 ^ 63.
Definition r_max : Z := 2 ^ 16.

(** ** The loader *)

(** Python strings are read here as sequences of code points below 256, one
    per character of a Rocq [string].  [is_space c] is [c.isspace()] on such
    a code point: tab to carriage return, the four separators 28 to 31,
    space, next line (133) and no-break space (160). *)
Definition is_space (c : Ascii.ascii) : bool :=
  let n := Ascii.N_of_ascii c in
  ((9 <=? n) && (n <=? 13) || (28 <=? n) && (n <=? 32)
   || (n =? 133) || (n =? 160))%N.

Fixpoint lstrip (s : string) : string :=
  match s with
  | EmptyString => EmptyString
  | String c s' => if is_space c then lstrip s' else s
  end.

Fixpoint rstrip (s : string) : string :=
  match s with
  | EmptyString => EmptyString
  | String c s' =>
      match rstrip s' with
      | EmptyString => if is_space c then EmptyString else String c EmptyString
      | r => String c r
      end
  end.

(** [s.strip()]. *)
Definition strip (s : string) : string := rstrip (lstrip s).

(** The character [","]. *)
Definition comma : Ascii.ascii := Ascii.ascii_of_nat 44.

(** [s.split(sep)] for a separator of one character. *)
Fixpoint split_on (sep : Ascii.ascii) (s : string) : list string :=
  match s with
  | EmptyString => [EmptyString]
  | String c s' =>
      if Ascii.eqb c sep then EmptyString :: split_on sep s'
      else
        match split_on sep s' with
        | piece :: pieces => String c piece :: pieces
        | [] => [String c EmptyString]
        end
  end.

(** A cell of the sheet, as far as [parse_food_sources] tells cells apart:
    [None], a float that is NaN, or anything else, given by its [str()]. *)
Inductive cell :=
| CellNone
| CellNaN
| CellOther (text : string).

Definition parse_food_sources (c : cell) : list string :=
  match c with
  | CellNone => []
  | CellNaN => []
  | CellOther text =>
      let s := strip text in
      if String.eqb s "" then []
      else map strip (filter (fun x => strip x <> EmptyString)
                             (split_on comma s))
  end.

(** A name that survives [parse_food_sources] unchanged: not empty, with no
    white space at either end and no comma. *)
Definition clean_name (x : string) : Prop :=
  x <> EmptyString /\ strip x = x /\ ~ In comma (String.list_ascii_of_string x).

(** [d.get(k)] and [d[k] = v] on an insertion-ordered dict: a new key goes to
    the end, an old one keeps its place. *)
Fixpoint dict_get {V : Type} (d : list (string * V)) (k : string) : option V :=
  match d with
  | [] => None
  | (k', v) :: rest => if String.eqb k' k then Some v else dict_get rest k
  end.

Fixpoint dict_set {V : Type} (d : list (string * V)) (k : string) (v : V)
  : list (string * V) :=
  match d with
  | [] => [(k, v)]
  | (k', v') :: rest =>
      if String.eqb k' k then (k', v) :: rest else (k', v') :: dict_set rest k v
  end.

(** A row of the sheet, read through the conversions the loader applies to
    it: [str(r[...])] for the three text columns, [float(r[...])] for the two
    numbers ([None] when [float] raises; a cell [float] turns into NaN or an
    infinity has no counterpart among the rationals and is not covered), and
    the food cell as it is. *)
Record RowIn := {
  r_Ecosystem : string;
  r_Species : string;
  r_Type : string;
  r_CaloriesProvided : option Q;
  r_CaloriesNeeded : option Q;
  r_FoodSources : cell
}.

Record DataFrame := {
  df_columns : list string;
  df_rows : list RowIn
}.

Inductive load_outcome :=
| Loaded (ecosystems : list (string * SpMap))
| MissingColumns (missing : list string)
| FloatError.

Definition required : list string :=
  ["Ecosystem"; "Species"; "Type"; "CaloriesProvided"; "CaloriesNeeded";
   "FoodSources"].

Definition species_of_row (r : RowIn) (provided needed : Q) : Species :=
  {| name := strip (r_Species r);
     typ := strip (r_Type r);
     cp0 := provided;
     cn0 := needed;
     foods := parse_food_sources (r_FoodSources r) |}.

(** The body of the loop over the rows; [None] is the exception of
    [float]. *)
Definition load_row (ecosystems : list (string * SpMap)) (r : RowIn)
  : option (list (string * SpMap)) :=
  let eco := strip (r_Ecosystem r) in
  match r_CaloriesProvided r with
  | None => None
  | Some provided =>
      match r_CaloriesNeeded r with
      | None => None
      | Some needed =>
          let ecosystems1 :=
            match dict_get ecosystems eco with
            | Some _ => ecosystems
            | None => dict_set ecosystems eco []
            end in
          let inner := default [] (dict_get ecosystems1 eco) in
          Some (dict_set ecosystems1 eco
                  (dict_set inner (strip (r_Species r))
                            (species_of_row r provided needed)))
      end
  end.

Fixpoint load_rows (ecosystems : list (string * SpMap)) (rs : list RowIn)
  : option (list (string * SpMap)) :=
  match rs with
  | [] => Some ecosystems
  | r :: rest =>
      match load_row ecosystems r with
      | None => None
      | Some ecosystems' => load_rows ecosystems' rest
      end
  end.

Definition load_ecosystems (df : DataFrame) : load_outcome :=
  match filter (fun c => c ∉ df_columns df) required with
  | [] =>
      match load_rows [] (df_rows df) with
      | Some ecosystems => Loaded ecosystems
      | None => FloatError
      end
  | missing => MissingColumns missing
  end.

(** What the loader guarantees of a species stored under [key], of an
    ecosystem and of the whole result. *)
Definition species_ok (key : string) (s : Species) : Prop :=
  key = name s /\ strip key = key /\ strip (typ s) = typ s /\
  Forall clean_name (foods s).

Definition sp_map_ok (m : SpMap) : Prop :=
  m <> [] /\ NoDup (map fst m) /\
  forall key s, In (key, s) m -> species_ok key s.

Definition ecosystems_ok (ecosystems : list (string * SpMap)) : Prop :=
  NoDup (map fst ecosystems) /\
  forall eco m, In (eco, m) ecosystems -> strip eco = eco /\ sp_map_ok m.

(** ** The rows [run_solver] builds *)

Record SummaryRow := {
  sum_Ecosystem : string;
  sum_AnimalsChosen : Z;
  sum_TotalCombosTested : nat;
  sum_NumSustainableSetsFound : nat;
  sum_HasAnySustainableSet : bool;
  sum_Capped : bool
}.

(** [{"Ecosystem": eco, "SetID": idx, **row}]. *)
Record SetRow := {
  set_Ecosystem : string;
  set_SetID : nat;
  set_Row : Row
}.

(** [for idx, row in enumerate(sustainable_sets, start=idx): ...]. *)
Fixpoint number_from (eco : string) (idx : nat) (sustainable_sets : list Row)
  : list SetRow :=
  match sustainable_sets with
  | [] => []
  | row :: rest =>
      {| set_Ecosystem := eco; set_SetID := idx; set_Row := row |}
      :: number_from eco (S idx) rest
  end.

Inductive solver_outcome :=
| SolverRows (summary_rows : list SummaryRow) (all_sets_rows : list SetRow)
| SolverRaised (e : exn).

(** The loop of [run_solver] over the ecosystems, up to the two lists of
    rows it hands to pandas.  [math.comb(10, animals_to_choose)] raises
    [ValueError] on a negative argument, as [itertools.combinations] does. *)
Fixpoint solver_loop (ecosystems : list (string * SpMap)) (animals_to_choose : Z)
    (cap_results_per_ecosystem : option Z)
    (summary_rows : list SummaryRow) (all_sets_rows : list SetRow)
  : option solver_outcome :=
  match ecosystems with
  | [] => Some (SolverRows summary_rows all_sets_rows)
  | (eco, sp_map) :: rest =>
      match find_sustainable_sets_for_ecosystem sp_map animals_to_choose
              cap_results_per_ecosystem with
      | None => None
      | Some rep =>
          match answer rep with
          | inr e => Some (SolverRaised e)
          | inl sustainable_sets =>
              if (animals_to_choose <? 0)%Z
              then Some (SolverRaised ValueError_negative_r)
              else
                solver_loop rest animals_to_choose cap_results_per_ecosystem
                  (summary_rows ++
                   [{| sum_Ecosystem := eco;
                       sum_AnimalsChosen := animals_to_choose;
                       sum_TotalCombosTested :=
                         comb 10 (Z.to_nat animals_to_choose);
                       sum_NumSustainableSetsFound := length sustainable_sets;
                       sum_HasAnySustainableSet :=
                         (0 <? length sustainable_sets)%nat;
                       sum_Capped :=
                         match cap_results_per_ecosystem with
                         | Some _ => true
                         | None => false
                         end |}])
                  (all_sets_rows ++ number_from eco 1 sustainable_sets)
          end
      end
  end.

(** The producers and the animals of an ecosystem, as
    [find_sustainable_sets_for_ecosystem] lists them. *)
Definition producers_of (sp_map : SpMap) : list string :=
  map name (filter (fun s => typ s = "Producer") (sp_values sp_map)).

Definition animals_of (sp_map : SpMap) : list string :=
  map name (filter (fun s => typ s = "Animal") (sp_values sp_map)).

Definition counts_ok (sp_map : SpMap) : Prop :=
  length (producers_of sp_map) = 3%nat /\ length (animals_of sp_map) = 10%nat.

(** ** Derived notions used in the proofs *)

(** The largest available reserve, the tie group and the amount drawn in
    the micro-step that starts from reserves [cp], as [feed] computes
    them. *)
Definition max_now (eps : Q) (allowed_foods : list string) (cp : gmap string Q)
  : Q :=
  max_of (map snd (available_of eps allowed_foods cp)).

Definition top_now (eps : Q) (allowed_foods : list string) (cp : gmap string Q)
  : list string :=
  top_of eps (max_now eps allowed_foods cp) (available_of eps allowed_foods cp).

Definition take_now (eps need : Q) (allowed_foods : list string)
    (cp : gmap string Q) : Q :=
  let top := top_now eps allowed_foods cp in
  Qmin need (inject_Z (Z.of_nat (length top)) * min_of (map (get cp) top)).

Definition each_now (eps need : Q) (allowed_foods : list string)
    (cp : gmap string Q) : Q :=
  take_now eps need allowed_foods cp /
  inject_Z (Z.of_nat (length (top_now eps allowed_foods cp))).

(** The feeding loop as a single pass: entered with [need > eps] it returns
    [False], or the [for] loop runs to its end, and then the whole need was
    taken and the loop exits at its next test. *)
Definition feed_once (eps : Q) (allowed_foods : list string) (need : Q) (p : pool)
  : bool * pool :=
  if Qltb eps need then
    match top_now eps allowed_foods (cp p) with
    | [] => (false, p)
    | top => draw eps (each_now eps need allowed_foods (cp p)) top p
    end
  else (true, p).

(** One turn: what it returns, or the state the next turn starts from. *)
Inductive turn_result :=
| TurnReturn (o : outcome)
| TurnNext (cn : gmap string Q) (p : pool).

Definition turn (sp_map : SpMap) (selected : gset string) (animals : list string)
    (eps : Q) (cn : gmap string Q) (p : pool) : turn_result :=
  match hungry_of eps cn animals with
  | [] => TurnReturn (Returned true p)
  | first :: others =>
      let eater := next_eater (cp p) first others in
      let need := get cn eater in
      if Qle_bool need eps then TurnNext (<[eater := 0]> cn) p
      else
        match sp_lookup sp_map eater with
        | None => TurnReturn (Raised KeyError)
        | Some sp =>
            match filter (fun f => f ∈ selected) (foods sp) with
            | [] => TurnReturn (Returned false p)
            | allowed_foods =>
                match feed_once eps allowed_foods need p with
                | (false, p') => TurnReturn (Returned false p')
                | (true, p') => TurnNext (<[eater := 0]> cn) p'
                end
            end
        end
  end.

(** The reserves after the assignments [ws], starting from [d]. *)
Definition replay (ws : list (string * Q)) (d : gmap string Q) : gmap string Q :=
  fold_left (fun d w => <[fst w := snd w]> d) ws d.

(** A value a reserve may take without ending the run. *)
Definition safe (eps : Q) (w : string * Q) : Prop :=
  eps < snd w /\ - eps <= snd w.

(** The shape of the history of a run that returned [b]: every assignment
    left its reserve above [eps], except that the last one of a run that
    returned [False] may not have. *)
Definition trace_ok (eps : Q) (b : bool) (ws : list (string * Q)) : Prop :=
  exists pre last,
    ws = pre ++ last /\ Forall (safe eps) pre /\
    (last = [] \/ b = false /\ exists w, last = [w] /\ ~ safe eps w).

(** What holds of the pool between turns, and of a run's outcome. *)
Definition pool_ok (eps : Q) (selected : gset string) (cp_init : gmap string Q)
    (p : pool) : Prop :=
  cp p = replay (writes p) cp_init /\
  Forall (safe eps) (writes p) /\
  Forall (fun w => fst w ∈ selected) (writes p).

Definition run_ok (eps : Q) (selected : gset string) (cp_init : gmap string Q)
    (o : outcome) : Prop :=
  match o with
  | Returned b p =>
      cp p = replay (writes p) cp_init /\
      trace_ok eps b (writes p) /\
      Forall (fun w => fst w ∈ selected) (writes p)
  | Raised _ => True
  end.



(** Whether the simulator answers [True] on a combination. *)
Definition passed (sp_map : SpMap) (producers animal_set : list string) : bool :=
  match simulate_set sp_map producers animal_set eps_default with
  | Some (Returned true _) => true
  | _ => false
  end.

(** ** Example ecosystems *)

Module Examples.

Definition species (n t : string) (provided needed : Q) (fs : list string)
  : string * Species :=
  (n, {| name := n; typ := t; cp0 := provided; cn0 := needed; foods := fs |}).

Definition producers3 : list (string * Species) :=
  [species "P1" "Producer" 100 0 [];
   species "P2" "Producer" 100 0 [];
   species "P3" "Producer" 100 0 []].

Definition idle_animals : list (string * Species) :=
  [species "A2" "Animal" 10 0 []; species "A3" "Animal" 10 0 [];
   species "A4" "Animal" 10 0 []; species "A5" "Animal" 10 0 [];
   species "A6" "Animal" 10 0 []; species "A7" "Animal" 10 0 [];
   species "A8" "Animal" 10 0 []; species "A9" "Animal" 10 0 [];
   species "A10" "Animal" 10 0 []].

(** Scenario A: A1 needs 50 and eats P1. *)
Definition eco_A : SpMap :=
  producers3 ++ species "A1" "Animal" 10 50 ["P1"] :: idle_animals.

(** Scenario B: A1 needs all of P1. *)
Definition eco_B : SpMap :=
  producers3 ++ species "A1" "Animal" 10 100 ["P1"] :: idle_animals.

(** Scenario C: A1 eats only A10. *)
Definition eco_C : SpMap :=
  producers3 ++ species "A1" "Animal" 10 50 ["A10"] :: idle_animals.

(** Scenario C with a need that is positive and not above the
    tolerance. *)
Definition eco_D : SpMap :=
  producers3 ++
  species "A1" "Animal" 10 (1 # 2000000000) ["A10"] :: idle_animals.

(** An ecosystem with a spent producer and animals that offer nothing. *)
Definition eco_zero : SpMap :=
  [species "P1" "Producer" 100 0 [];
   species "P2" "Producer" 0 0 [];
   species "P3" "Producer" 100 0 [];
   species "A1" "Animal" 0 50 ["P1"]]
  ++ idle_animals.

(** Two hungry animals with the same reserve. *)
Definition eco_tie : SpMap :=
  producers3 ++
  [species "A1" "Animal" 10 10 ["P1"]; species "A2" "Animal" 10 20 ["P1"];
   species "A3" "Animal" 5 0 []; species "A4" "Animal" 5 0 [];
   species "A5" "Animal" 5 0 []; species "A6" "Animal" 5 0 [];
   species "A7" "Animal" 5 0 []; species "A8" "Animal" 5 0 [];
   species "A9" "Animal" 5 0 []; species "A10" "Animal" 5 0 []].

(** A mixed ecosystem: animals eating producers and each other. *)
Definition eco_mixed : SpMap :=
  producers3 ++
  [species "A1" "Animal" 10 50 ["P1"];
   species "A2" "Animal" 10 30 ["P1"; "P2"];
   species "A3" "Animal" 20 40 ["P2"; "A1"];
   species "A4" "Animal" 5 100 ["P3"];
   species "A5" "Animal" 7 10 ["A9"];
   species "A6" "Animal" 10 0 [];
   species "A7" "Animal" 30 60 ["P1"; "P2"; "P3"];
   species "A8" "Animal" 1 1 ["A7"];
   species "A9" "Animal" 50 5 ["P3"];
   species "A10" "Animal" 10 20 ["A9"; "P1"]].

(** Two producers only. *)
Definition eco_short : SpMap :=
  [species "P1" "Producer" 100 0 []; species "P2" "Producer" 100 0 [];
   species "A1" "Animal" 10 50 ["P1"]].

Definition P123 : list string := ["P1"; "P2"; "P3"].
Definition A12345 : list string := ["A1"; "A2"; "A3"; "A4"; "A5"].

End Examples.

(** ** Example sheets *)

Module Sheets.

Definition row (eco sp ty : string) (provided needed : option Q) (fs : cell)
  : RowIn :=
  {| r_Ecosystem := eco; r_Species := sp; r_Type := ty;
     r_CaloriesProvided := provided; r_CaloriesNeeded := needed;
     r_FoodSources := fs |}.

(** A sheet with padded names, an empty food cell and a species given
    twice. *)
Definition pond : DataFrame :=
  {| df_columns := required ++ ["Notes"];
     df_rows :=
       [row " Pond " "Algae" "Producer" (Some 100) (Some 0) CellNaN;
        row "Pond" " Frog" "Animal" (Some 10) (Some 5)
            (CellOther " Algae , Fly ,,");
        row "Marsh" "Reed" "Producer " (Some 40) (Some 0) CellNone;
        row "Pond" "Frog " " Animal" (Some 20) (Some 7) (CellOther "Algae")] |}.

(** Two ecosystems, as the loader would hand them to [run_solver]. *)
Definition two : list (string * SpMap) :=
  [("Mixed", Examples.eco_mixed); ("A", Examples.eco_A)].

End Sheets.

(** ** The simulator in binary64 *)

(** The same function with the numbers the program computes with: IEEE 754
    doubles and their rounded operations.  The definitions follow those
    above line by line; the history of the assignments is left out. *)
Module Binary64.

Record Species := {
  name : string;
  typ : string;
  cp0 : float;
  cn0 : float;
  foods : list string
}.

Definition SpMap := list (string * Species).

Fixpoint sp_lookup (sp_map : SpMap) (k : string) : option Species :=
  match sp_map with
  | [] => None
  | (k', s) :: rest => if String.eqb k' k then Some s else sp_lookup rest k
  end.

(** [d.get(k, 0.0)]; also [d[k]] where the key is known to be present. *)
Definition get (d : gmap string float) (k : string) : float :=
  default 0%float (d !! k).

Fixpoint dict_of (sp_map : SpMap) (field : Species -> float) (keys : list string)
  : option (gmap string float) :=
  match keys with
  | [] => Some ∅
  | s :: rest =>
      match sp_lookup sp_map s, dict_of sp_map field rest with
      | Some sp, Some d => Some (<[s := field sp]> d)
      | _, _ => None
      end
  end.

(** [(x1, a1) > (x2, a2)] on Python tuples of a float and a string. *)
Definition key_gt (k1 k2 : float * string) : bool :=
  if (fst k1 =? fst k2)%float then String.ltb (snd k2) (snd k1)
  else (fst k2 <? fst k1)%float.

Definition next_eater (cp : gmap string float) (first : string)
    (others : list string) : string :=
  pick_by key_gt (fun a => (get cp a, a)) first others.

Definition max_of (vs : list float) : float :=
  match vs with
  | [] => 0%float
  | v :: rest => pick_by (fun x best => (best <? x)%float) (fun v => v) v rest
  end.

Definition min_of (vs : list float) : float :=
  match vs with
  | [] => 0%float
  | v :: rest => pick_by (fun x best => (x <? best)%float) (fun v => v) v rest
  end.

(** [min(x, y)] of two arguments: [y] when it is smaller, else [x]. *)
Definition min2 (x y : float) : float := if (y <? x)%float then y else x.

(** [float(k)] for the length of a list, as in [k * min_top_cp] and
    [take_total / k]. *)
Definition of_nat (k : nat) : float :=
  PrimFloat.of_uint63 (Uint63.of_Z (Z.of_nat k)).

(** [for f in top: cp[f] -= take_each; ...]: [false] is [return False]. *)
Fixpoint draw (eps take_each : float) (top : list string) (cp : gmap string float)
  : bool * gmap string float :=
  match top with
  | [] => (true, cp)
  | f :: rest =>
      let cp' := <[f := (get cp f - take_each)%float]> cp in
      if (get cp' f <? - eps)%float then (false, cp')
      else if (get cp' f <=? eps)%float then (false, cp')
      else draw eps take_each rest cp'
  end.


Definition available_of (eps : float) (allowed_foods : list string)
    (cp : gmap string float) : list (string * float) :=
  map (fun f => (f, get cp f))
      (filter (fun f => (eps <? get cp f)%float = true) allowed_foods).

Definition top_of (eps max_cp : float) (available : list (string * float))
  : list string :=
  map fst (filter (fun fv => (abs (snd fv - max_cp) <=? eps)%float = true)
                  available).

(** One pass through the body of [while need > eps]: [inl cp] is
    [return False], [inr (need, cp)] the state at the next test of the
    loop. *)
Definition feed_pass (eps : float) (allowed_foods : list string) (need : float)
    (cp : gmap string float)
  : gmap string float + float * gmap string float :=
  let available := available_of eps allowed_foods cp in
  match available with
  | [] => inl cp
  | _ :: _ =>
      let max_cp := max_of (map snd available) in
      let top := top_of eps max_cp available in
      let k := length top in
      match k with
      | O => inl cp
      | S _ =>
          let min_top_cp := min_of (map (get cp) top) in
          let max_total_take := (of_nat k * min_top_cp)%float in
          let take_total := min2 need max_total_take in
          let take_each := (take_total / of_nat k)%float in
          match draw eps take_each top cp with
          | (false, cp') => inl cp'
          | (true, cp') => inr ((need - take_total)%float, cp')
          end
      end
  end.

(** [while need > eps: ...]; [None] is fuel exhausted. *)
Fixpoint feed (fuel : nat) (eps : float) (allowed_foods : list string)
    (need : float) (cp : gmap string float)
  : option (bool * gmap string float) :=
  if (eps <? need)%float then
    match fuel with
    | O => None
    | S fuel' =>
        match feed_pass eps allowed_foods need cp with
        | inl cp' => Some (false, cp')
        | inr (need', cp') => feed fuel' eps allowed_foods need' cp'
        end
    end
  else Some (true, cp).

Definition hungry_of (eps : float) (cn : gmap string float) (animals : list string)
  : list string :=
  filter (fun a => (eps <? get cn a)%float = true) animals.

(** How a call ends: it returns, it raises, or the model runs out of fuel
    inside a feeding loop or between turns. *)
Inductive ending :=
| Returned (b : bool) (cp : gmap string float)
| Raised (e : exn)
| FeedingUnfinished
| TurnsUnfinished.

(** One pass through the body of [while True]: what the call ends with, or
    the state the next turn starts from. *)
Definition turn (ifuel : nat) (sp_map : SpMap) (selected : gset string)
    (animals : list string) (eps : float) (cn cp : gmap string float)
  : ending + gmap string float * gmap string float :=
  match hungry_of eps cn animals with
  | [] => inl (Returned true cp)
  | first :: others =>
      let eater := next_eater cp first others in
      let need := get cn eater in
      if (need <=? eps)%float then inr (<[eater := 0%float]> cn, cp)
      else
        match sp_lookup sp_map eater with
        | None => inl (Raised KeyError)
        | Some sp =>
            let allowed_foods := filter (fun f => f ∈ selected) (foods sp) in
            match allowed_foods with
            | [] => inl (Returned false cp)
            | _ :: _ =>
                match feed ifuel eps allowed_foods need cp with
                | None => inl FeedingUnfinished
                | Some (false, cp') => inl (Returned false cp')
                | Some (true, cp') => inr (<[eater := 0%float]> cn, cp')
                end
            end
        end
  end.

Fixpoint turns (ifuel fuel : nat) (sp_map : SpMap) (selected : gset string)
    (animals : list string) (eps : float) (cn cp : gmap string float) : ending :=
  match fuel with
  | O => TurnsUnfinished
  | S fuel' =>
      match turn ifuel sp_map selected animals eps cn cp with
      | inl e => e
      | inr (cn', cp') => turns ifuel fuel' sp_map selected animals eps cn' cp'
      end
  end.

(** The default [eps = 1e-9]. *)
Definition eps_default : float := 0x1.12e0be826d695p-30%float.

Definition simulate_set_fuel (ifuel fuel : nat) (sp_map : SpMap)
    (producers animals : list string) (eps : float) : ending :=
  let selected : gset string := list_to_set producers ∪ list_to_set animals in
  match dict_of sp_map cp0 (elements selected) with
  | None => Raised KeyError
  | Some cp =>
      match dict_of sp_map cn0 animals with
      | None => Raised KeyError
      | Some cn => turns ifuel fuel sp_map selected animals eps cn cp
      end
  end.

End Binary64.

(** ** Examples in binary64 *)

Module Doubles.

(** 12500000.7, 1e30 and 37500050 as doubles. *)
Definition r12500000_7 : float := 0x1.7d78416666666p+23%float.
Definition n37500050 : float := 37500050%float.


Definition species (n t : string) (provided needed : float) (fs : list string)
  : string * Binary64.Species :=
  (n, {| Binary64.name := n; Binary64.typ := t; Binary64.cp0 := provided;
         Binary64.cn0 := needed; Binary64.foods := fs |}).

(** The three producers, a hungry animal that may eat them and then A2,
    and A2. *)
Definition eco : Binary64.SpMap :=
  [species "P1" "Producer" r12500000_7 0 [];
   species "P2" "Producer" r12500000_7 0 [];
   species "P3" "Producer" r12500000_7 0 [];
   species "A1" "Animal" 10 n37500050 ["P1"; "P2"; "P3"; "A2"];
   species "A2" "Animal" 100 0 []].

End Doubles.


(** * Proofs *)

(** ** Comparisons on rationals *)

Lemma Qltb_lt (x y : Q) : Qltb x y = true <-> x < y.
Proof.
  unfold Qltb. rewrite negb_true_iff. split.
  - intros H. apply Qnot_le_lt. intros Hle.
    apply Qle_bool_iff in Hle. congruence.
  - intros H. destruct (Qle_bool y x) eqn:E; [|reflexivity].
    apply Qle_bool_iff in E. lra.
Qed.

Lemma Qltb_ge (x y : Q) : Qltb x y = false <-> y <= x.
Proof.
  unfold Qltb. rewrite negb_false_iff. apply Qle_bool_iff.
Qed.

Lemma Qle_bool_gt (x y : Q) : Qle_bool x y = false <-> y < x.
Proof.
  rewrite <- Qltb_lt. unfold Qltb. rewrite negb_true_iff. reflexivity.
Qed.

(** ** Scans: [max], [min] *)

Lemma pick_by_In {A K : Type} (better : K -> K -> bool) (key : A -> K)
    (items : list A) (best : A) :
  In (pick_by better key best items) (best :: items).
Proof.
  revert best. induction items as [|x rest IH]; intros best; simpl.
  - left. reflexivity.
  - destruct (IH (if better (key x) (key best) then x else best)) as [H|H].
    + destruct (better (key x) (key best)); rewrite <- H; auto.
    + right. right. exact H.
Qed.

Lemma pick_max_ge (items : list Q) (best : Q) :
  let m := pick_by (fun x b => Qltb b x) (fun v => v) best items in
  best <= m /\ forall v, In v items -> v <= m.
Proof.
  revert best. induction items as [|x rest IH]; intros best; simpl.
  - split; [lra | tauto].
  - destruct (IH (if Qltb best x then x else best)) as [H1 H2].
    destruct (Qltb best x) eqn:E.
    + apply Qltb_lt in E. split; [lra|]. intros v [->|Hv]; auto.
    + apply Qltb_ge in E. split; [lra|]. intros v [->|Hv]; [lra | auto].
Qed.


Lemma max_of_ge (vs : list Q) (v : Q) : In v vs -> v <= max_of vs.
Proof.
  destruct vs as [|v0 rest]; simpl; [tauto|].
  destruct (pick_max_ge rest v0) as [H1 H2].
  intros [->|Hv]; auto.
Qed.



Lemma min_of_In (vs : list Q) : vs <> [] -> In (min_of vs) vs.
Proof.
  destruct vs as [|v0 rest]; [congruence|]. intros _. apply pick_by_In.
Qed.

(** ** The tie group *)

Lemma In_available (eps : Q) (allowed_foods : list string) (cp : gmap string Q)
    (f : string) (v : Q) :
  In (f, v) (available_of eps allowed_foods cp) <->
  In f allowed_foods /\ eps < get cp f /\ v = get cp f.
Proof.
  unfold available_of. rewrite in_map_iff. split.
  - intros [g [Hg Hin]]. inversion Hg; subst.
    apply list_elem_of_In, list_elem_of_filter in Hin as [Hlt Hin].
    apply Qltb_lt in Hlt. apply list_elem_of_In in Hin. auto.
  - intros (Hin & Hlt & ->). exists f. split; [reflexivity|].
    apply list_elem_of_In, list_elem_of_filter. split.
    + apply Qltb_lt. exact Hlt.
    + apply list_elem_of_In. exact Hin.
Qed.

Lemma In_top (eps max_cp : Q) (available : list (string * Q)) (f : string) :
  In f (top_of eps max_cp available) <->
  exists v, In (f, v) available /\ Qabs (v - max_cp) <= eps.
Proof.
  unfold top_of. rewrite in_map_iff. split.
  - intros [[g v] [Hg Hin]]. simpl in Hg. subst g. exists v.
    apply list_elem_of_In, list_elem_of_filter in Hin as [Hle Hin].
    simpl in Hle. apply Qle_bool_iff in Hle. apply list_elem_of_In in Hin. auto.
  - intros [v [Hin Hle]]. exists (f, v). split; [reflexivity|].
    apply list_elem_of_In, list_elem_of_filter. split.
    + simpl. apply Qle_bool_iff. exact Hle.
    + apply list_elem_of_In. exact Hin.
Qed.

(** ** One pass of the [for] loop *)

Lemma get_set_cp (f : string) (v : Q) (p : pool) : get (cp (set_cp f v p)) f = v.
Proof. unfold get, set_cp. simpl. rewrite lookup_insert_eq. reflexivity. Qed.

Lemma get_set_cp_ne (f g : string) (v : Q) (p : pool) :
  f <> g -> get (cp (set_cp f v p)) g = get (cp p) g.
Proof.
  intros Hne. unfold get, set_cp. simpl. rewrite lookup_insert_ne; auto.
Qed.

Lemma draw_cons (eps take_each : Q) (f : string) (rest : list string) (p : pool) :
  draw eps take_each (f :: rest) p =
  let v := get (cp p) f - take_each in
  if Qltb v (- eps) then (false, set_cp f v p)
  else if Qle_bool v eps then (false, set_cp f v p)
  else draw eps take_each rest (set_cp f v p).
Proof. cbn [draw]. rewrite get_set_cp. reflexivity. Qed.

Lemma draw_ok_first (eps take_each : Q) (f : string) (rest : list string)
    (p p' : pool) :
  draw eps take_each (f :: rest) p = (true, p') ->
  eps < get (cp p) f - take_each.
Proof.
  rewrite draw_cons. simpl.
  destruct (Qltb _ (- eps)); [discriminate|].
  destruct (Qle_bool _ eps) eqn:E; [discriminate|].
  intros _. apply Qle_bool_gt. exact E.
Qed.

(** ** One micro-step of the feeding loop *)

Section MicroStep.
Variables (eps need : Q) (allowed_foods : list string) (p : pool).

Lemma top_member (f : string) :
  In f (top_now eps allowed_foods (cp p)) ->
  In f allowed_foods /\ eps < get (cp p) f /\
  get (cp p) f <= max_now eps allowed_foods (cp p) /\
  Qabs (get (cp p) f - max_now eps allowed_foods (cp p)) <= eps.
Proof.
  intros Hf. apply In_top in Hf as [v [Hin Habs]].
  assert (Hmax : v <= max_now eps allowed_foods (cp p)).
  { apply max_of_ge. apply in_map_iff. exists (f, v). auto. }
  apply In_available in Hin as (Ha & Hlt & ->). auto.
Qed.

Lemma top_eps_nonneg : top_now eps allowed_foods (cp p) <> [] -> 0 <= eps.
Proof.
  destruct (top_now eps allowed_foods (cp p)) as [|f rest] eqn:E; [congruence|].
  intros _.
  assert (Hf : In f (top_now eps allowed_foods (cp p)))
    by (rewrite E; left; reflexivity).
  apply top_member in Hf as (_ & _ & _ & Habs).
  pose proof (Qabs_nonneg (get (cp p) f - max_now eps allowed_foods (cp p))).
  lra.
Qed.

Lemma k_pos :
  top_now eps allowed_foods (cp p) <> [] ->
  0 < inject_Z (Z.of_nat (length (top_now eps allowed_foods (cp p)))).
Proof.
  intros Hne. destruct (top_now eps allowed_foods (cp p)); [congruence|].
  change 0 with (inject_Z 0). rewrite <- Zlt_Qlt. simpl length. lia.
Qed.

Lemma min_top_member :
  top_now eps allowed_foods (cp p) <> [] ->
  exists g, In g (top_now eps allowed_foods (cp p)) /\
            min_of (map (get (cp p)) (top_now eps allowed_foods (cp p)))
            = get (cp p) g.
Proof.
  intros Hne.
  assert (Hin : In (min_of (map (get (cp p)) (top_now eps allowed_foods (cp p))))
                   (map (get (cp p)) (top_now eps allowed_foods (cp p)))).
  { apply min_of_In.
    destruct (top_now eps allowed_foods (cp p)); [congruence | discriminate]. }
  apply in_map_iff in Hin as [g [Hg Hin]]. eauto.
Qed.

(** When the [for] loop runs to its end, the whole remaining need was
    taken: a draw of the joint capacity empties the first member. *)
Lemma draw_now_take (p' : pool) :
  draw eps (each_now eps need allowed_foods (cp p))
       (top_now eps allowed_foods (cp p)) p = (true, p') ->
  top_now eps allowed_foods (cp p) <> [] ->
  take_now eps need allowed_foods (cp p) == need /\ 0 <= eps.
Proof.
  intros Hd Hne.
  pose proof (k_pos Hne) as Hk.
  destruct (min_top_member Hne) as [g [Hg Hmin]].
  apply top_member in Hg as (_ & Hglt & Hgmax & Hgabs).
  pose proof (top_eps_nonneg Hne) as Heps.
  split; [|exact Heps].
  unfold each_now, take_now in *. cbv zeta in *.
  set (top := top_now eps allowed_foods (cp p)) in *.
  set (k := inject_Z (Z.of_nat (length top))) in *.
  set (min_top_cp := min_of (map (get (cp p)) top)) in *.
  assert (Hm : min_top_cp == get (cp p) g) by (rewrite Hmin; reflexivity).
  destruct (Qlt_le_dec (k * min_top_cp) need) as [Hlt|Hle].
  2:{ apply Q.min_l. exact Hle. }
  exfalso.
  assert (Heach : Qmin need (k * min_top_cp) / k == min_top_cp).
  { rewrite Q.min_r by lra. field. lra. }
  destruct top as [|f rest] eqn:E; [congruence|].
  assert (Hf : In f (top_now eps allowed_foods (cp p)))
    by (fold top; rewrite E; left; reflexivity).
  apply top_member in Hf as (_ & _ & Hfmax & Hfabs).
  apply draw_ok_first in Hd.
  apply Qabs_Qle_condition in Hgabs. lra.
Qed.

End MicroStep.

(** ** The feeding loop ends *)

Lemma feed_eq (fuel : nat) (eps : Q) (allowed_foods : list string) (need : Q)
    (p : pool) :
  feed fuel eps allowed_foods need p =
  if Qltb eps need then
    match fuel with
    | O => None
    | S fuel' =>
        match top_now eps allowed_foods (cp p) with
        | [] => Some (false, p)
        | top =>
            match draw eps (each_now eps need allowed_foods (cp p)) top p with
            | (false, p') => Some (false, p')
            | (true, p') =>
                feed fuel' eps allowed_foods
                     (need - take_now eps need allowed_foods (cp p)) p'
            end
        end
    end
  else Some (true, p).
Proof.
  unfold each_now, take_now, top_now, max_now.
  destruct fuel; cbn [feed]; [reflexivity|].
  destruct (Qltb eps need); [|reflexivity].
  destruct (available_of eps allowed_foods (cp p)) eqn:Ea; [reflexivity|].
  cbv zeta.
  destruct (top_of eps _ _) eqn:Et; reflexivity.
Qed.

Lemma feed_once_spec (fuel : nat) (eps : Q) (allowed_foods : list string)
    (need : Q) (p : pool) :
  feed (S fuel) eps allowed_foods need p
  = Some (feed_once eps allowed_foods need p).
Proof.
  rewrite feed_eq. unfold feed_once.
  destruct (Qltb eps need) eqn:Hb; [|reflexivity].
  destruct (top_now eps allowed_foods (cp p)) as [|f rest] eqn:Et; [reflexivity|].
  destruct (draw eps _ (f :: rest) p) as [[|] p'] eqn:Hd; [|reflexivity].
  rewrite <- Et in Hd.
  assert (Hne : top_now eps allowed_foods (cp p) <> [])
    by (rewrite Et; discriminate).
  destruct (draw_now_take _ _ _ _ _ Hd Hne) as [Htake Heps].
  apply Qltb_lt in Hb. rewrite feed_eq.
  assert (Hz : Qltb eps (need - take_now eps need allowed_foods (cp p)) = false).
  { apply Qltb_ge. lra. }
  rewrite Hz. reflexivity.
Qed.

(** Every iteration entered returns [False] or strictly reduces the need. *)

(** ** The turns end *)

Lemma filter_length_le {A : Type} (P1 P2 : A -> Prop)
    `{!forall x, Decision (P1 x)} `{!forall x, Decision (P2 x)} (l : list A) :
  (forall x, P2 x -> P1 x) ->
  (length (filter P2 l) <= length (filter P1 l))%nat.
Proof.
  intros Hsub. induction l as [|y l IH]; [reflexivity|].
  rewrite !filter_cons.
  destruct (decide (P2 y)) as [H2|H2]; destruct (decide (P1 y)) as [H1|H1];
    simpl; try lia.
  exfalso. auto.
Qed.

Lemma filter_length_lt {A : Type} (P1 P2 : A -> Prop)
    `{!forall x, Decision (P1 x)} `{!forall x, Decision (P2 x)} (l : list A)
    (x : A) :
  (forall y, P2 y -> P1 y) -> In x l -> P1 x -> ~ P2 x ->
  (length (filter P2 l) < length (filter P1 l))%nat.
Proof.
  intros Hsub Hin Hx1 Hx2. induction l as [|y l IH]; [destruct Hin|].
  rewrite !filter_cons.
  pose proof (filter_length_le P1 P2 l Hsub) as Hle.
  destruct Hin as [->|Hin].
  - destruct (decide (P2 x)); [tauto|].
    destruct (decide (P1 x)); [|tauto]. simpl. lia.
  - specialize (IH Hin).
    destruct (decide (P2 y)) as [H2|H2]; destruct (decide (P1 y)) as [H1|H1];
      simpl; try lia.
    exfalso. auto.
Qed.

Lemma In_hungry (eps : Q) (cn : gmap string Q) (animals : list string) (a : string) :
  In a (hungry_of eps cn animals) <-> In a animals /\ eps < get cn a.
Proof.
  unfold hungry_of. rewrite <- list_elem_of_In, list_elem_of_filter.
  rewrite Qltb_lt, list_elem_of_In. tauto.
Qed.

Lemma get_insert (cn : gmap string Q) (a : string) (v : Q) :
  get (<[a := v]> cn) a = v.
Proof. unfold get. rewrite lookup_insert_eq. reflexivity. Qed.

Lemma get_insert_ne (cn : gmap string Q) (a b : string) (v : Q) :
  a <> b -> get (<[a := v]> cn) b = get cn b.
Proof. intros Hne. unfold get. rewrite lookup_insert_ne; auto. Qed.

(** Marking a hungry animal satisfied shortens the hungry list. *)
Lemma hungry_shrinks (eps : Q) (cn : gmap string Q) (animals : list string)
    (eater : string) :
  0 <= eps -> In eater (hungry_of eps cn animals) ->
  (length (hungry_of eps (<[eater := 0%Q]> cn) animals)
   < length (hungry_of eps cn animals))%nat.
Proof.
  intros Heps Hin. apply In_hungry in Hin as [Hin Hlt].
  unfold hungry_of. apply filter_length_lt with (x := eater); auto.
  - intros y Hy. destruct (decide (eater = y)) as [->|Hne].
    + rewrite get_insert in Hy. apply Qltb_lt in Hy. lra.
    + rewrite get_insert_ne in Hy; auto.
  - apply Qltb_lt. exact Hlt.
  - rewrite get_insert. intros Hy. apply Qltb_lt in Hy. lra.
Qed.

Lemma next_eater_hungry (eps : Q) (cn cp : gmap string Q) (animals : list string)
    (first : string) (others : list string) :
  hungry_of eps cn animals = first :: others ->
  In (next_eater cp first others) (hungry_of eps cn animals).
Proof. intros ->. apply pick_by_In. Qed.

Lemma turns_S (i fuel : nat) (sp_map : SpMap) (selected : gset string)
    (animals : list string) (eps : Q) (cn : gmap string Q) (p : pool) :
  turns (S i) (S fuel) sp_map selected animals eps cn p =
  match turn sp_map selected animals eps cn p with
  | TurnReturn o => Some o
  | TurnNext cn' p' => turns (S i) fuel sp_map selected animals eps cn' p'
  end.
Proof.
  cbn [turns]. unfold turn.
  destruct (hungry_of eps cn animals) as [|first others]; [reflexivity|].
  cbv zeta. destruct (Qle_bool _ eps); [reflexivity|].
  destruct (sp_lookup sp_map _) as [sp|]; [|reflexivity].
  destruct (filter _ (foods sp)) as [|f0 fs]; [reflexivity|].
  rewrite feed_once_spec.
  destruct (feed_once _ _ _ _) as [[|] p']; reflexivity.
Qed.

(** A turn that does not return marks a hungry animal satisfied. *)
Lemma turn_next (sp_map : SpMap) (selected : gset string) (animals : list string)
    (eps : Q) (cn cn' : gmap string Q) (p p' : pool) :
  turn sp_map selected animals eps cn p = TurnNext cn' p' ->
  exists first others sp,
    let eater := next_eater (cp p) first others in
    let allowed_foods := filter (fun f => f ∈ selected) (foods sp) in
    hungry_of eps cn animals = first :: others /\
    In eater animals /\ eps < get cn eater /\
    sp_lookup sp_map eater = Some sp /\
    allowed_foods <> [] /\
    feed_once eps allowed_foods (get cn eater) p = (true, p') /\
    cn' = <[eater := 0]> cn.
Proof.
  unfold turn.
  destruct (hungry_of eps cn animals) as [|first others] eqn:Hh; [discriminate|].
  pose proof (next_eater_hungry eps cn (cp p) animals first others Hh) as Hin.
  cbv zeta. set (eater := next_eater (cp p) first others) in *.
  apply In_hungry in Hin as [Hin Hlt].
  apply Qle_bool_gt in Hlt as Hb. rewrite Hb.
  destruct (sp_lookup sp_map eater) as [sp|] eqn:Hsp; [|discriminate].
  destruct (filter _ (foods sp)) as [|f0 fs] eqn:Ha; [discriminate|].
  destruct (feed_once _ _ _ _) as [[|] p1] eqn:Hf; [|discriminate].
  intros H. inversion H; subst. exists first, others, sp.
  rewrite Ha. repeat split; auto; discriminate.
Qed.

Lemma feed_once_true (eps : Q) (allowed_foods : list string) (need : Q)
    (p p' : pool) :
  feed_once eps allowed_foods need p = (true, p') -> eps < need ->
  top_now eps allowed_foods (cp p) <> [] /\
  draw eps (each_now eps need allowed_foods (cp p))
       (top_now eps allowed_foods (cp p)) p = (true, p') /\
  take_now eps need allowed_foods (cp p) == need /\ 0 <= eps.
Proof.
  intros H Hlt. unfold feed_once in H. apply Qltb_lt in Hlt. rewrite Hlt in H.
  destruct (top_now eps allowed_foods (cp p)) as [|f rest] eqn:Et; [discriminate|].
  rewrite <- Et in H.
  assert (Hne : top_now eps allowed_foods (cp p) <> [])
    by (rewrite Et; discriminate).
  rewrite <- Et.
  destruct (draw_now_take _ _ _ _ _ H Hne) as [Htake Heps]. auto.
Qed.

Lemma turn_next_shrinks (sp_map : SpMap) (selected : gset string)
    (animals : list string) (eps : Q) (cn cn' : gmap string Q) (p p' : pool) :
  turn sp_map selected animals eps cn p = TurnNext cn' p' ->
  (length (hungry_of eps cn' animals) < length (hungry_of eps cn animals))%nat.
Proof.
  intros H. apply turn_next in H as (first & others & sp & H). cbv zeta in H.
  destruct H as (Hh & Hin & Hlt & _ & _ & Hf & ->).
  apply feed_once_true in Hf as (_ & _ & _ & Heps); [|exact Hlt].
  apply hungry_shrinks; [exact Heps|]. apply In_hungry. auto.
Qed.

Lemma turns_total (sp_map : SpMap) (selected : gset string) (animals : list string)
    (eps : Q) (fuel : nat) :
  forall (cn : gmap string Q) (p : pool),
    (length (hungry_of eps cn animals) < fuel)%nat ->
    exists r, forall i extra,
      turns (S i) (fuel + extra) sp_map selected animals eps cn p = Some r.
Proof.
  induction fuel as [|fuel IH]; intros cn p Hlen; [lia|].
  destruct (turn sp_map selected animals eps cn p) as [o|cn' p'] eqn:Ht.
  - exists o. intros i extra. simpl Nat.add. rewrite turns_S, Ht. reflexivity.
  - apply turn_next_shrinks in Ht as Hshrink.
    destruct (IH cn' p') as [r Hr]; [lia|].
    exists r. intros i extra. simpl Nat.add. rewrite turns_S, Ht. apply Hr.
Qed.

(** The loop rule for the turns: an invariant of the state between turns
    gives a property of whatever the loop returns. *)
Lemma turns_rule (sp_map : SpMap) (selected : gset string) (animals : list string)
    (eps : Q) (Inv : gmap string Q -> pool -> Prop) (Post : outcome -> Prop) :
  (forall cn p o, Inv cn p ->
     turn sp_map selected animals eps cn p = TurnReturn o -> Post o) ->
  (forall cn p cn' p', Inv cn p ->
     turn sp_map selected animals eps cn p = TurnNext cn' p' -> Inv cn' p') ->
  forall fuel i cn p r,
    Inv cn p ->
    turns (S i) fuel sp_map selected animals eps cn p = Some r -> Post r.
Proof.
  intros Hret Hnext. induction fuel as [|fuel IH]; intros i cn p r HI H.
  - discriminate.
  - rewrite turns_S in H.
    destruct (turn sp_map selected animals eps cn p) as [o|cn' p'] eqn:Ht.
    + inversion H; subst. eapply Hret; eauto.
    + eapply IH; [|exact H]. eapply Hnext; eauto.
Qed.

Lemma hungry_length (eps : Q) (cn : gmap string Q) (animals : list string) :
  (length (hungry_of eps cn animals) <= length animals)%nat.
Proof. apply length_filter. Qed.

Lemma simulate_set_fuel_total (sp_map : SpMap) (producers animals : list string)
    (eps : Q) :
  exists r, forall extra,
    simulate_set_fuel (S (length animals) + extra) sp_map producers animals eps
    = Some r.
Proof.
  unfold simulate_set_fuel. cbv zeta.
  destruct (dict_of sp_map cp0 _) as [cp1|]; [|eexists; reflexivity].
  destruct (dict_of sp_map cn0 animals) as [cn1|]; [|eexists; reflexivity].
  destruct (turns_total sp_map (list_to_set producers ∪ list_to_set animals)
              animals eps (S (length animals)) cn1 {| cp := cp1; writes := [] |})
    as [r Hr].
  { pose proof (hungry_length eps cn1 animals). lia. }
  exists r. intros extra. apply (Hr (length animals + extra)%nat extra).
Qed.

(** ** The initial dicts *)

Lemma dict_of_lookup (sp_map : SpMap) (field : Species -> Q) (keys : list string)
    (d : gmap string Q) (s : string) :
  dict_of sp_map field keys = Some d -> In s keys ->
  exists sp, sp_lookup sp_map s = Some sp /\ d !! s = Some (field sp).
Proof.
  revert d. induction keys as [|k rest IH]; intros d Hd Hin; [destruct Hin|].
  cbn [dict_of] in Hd.
  destruct (sp_lookup sp_map k) as [sp|] eqn:Hk; [|discriminate].
  destruct (dict_of sp_map field rest) as [d'|]; [|discriminate].
  inversion Hd; subst. destruct (decide (k = s)) as [->|Hne].
  - exists sp. rewrite lookup_insert_eq. auto.
  - destruct Hin as [->|Hin]; [congruence|].
    destruct (IH d' eq_refl Hin) as [sp' [H1 H2]]. exists sp'.
    rewrite lookup_insert_ne; auto.
Qed.

Lemma dict_of_is_Some (sp_map : SpMap) (field : Species -> Q) (keys : list string) :
  (forall s, In s keys -> is_Some (sp_lookup sp_map s)) ->
  is_Some (dict_of sp_map field keys).
Proof.
  induction keys as [|k rest IH]; intros H; cbn [dict_of]; [eauto|].
  destruct (H k) as [sp ->]; [left; reflexivity|].
  destruct IH as [d ->]; [intros s Hs; apply H; right; exact Hs|]. eauto.
Qed.

Lemma dict_of_get (sp_map : SpMap) (field : Species -> Q) (keys : list string)
    (d : gmap string Q) (s : string) (sp : Species) :
  dict_of sp_map field keys = Some d -> In s keys ->
  sp_lookup sp_map s = Some sp -> get d s = field sp.
Proof.
  intros Hd Hin Hs. destruct (dict_of_lookup _ _ _ _ _ Hd Hin) as [sp' [H1 H2]].
  unfold get. rewrite H2. simpl. congruence.
Qed.

(** ** The history of a run *)

Lemma replay_app (ws1 ws2 : list (string * Q)) (d : gmap string Q) :
  replay (ws1 ++ ws2) d = replay ws2 (replay ws1 d).
Proof. apply fold_left_app. Qed.

Lemma replay_get (ws : list (string * Q)) (d : gmap string Q) (s : string) :
  (get (replay ws d) s = get d s /\ forall v, ~ In (s, v) ws) \/
  In (s, get (replay ws d) s) ws.
Proof.
  revert d. induction ws as [|[f v] ws IH]; intros d.
  - left. split; [reflexivity | tauto].
  - cbn [replay fold_left fst snd]. fold (replay ws (<[f := v]> d)).
    destruct (IH (<[f := v]> d)) as [[Hg Hno]|Hin].
    + destruct (decide (f = s)) as [->|Hne].
      * right. left. rewrite Hg, get_insert. reflexivity.
      * left. rewrite Hg, get_insert_ne by exact Hne. split; [reflexivity|].
        intros v' [Heq|Hin]; [congruence | exact (Hno v' Hin)].
    + right. right. exact Hin.
Qed.

Lemma draw_trace (eps take_each : Q) (top : list string) :
  forall (p p' : pool) (b : bool),
    draw eps take_each top p = (b, p') ->
    exists ws,
      writes p' = writes p ++ ws /\ cp p' = replay ws (cp p) /\
      Forall (fun w => In (fst w) top) ws /\
      if b then Forall (safe eps) ws
      else exists pre w, ws = pre ++ [w] /\ Forall (safe eps) pre /\ ~ safe eps w.
Proof.
  induction top as [|f rest IH]; intros p p' b Hd.
  - inversion Hd; subst. exists []. rewrite app_nil_r. repeat split; constructor.
  - rewrite draw_cons in Hd. cbv zeta in Hd.
    set (v := get (cp p) f - take_each) in *.
    destruct (Qltb v (- eps)) eqn:E1.
    { inversion Hd; subst. exists [(f, v)]. repeat split.
      - constructor; [left; reflexivity | constructor].
      - exists [], (f, v). repeat split; [constructor|].
        apply Qltb_lt in E1. intros [_ H]. simpl in H. lra. }
    destruct (Qle_bool v eps) eqn:E2.
    { inversion Hd; subst. exists [(f, v)]. repeat split.
      - constructor; [left; reflexivity | constructor].
      - exists [], (f, v). repeat split; [constructor|].
        apply Qle_bool_iff in E2. intros [H _]. simpl in H. lra. }
    destruct (IH _ _ _ Hd) as (ws & Hw & Hc & Hin & Hs).
    apply Qltb_ge in E1. apply Qle_bool_gt in E2.
    assert (Hsafe : safe eps (f, v)) by (split; simpl; lra).
    exists ((f, v) :: ws). split; [|split; [|split]].
    + rewrite Hw. cbn [set_cp writes]. rewrite <- app_assoc. reflexivity.
    + rewrite Hc. reflexivity.
    + constructor; [left; reflexivity|].
      eapply Forall_impl; [exact Hin|]. intros w Hw'. right. exact Hw'.
    + destruct b.
      * constructor; assumption.
      * destruct Hs as (pre & w & -> & Hpre & Hbad).
        exists ((f, v) :: pre), w. repeat split; auto.
Qed.

Lemma top_now_allowed (eps : Q) (allowed_foods : list string)
    (cp : gmap string Q) (f : string) :
  In f (top_now eps allowed_foods cp) -> In f allowed_foods.
Proof.
  intros H. apply (top_member eps allowed_foods {| cp := cp; writes := [] |}) in H.
  tauto.
Qed.

Lemma feed_once_trace (eps : Q) (allowed_foods : list string) (need : Q)
    (p p' : pool) (b : bool) :
  feed_once eps allowed_foods need p = (b, p') ->
  exists ws,
    writes p' = writes p ++ ws /\ cp p' = replay ws (cp p) /\
    Forall (fun w => In (fst w) allowed_foods) ws /\
    if b then Forall (safe eps) ws
    else ws = [] \/
         exists pre w, ws = pre ++ [w] /\ Forall (safe eps) pre /\ ~ safe eps w.
Proof.
  unfold feed_once. intros H.
  assert (Hnil : forall b0, (b0, p) = (b, p') ->
    exists ws, writes p' = writes p ++ ws /\ cp p' = replay ws (cp p) /\
      Forall (fun w => In (fst w) allowed_foods) ws /\
      if b then Forall (safe eps) ws
      else ws = [] \/
           exists pre w, ws = pre ++ [w] /\ Forall (safe eps) pre /\ ~ safe eps w).
  { intros b0 E. inversion E; subst. exists []. rewrite app_nil_r.
    repeat split; [constructor|]. destruct b; [constructor | left; reflexivity]. }
  destruct (Qltb eps need); [|eauto].
  destruct (top_now eps allowed_foods (cp p)) as [|f rest] eqn:Et; [eauto|].
  apply draw_trace in H as (ws & Hw & Hc & Hin & Hs).
  exists ws. repeat split; auto.
  - eapply Forall_impl; [exact Hin|]. intros w Hw'.
    apply (top_now_allowed eps allowed_foods (cp p)). rewrite Et. exact Hw'.
  - destruct b; [exact Hs | right; exact Hs].
Qed.

(** A turn that returns. *)
Lemma turn_return (sp_map : SpMap) (selected : gset string) (animals : list string)
    (eps : Q) (cn : gmap string Q) (p : pool) (o : outcome) :
  turn sp_map selected animals eps cn p = TurnReturn o ->
  (hungry_of eps cn animals = [] /\ o = Returned true p) \/
  exists first others,
    let eater := next_eater (cp p) first others in
    hungry_of eps cn animals = first :: others /\
    ((sp_lookup sp_map eater = None /\ o = Raised KeyError) \/
     exists sp,
       let allowed_foods := filter (fun f => f ∈ selected) (foods sp) in
       sp_lookup sp_map eater = Some sp /\
       ((allowed_foods = [] /\ o = Returned false p) \/
        exists p',
          allowed_foods <> [] /\
          feed_once eps allowed_foods (get cn eater) p = (false, p') /\
          o = Returned false p')).
Proof.
  unfold turn.
  destruct (hungry_of eps cn animals) as [|first others] eqn:Hh.
  { intros H. inversion H. left. auto. }
  intros H. right. exists first, others. cbv zeta in H |- *.
  split; [reflexivity|].
  destruct (Qle_bool _ eps); [discriminate|].
  destruct (sp_lookup sp_map _) as [sp|]; [|inversion H; auto].
  right. exists sp. split; [reflexivity|].
  destruct (filter _ (foods sp)) as [|f0 fs] eqn:Ha; [inversion H; auto|].
  destruct (feed_once _ _ _ _) as [[|] p'] eqn:Hf; [discriminate|].
  inversion H; subst. right. exists p'. repeat split; auto; discriminate.
Qed.

Lemma pool_ok_run_ok (eps : Q) (selected : gset string) (cp_init : gmap string Q)
    (p : pool) (b : bool) :
  pool_ok eps selected cp_init p -> run_ok eps selected cp_init (Returned b p).
Proof.
  intros (Hc & Hs & Hsel). repeat split; auto.
  exists (writes p), []. rewrite app_nil_r. auto.
Qed.

Lemma feed_once_ok (eps : Q) (selected : gset string) (cp_init : gmap string Q)
    (allowed_foods : list string) (need : Q) (p p' : pool) (b : bool) :
  pool_ok eps selected cp_init p ->
  (forall f, In f allowed_foods -> f ∈ selected) ->
  feed_once eps allowed_foods need p = (b, p') ->
  if b then pool_ok eps selected cp_init p'
  else run_ok eps selected cp_init (Returned false p').
Proof.
  intros (Hc & Hs & Hsel) Hall Hf.
  apply feed_once_trace in Hf as (ws & Hw & Hc' & Hin & Hshape).
  assert (Hsel' : Forall (fun w => fst w ∈ selected) (writes p')).
  { rewrite Hw. apply Forall_app. split; [exact Hsel|].
    eapply Forall_impl; [exact Hin|]. intros w Hw'. apply Hall. exact Hw'. }
  assert (Hcp : cp p' = replay (writes p') cp_init).
  { rewrite Hw, replay_app, <- Hc. exact Hc'. }
  destruct b.
  - repeat split; auto. rewrite Hw. apply Forall_app. auto.
  - repeat split; auto.
    destruct Hshape as [->|(pre & w & -> & Hpre & Hbad)].
    + exists (writes p), []. rewrite Hw. repeat split; auto.
    + exists (writes p ++ pre), [w]. rewrite Hw, app_assoc.
      repeat split; [apply Forall_app; auto|]. right. eauto.
Qed.

Lemma allowed_selected (selected : gset string) (fs : list string) (f : string) :
  In f (filter (fun f => f ∈ selected) fs) -> f ∈ selected.
Proof.
  intros H. apply list_elem_of_In, list_elem_of_filter in H. tauto.
Qed.

Lemma turns_run_ok (sp_map : SpMap) (selected : gset string) (animals : list string)
    (eps : Q) (cp_init : gmap string Q) (fuel i : nat) (cn : gmap string Q)
    (p : pool) (r : outcome) :
  pool_ok eps selected cp_init p ->
  turns (S i) fuel sp_map selected animals eps cn p = Some r ->
  run_ok eps selected cp_init r.
Proof.
  apply (turns_rule sp_map selected animals eps
           (fun _ p => pool_ok eps selected cp_init p)
           (run_ok eps selected cp_init)).
  - intros cn0' p0 o Hok Ht.
    apply turn_return in Ht as [[_ ->]|(first & others & Ht)].
    { apply pool_ok_run_ok. exact Hok. }
    cbv zeta in Ht. destruct Ht as [_ [[_ ->]|(sp & _ & [[_ ->]|(p' & _ & Hf & ->)])]].
    + exact I.
    + apply pool_ok_run_ok. exact Hok.
    + apply (feed_once_ok eps selected cp_init _ _ _ _ false Hok) in Hf; auto.
      apply allowed_selected.
  - intros cn0' p0 cn' p' Hok Ht.
    apply turn_next in Ht as (first & others & sp & Ht). cbv zeta in Ht.
    destruct Ht as (_ & _ & _ & _ & _ & Hf & _).
    apply (feed_once_ok eps selected cp_init _ _ _ _ true Hok) in Hf; auto.
    apply allowed_selected.
Qed.

(** Every run that returns leaves a history of the shape [trace_ok], and
    its final reserves are the initial ones with the history replayed. *)
Lemma run_history (fuel : nat) (sp_map : SpMap) (producers animals : list string)
    (eps : Q) (b : bool) (p : pool) :
  simulate_set_fuel fuel sp_map producers animals eps = Some (Returned b p) ->
  let selected : gset string := list_to_set producers ∪ list_to_set animals in
  exists cp_init,
    dict_of sp_map cp0 (elements selected) = Some cp_init /\
    run_ok eps selected cp_init (Returned b p).
Proof.
  unfold simulate_set_fuel. cbv zeta.
  destruct (dict_of sp_map cp0 _) as [cp1|]; [|discriminate].
  destruct (dict_of sp_map cn0 animals) as [cn1|]; [|discriminate].
  intros H. exists cp1. split; [reflexivity|].
  destruct fuel as [|fuel]; [discriminate|].
  eapply turns_run_ok; [|exact H].
  repeat split; constructor.
Qed.

(** ** The scenarios, run *)

(** Scenario A passes: A1 takes 50 from P1, which keeps 50. *)
Example scenario_A_passes :
  exists p,
    simulate_set Examples.eco_A Examples.P123 Examples.A12345 eps_default
    = Some (Returned true p) /\
    writes p = [("P1", 50)] /\ get (cp p) "P1" == 50 /\ get (cp p) "P2" == 100.
Proof.
  eexists. split; [vm_compute; reflexivity|].
  split; [reflexivity|]. split; reflexivity.
Qed.

(** Two tied food sources share the take: A2 needs 30 from P1 and P2. *)
Example tied_sources_split_evenly :
  let r := draw eps_default (30 / 2) ["P1"; "P2"]
                {| cp := {["P1" := 100; "P2" := 100]}; writes := [] |} in
  fst r = true /\ map fst (writes (snd r)) = ["P1"; "P2"] /\
  get (cp (snd r)) "P1" == 85 /\ get (cp (snd r)) "P2" == 85.
Proof. cbv zeta. repeat split; reflexivity. Qed.

(** With a negative tolerance no food is within it of the maximum: the tie
    group is empty and the call returns [False]. *)
Example negative_eps_returns_False :
  exists p,
    simulate_set Examples.eco_A Examples.P123 Examples.A12345 (-1)
    = Some (Returned false p) /\ writes p = [].
Proof. eexists. split; [vm_compute; reflexivity | reflexivity]. Qed.

(** A selected name that is not a key of the species map. *)
Example unknown_name_raises :
  simulate_set Examples.eco_A ["P1"; "P9"] [] eps_default = Some (Raised KeyError).
Proof. reflexivity. Qed.

Example combinations_order :
  combinations ["a"; "b"; "c"; "d"] 2
  = [["a"; "b"]; ["a"; "c"]; ["a"; "d"]; ["b"; "c"]; ["b"; "d"]; ["c"; "d"]].
Proof. reflexivity. Qed.

Example comb_10_5 : comb 10 5 = 252%nat.
Proof. reflexivity. Qed.

(** A cap that is not positive still lets the first passing set through. *)
Example cap_zero_returns_one_row :
  exists rep rows,
    find_sustainable_sets_for_ecosystem Examples.eco_A 5 (Some 0%Z) = Some rep /\
    answer rep = inl rows /\ length rows = 1%nat /\ length (calls rep) = 1%nat.
Proof.
  eexists. eexists. split; [vm_compute; reflexivity|].
  split; [reflexivity|]. split; reflexivity.
Qed.

Example negative_choice_raises :
  find_sustainable_sets_for_ecosystem Examples.eco_A (-1) None
  = Some {| answer := inr ValueError_negative_r; calls := [] |}.
Proof. reflexivity. Qed.

(** ** The simulator in binary64 *)

(** *** Comparisons of doubles *)







(** *** The feeding loop in binary64 *)






(** *** The turns in binary64 *)





(** * Properties of the specification *)

(** ** What ends the loops *)




(** A feeding of two passes.  With the same producers, A1 needing 37500050
    and allowed P1, P2, P3 and A2 (at 100), the first pass leaves each
    producer 1.862645149230957e-09 and a need of 47.900000005960464, which
    the second pass takes from A2: the call returns [True]. *)
Example feeding_in_two_passes :
  Binary64.simulate_set_fuel 1 3 Doubles.eco ["P1"; "P2"; "P3"] ["A1"; "A2"]
                             Binary64.eps_default
  = Binary64.FeedingUnfinished /\
  exists cp',
    Binary64.simulate_set_fuel 2 3 Doubles.eco ["P1"; "P2"; "P3"] ["A1"; "A2"]
                               Binary64.eps_default
    = Binary64.Returned true cp' /\
    Binary64.get cp' "P1" = 0x1p-29%float.
Proof.
  split; [vm_compute; reflexivity|]. eexists.
  split; [vm_compute; reflexivity|]. reflexivity.
Qed.

Lemma In_selected (producers animals : list string) (s : string) :
  s ∈ (list_to_set producers ∪ list_to_set animals : gset string) <->
  In s (producers ++ animals).
Proof.
  rewrite elem_of_union, !elem_of_list_to_set, !list_elem_of_In, in_app_iff.
  tauto.
Qed.

Lemma In_elements_selected (producers animals : list string) (s : string) :
  In s (elements (list_to_set producers ∪ list_to_set animals : gset string)) <->
  In s (producers ++ animals).
Proof.
  rewrite <- list_elem_of_In, elem_of_elements. apply In_selected.
Qed.

(** C10.  When every chosen animal's initial need is at most [eps] (so also
    when no animal is chosen), [simulate_set] returns [True] at the first
    test of its loop: nothing was assigned and every reserve is the initial
    one, whatever the food lists and the reserves are. *)
Theorem simulate_set_nobody_hungry (sp_map : SpMap)
    (producers animals : list string) (eps : Q) :
  (forall s, In s (producers ++ animals) -> is_Some (sp_lookup sp_map s)) ->
  (forall a sp, In a animals -> sp_lookup sp_map a = Some sp -> cn0 sp <= eps) ->
  exists cp_init,
    (forall s sp, In s (producers ++ animals) -> sp_lookup sp_map s = Some sp ->
                  get cp_init s = cp0 sp) /\
    forall fuel,
      simulate_set_fuel (S fuel) sp_map producers animals eps
      = Some (Returned true {| cp := cp_init; writes := [] |}).
Proof.
  intros Hwf Hneed. unfold simulate_set_fuel. cbv zeta.
  destruct (dict_of_is_Some sp_map cp0
              (elements (list_to_set producers ∪ list_to_set animals : gset string)))
    as [cp1 Hcp].
  { intros s Hs. apply Hwf, In_elements_selected, Hs. }
  destruct (dict_of_is_Some sp_map cn0 animals) as [cn1 Hcn].
  { intros s Hs. apply Hwf, in_app_iff. right. exact Hs. }
  exists cp1. split.
  - intros s sp Hs Hl. eapply dict_of_get; eauto.
    apply In_elements_selected, Hs.
  - intros fuel. rewrite Hcp, Hcn, turns_S. unfold turn.
    destruct (hungry_of eps cn1 animals) as [|first others] eqn:Hh; [reflexivity|].
    exfalso.
    assert (Hin : In first (hungry_of eps cn1 animals)) by (rewrite Hh; left; auto).
    apply In_hungry in Hin as [Hin Hlt].
    destruct (Hwf first) as [sp Hsp]; [apply in_app_iff; auto|].
    rewrite (dict_of_get _ _ _ _ _ _ Hcn Hin Hsp) in Hlt.
    specialize (Hneed _ _ Hin Hsp). lra.
Qed.

Lemma simulate_set_nobody_hungry_witness :
  exists cp_init,
    get cp_init "P2" = 0 /\ get cp_init "A2" = 10 /\
    simulate_set Examples.eco_zero Examples.P123 ["A2"; "A3"] eps_default
    = Some (Returned true {| cp := cp_init; writes := [] |}).
Proof.
  destruct (simulate_set_nobody_hungry Examples.eco_zero Examples.P123
              ["A2"; "A3"] eps_default) as (cp_init & Hget & Hrun).
  - intros s Hs. simpl in Hs.
    repeat (destruct Hs as [<-|Hs]; [vm_compute; eauto|]). destruct Hs.
  - intros a sp Ha Hsp. simpl in Ha.
    repeat (destruct Ha as [<-|Ha];
            [vm_compute in Hsp; inversion Hsp; subst; vm_compute; discriminate|]).
    destruct Ha.
  - exists cp_init. split; [|split].
    + refine (Hget "P2" (snd (Examples.species "P2" "Producer" 0 0 [])) _ _);
        [simpl; tauto | reflexivity].
    + refine (Hget "A2" (snd (Examples.species "A2" "Animal" 10 0 [])) _ _);
        [simpl; tauto | reflexivity].
    + apply Hrun.
Defined.

Lemma filter_nil_intro {A : Type} (P : A -> Prop) `{!forall x, Decision (P x)}
    (l : list A) :
  (forall x, In x l -> ~ P x) -> filter P l = [].
Proof.
  intros Hno. destruct (filter P l) as [|y rest] eqn:E; [reflexivity|].
  exfalso. assert (Hy : y ∈ filter P l) by (rewrite E; left).
  apply list_elem_of_filter in Hy as [Hp Hy]. apply list_elem_of_In in Hy.
  exact (Hno y Hy Hp).
Qed.

(** C4, as the program has it.  A turn whose eater has no food source in the
    selected set returns [False] at once, with the reserves as they were,
    whatever the other species' state; hence a set with an animal whose need
    is above [eps] and whose food sources are all outside the set fails. *)
Theorem no_allowed_food_fails :
  (forall i fuel sp_map selected animals eps cn p first others sp,
     hungry_of eps cn animals = first :: others ->
     sp_lookup sp_map (next_eater (cp p) first others) = Some sp ->
     filter (fun f => f ∈ selected) (foods sp) = [] ->
     turns i (S fuel) sp_map selected animals eps cn p
     = Some (Returned false p)) /\
  (forall sp_map producers animals eps x sx,
     (forall s, In s (producers ++ animals) -> is_Some (sp_lookup sp_map s)) ->
     In x animals -> sp_lookup sp_map x = Some sx -> eps < cn0 sx ->
     (forall f, In f (foods sx) -> ~ In f (producers ++ animals)) ->
     exists p,
       simulate_set sp_map producers animals eps = Some (Returned false p)).
Proof.
  split.
  - intros i fuel sp_map selected animals eps cn p first others sp Hh Hsp Ha.
    pose proof (next_eater_hungry eps cn (cp p) animals first others Hh) as Hin.
    apply In_hungry in Hin as [_ Hlt]. apply Qle_bool_gt in Hlt.
    cbn [turns]. rewrite Hh. cbv zeta. rewrite Hlt, Hsp, Ha. reflexivity.
  - intros sp_map producers animals eps x sx Hwf Hx Hsx Hneed Hfoods.
    destruct (simulate_set_fuel_total sp_map producers animals eps) as [r Hr].
    specialize (Hr O). rewrite Nat.add_0_r in Hr.
    unfold simulate_set. rewrite Hr.
    unfold simulate_set_fuel in Hr. cbv zeta in Hr.
    destruct (dict_of_is_Some sp_map cp0
                (elements (list_to_set producers ∪ list_to_set animals : gset string)))
      as [cp1 Hcp].
    { intros s Hs. apply Hwf, In_elements_selected, Hs. }
    destruct (dict_of_is_Some sp_map cn0 animals) as [cn1 Hcn].
    { intros s Hs. apply Hwf, in_app_iff. right. exact Hs. }
    rewrite Hcp, Hcn in Hr.
    assert (Hpost : exists p, r = Returned false p); [|destruct Hpost as [p ->]; eauto].
    revert Hr.
    apply (turns_rule sp_map (list_to_set producers ∪ list_to_set animals)
             animals eps (fun cn _ => get cn x = cn0 sx)
             (fun o => exists p, o = Returned false p)).
    + intros cn p o Hinv Ht.
      apply turn_return in Ht as [[Hh _]|(first & others & Ht)].
      { exfalso. assert (Hin : In x (hungry_of eps cn animals)).
        { apply In_hungry. rewrite Hinv. auto. }
        rewrite Hh in Hin. destruct Hin. }
      cbv zeta in Ht.
      destruct Ht as [Hh [[Hnone _]|(sp & _ & [[_ ->]|(p' & _ & _ & ->)])]]; eauto.
      exfalso.
      pose proof (next_eater_hungry eps cn (cp p) animals first others Hh) as Hin.
      apply In_hungry in Hin as [Hin _].
      destruct (Hwf (next_eater (cp p) first others)) as [sp Hsp];
        [apply in_app_iff; auto | congruence].
    + intros cn p cn' p' Hinv Ht.
      apply turn_next in Ht as (first & others & sp & Ht). cbv zeta in Ht.
      destruct Ht as (_ & _ & _ & Hsp & Hne & _ & ->).
      destruct (decide (next_eater (cp p) first others = x)) as [E|E].
      * exfalso. apply Hne. rewrite E, Hsx in Hsp. inversion Hsp; subst.
        apply filter_nil_intro. intros f Hf Hsel.
        apply In_selected in Hsel. exact (Hfoods f Hf Hsel).
      * rewrite get_insert_ne; auto.
    + eapply dict_of_get; eauto.
Qed.

Lemma no_allowed_food_fails_witness :
  exists p,
    simulate_set Examples.eco_C Examples.P123 Examples.A12345 eps_default
    = Some (Returned false p).
Proof.
  refine (proj2 no_allowed_food_fails Examples.eco_C Examples.P123
            Examples.A12345 eps_default "A1"
            (snd (Examples.species "A1" "Animal" 10 50 ["A10"])) _ _ _ _ _).
  - intros s Hs. simpl in Hs.
    repeat (destruct Hs as [<-|Hs]; [vm_compute; eauto|]). destruct Hs.
  - simpl. tauto.
  - reflexivity.
  - reflexivity.
  - intros f Hf Hin. simpl in Hf. destruct Hf as [<-|[]].
    simpl in Hin. repeat (destruct Hin as [Hin|Hin]; [discriminate Hin|]).
    destruct Hin.
Defined.

Lemma trace_ok_true (eps : Q) (ws : list (string * Q)) :
  trace_ok eps true ws -> Forall (safe eps) ws.
Proof.
  intros (pre & last & -> & Hpre & [->|[Hb _]]); [|discriminate].
  rewrite app_nil_r. exact Hpre.
Qed.

Lemma trace_ok_unsafe (eps : Q) (b : bool) (before after : list (string * Q))
    (w : string * Q) :
  trace_ok eps b (before ++ w :: after) -> ~ safe eps w ->
  b = false /\ after = [].
Proof.
  intros (pre & last & E & Hpre & Hlast) Hbad.
  assert (Hnotin : ~ In w pre).
  { intros Hin. rewrite Forall_forall in Hpre.
    apply Hbad, Hpre, list_elem_of_In, Hin. }
  destruct Hlast as [->|(Hb & w' & -> & _)].
  - exfalso. apply Hnotin. rewrite app_nil_r in E. rewrite <- E.
    apply in_app_iff. right. left. reflexivity.
  - split; [exact Hb|].
    destruct after as [|a after'] using rev_ind; [reflexivity|].
    exfalso. apply Hnotin.
    change (before ++ w :: after' ++ [a]) with (before ++ (w :: after') ++ [a]) in E.
    rewrite app_assoc in E. apply app_inj_tail in E as [<- _].
    apply in_app_iff. right. left. reflexivity.
Qed.

(** C1, as the program has it.  Whenever [simulate_set] returns [True], at
    every point of the run every selected species' reserve is either still
    its initial [cp0], no assignment having touched it, or strictly greater
    than [eps] and not below [- eps]; every assignment made was to a selected
    species and left it above [eps]. *)
Theorem pass_reserves (fuel : nat) (sp_map : SpMap) (producers animals : list string)
    (eps : Q) (p : pool) :
  simulate_set_fuel fuel sp_map producers animals eps = Some (Returned true p) ->
  exists cp_init,
    (forall s, In s (producers ++ animals) ->
       exists sp, sp_lookup sp_map s = Some sp /\ get cp_init s = cp0 sp) /\
    cp p = replay (writes p) cp_init /\
    (forall f v, In (f, v) (writes p) ->
       In f (producers ++ animals) /\ eps < v /\ - eps <= v) /\
    forall before after, writes p = before ++ after ->
      forall s, In s (producers ++ animals) ->
        let now := get (replay before cp_init) s in
        (now = get cp_init s /\ forall v, ~ In (s, v) before) \/
        (eps < now /\ - eps <= now).
Proof.
  intros Hrun. apply run_history in Hrun as (cp_init & Hinit & Hcp & Htr & Hsel).
  apply trace_ok_true in Htr. rewrite Forall_forall in Htr, Hsel.
  exists cp_init. split; [|split; [exact Hcp|split]].
  - intros s Hs. apply In_elements_selected in Hs.
    destruct (dict_of_lookup _ _ _ _ _ Hinit Hs) as (sp & H1 & H2).
    exists sp. split; [exact H1|]. unfold get. rewrite H2. reflexivity.
  - intros f v Hin. apply list_elem_of_In in Hin.
    split; [apply In_selected, (Hsel _ Hin) | exact (Htr _ Hin)].
  - intros before after E s Hs. cbv zeta.
    destruct (replay_get before cp_init s) as [H|H]; [left; exact H|].
    right. apply (Htr (s, get (replay before cp_init) s)).
    rewrite E. apply list_elem_of_In, in_app_iff. left. exact H.
Qed.

Lemma pass_reserves_witness :
  match simulate_set_fuel 6 Examples.eco_A Examples.P123 Examples.A12345
          eps_default with
  | Some (Returned true p) =>
      forall f v, In (f, v) (writes p) -> eps_default < v
  | _ => False
  end.
Proof.
  destruct (simulate_set_fuel 6 Examples.eco_A Examples.P123 Examples.A12345
              eps_default) as [[[|] p|e]|] eqn:E;
    try (vm_compute in E; discriminate E).
  destruct (pass_reserves 6 Examples.eco_A Examples.P123 Examples.A12345
              eps_default p E) as (cp_init & _ & _ & Hw & _).
  intros f v Hin. apply (Hw f v Hin).
Defined.

(** C1 fails as stated: a run that returns [True] although a selected
    species, never eaten, has reserve 0 at the end. *)
Lemma pass_with_empty_reserve :
  exists p,
    simulate_set Examples.eco_zero Examples.P123 Examples.A12345 eps_default
    = Some (Returned true p) /\
    In "A1" (Examples.P123 ++ Examples.A12345) /\
    In "P2" (Examples.P123 ++ Examples.A12345) /\
    get (cp p) "A1" = 0 /\ get (cp p) "P2" = 0 /\
    ~ eps_default < get (cp p) "A1" /\ ~ eps_default < get (cp p) "P2".
Proof.
  eexists. split; [vm_compute; reflexivity|].
  split; [simpl; tauto|]. split; [simpl; tauto|].
  split; [reflexivity|]. split; [reflexivity|].
  split; intros H; vm_compute in H; discriminate H.
Qed.

(** C4 fails as stated: an animal with a positive need, not above [eps],
    whose only food source is outside the selected set, in a set that
    passes. *)
Lemma positive_need_without_food_passes :
  exists sx p,
    sp_lookup Examples.eco_D "A1" = Some sx /\ In "A1" Examples.A12345 /\
    0 < cn0 sx /\ foods sx = ["A10"] /\
    ~ In "A10" (Examples.P123 ++ Examples.A12345) /\
    simulate_set Examples.eco_D Examples.P123 Examples.A12345 eps_default
    = Some (Returned true p).
Proof.
  eexists. eexists. split; [reflexivity|]. split; [simpl; tauto|].
  split; [reflexivity|]. split; [reflexivity|]. split.
  - simpl. intros H.
    repeat (destruct H as [H|H]; [discriminate H|]). destruct H.
  - vm_compute. reflexivity.
Qed.

(** Scenario B, for any species map and any chosen animals that fit its
    description. *)
Lemma scenario_B_fails (sp_map : SpMap) (animals : list string)
    (p1 p2 p3 a1 : Species) :
  sp_lookup sp_map "P1" = Some p1 -> cp0 p1 == 100 ->
  sp_lookup sp_map "P2" = Some p2 -> cp0 p2 == 100 ->
  sp_lookup sp_map "P3" = Some p3 -> cp0 p3 == 100 ->
  sp_lookup sp_map "A1" = Some a1 -> cn0 a1 == 100 -> foods a1 = ["P1"] ->
  In "A1" animals ->
  (forall a, In a animals -> a <> "A1" ->
     exists s, sp_lookup sp_map a = Some s /\ cn0 s == 0) ->
  exists p v,
    simulate_set sp_map ["P1"; "P2"; "P3"] animals eps_default
    = Some (Returned false p) /\
    writes p = [("P1", v)] /\ v == 0.
Proof.
  intros HP1 Hc1 HP2 Hc2 HP3 Hc3 HA1 Hn1 Hf1 Hin Hothers.
  assert (Heps0 : 0 < eps_default) by reflexivity.
  assert (Heps1 : eps_default < 1) by reflexivity.
  assert (Hwf : forall s, In s (["P1"; "P2"; "P3"] ++ animals) ->
                          is_Some (sp_lookup sp_map s)).
  { intros s Hs. apply in_app_iff in Hs as [Hs|Hs].
    - simpl in Hs. destruct Hs as [<-|[<-|[<-|[]]]]; eauto.
    - destruct (decide (s = "A1")) as [->|Hne]; [eauto|].
      destruct (Hothers s Hs Hne) as [sp [Hsp _]]. eauto. }
  unfold simulate_set, simulate_set_fuel. cbv zeta.
  destruct (dict_of_is_Some sp_map cp0
              (elements (list_to_set ["P1"; "P2"; "P3"] ∪ list_to_set animals
                         : gset string))) as [cp1 Hcp].
  { intros s Hs. apply Hwf, In_elements_selected, Hs. }
  destruct (dict_of_is_Some sp_map cn0 animals) as [cn1 Hcn].
  { intros s Hs. apply Hwf, in_app_iff. right. exact Hs. }
  rewrite Hcp, Hcn, turns_S.
  assert (HgP1 : get cp1 "P1" = cp0 p1).
  { eapply dict_of_get; eauto. apply In_elements_selected. left. reflexivity. }
  assert (HgA1 : get cn1 "A1" = cn0 a1) by (eapply dict_of_get; eauto).
  set (p0 := {| cp := cp1; writes := [] |}).
  unfold turn.
  destruct (hungry_of eps_default cn1 animals) as [|first others] eqn:Hh.
  { exfalso. assert (H : In "A1" (hungry_of eps_default cn1 animals)).
    { apply In_hungry. split; [exact Hin|]. rewrite HgA1. lra. }
    rewrite Hh in H. destruct H. }
  cbv zeta.
  assert (Heater : next_eater (cp p0) first others = "A1").
  { pose proof (next_eater_hungry eps_default cn1 (cp p0) animals first others Hh)
      as He.
    apply In_hungry in He as [He Hlt].
    destruct (decide (next_eater (cp p0) first others = "A1")) as [E|E]; [exact E|].
    exfalso. destruct (Hothers _ He E) as (sp & Hsp & Hz).
    rewrite (dict_of_get _ _ _ _ _ _ Hcn He Hsp) in Hlt. lra. }
  rewrite Heater, HA1, Hf1.
  assert (Hb : Qle_bool (get cn1 "A1") eps_default = false).
  { apply Qle_bool_gt. rewrite HgA1. lra. }
  rewrite Hb.
  assert (Hsel : filter (fun f => f ∈ (list_to_set ["P1"; "P2"; "P3"]
                                        ∪ list_to_set animals : gset string))
                        ["P1"] = ["P1"]).
  { apply filter_singleton_True; [exact []|].
    apply In_selected. left. reflexivity. }
  rewrite Hsel.
  assert (Htop : top_now eps_default ["P1"] (cp p0) = ["P1"]).
  { unfold top_now, max_now, available_of.
    rewrite filter_singleton_True; [|exact []|].
    2:{ apply Qltb_lt. simpl. rewrite HgP1. lra. }
    cbn [map snd max_of pick_by]. unfold top_of.
    rewrite filter_singleton_True; [reflexivity|exact []|].
    apply Qle_bool_iff. cbn [snd]. apply Qabs_Qle_condition. lra. }
  unfold feed_once.
  assert (Hneed : Qltb eps_default (get cn1 "A1") = true).
  { apply Qltb_lt. rewrite HgA1. lra. }
  rewrite Hneed, Htop, draw_cons. cbv zeta.
  set (v := get (cp p0) "P1" - each_now eps_default (get cn1 "A1") ["P1"] (cp p0)).
  assert (Hv : v == 0).
  { unfold v, each_now, take_now. cbv zeta. rewrite Htop.
    cbn [length map min_of pick_by]. simpl cp. rewrite HgP1, HgA1.
    rewrite Q.min_l.
    - rewrite Hn1, Hc1. reflexivity.
    - rewrite Hn1, Hc1. vm_compute. discriminate. }
  assert (H1 : Qltb v (- eps_default) = false) by (apply Qltb_ge; lra).
  assert (H2 : Qle_bool v eps_default = true) by (apply Qle_bool_iff; lra).
  rewrite H1, H2. exists (set_cp "P1" v p0), v.
  split; [reflexivity|]. split; [reflexivity | exact Hv].
Qed.

(** C3.  A subtraction that leaves a reserve at or below [eps] (exactly 0
    included) makes the [for] loop return [False] on the spot; in every run
    such an assignment is the last thing that happened and the run returned
    [False]; and scenario B (P1, P2, P3 at 100, A1 needing 100 from P1, the
    other chosen animals needing 0) fails, P1 having been driven to 0. *)
Theorem depleted_food_fails :
  (forall eps take_each f rest p,
     get (cp p) f - take_each <= eps ->
     draw eps take_each (f :: rest) p
     = (false, set_cp f (get (cp p) f - take_each) p)) /\
  (forall fuel sp_map producers animals eps b p before f v after,
     simulate_set_fuel fuel sp_map producers animals eps = Some (Returned b p) ->
     writes p = before ++ (f, v) :: after -> v <= eps ->
     b = false /\ after = []) /\
  (forall sp_map animals p1 p2 p3 a1,
     sp_lookup sp_map "P1" = Some p1 -> cp0 p1 == 100 ->
     sp_lookup sp_map "P2" = Some p2 -> cp0 p2 == 100 ->
     sp_lookup sp_map "P3" = Some p3 -> cp0 p3 == 100 ->
     sp_lookup sp_map "A1" = Some a1 -> cn0 a1 == 100 -> foods a1 = ["P1"] ->
     In "A1" animals ->
     (forall a, In a animals -> a <> "A1" ->
        exists s, sp_lookup sp_map a = Some s /\ cn0 s == 0) ->
     exists p v,
       simulate_set sp_map ["P1"; "P2"; "P3"] animals eps_default
       = Some (Returned false p) /\
       writes p = [("P1", v)] /\ v == 0).
Proof.
  split; [|split].
  - intros eps take_each f rest p Hle. rewrite draw_cons. cbv zeta.
    destruct (Qltb _ (- eps)); [reflexivity|].
    apply Qle_bool_iff in Hle. rewrite Hle. reflexivity.
  - intros fuel sp_map producers animals eps b p before f v after Hrun E Hle.
    apply run_history in Hrun as (cp_init & _ & _ & Htr & _).
    rewrite E in Htr. apply (trace_ok_unsafe _ _ _ _ _ Htr).
    intros [Hlt _]. simpl in Hlt. lra.
  - exact scenario_B_fails.
Qed.

Lemma depleted_food_fails_witness :
  exists p v,
    simulate_set Examples.eco_B Examples.P123 Examples.A12345 eps_default
    = Some (Returned false p) /\
    writes p = [("P1", v)] /\ v == 0.
Proof.
  refine (proj2 (proj2 depleted_food_fails) Examples.eco_B Examples.A12345
            (snd (Examples.species "P1" "Producer" 100 0 []))
            (snd (Examples.species "P2" "Producer" 100 0 []))
            (snd (Examples.species "P3" "Producer" 100 0 []))
            (snd (Examples.species "A1" "Animal" 10 100 ["P1"]))
            _ _ _ _ _ _ _ _ _ _ _); try reflexivity.
  - simpl. tauto.
  - intros a Ha Hne. simpl in Ha.
    destruct Ha as [<-|Ha]; [congruence|].
    repeat (destruct Ha as [<-|Ha];
            [eexists; split; [vm_compute; reflexivity | reflexivity]|]).
    destruct Ha.
Defined.

(** ** The order on names and on keys *)

Lemma ascii_compare_lt_trans (x y z : Ascii.ascii) :
  Ascii.compare x y = Lt -> Ascii.compare y z = Lt -> Ascii.compare x z = Lt.
Proof.
  unfold Ascii.compare. rewrite !N.compare_lt_iff. lia.
Qed.

Lemma string_compare_lt_trans (a b c : string) :
  String.compare a b = Lt -> String.compare b c = Lt -> String.compare a c = Lt.
Proof.
  revert b c. induction a as [|x a IH]; intros [|y b] [|z c]; simpl;
    try discriminate; try reflexivity.
  destruct (Ascii.compare x y) eqn:Exy; try discriminate;
    destruct (Ascii.compare y z) eqn:Eyz; try discriminate; intros H1 H2.
  - apply Ascii.compare_eq_iff in Exy, Eyz. subst.
    assert (E : Ascii.compare z z = Eq).
    { unfold Ascii.compare. apply N.compare_refl. }
    rewrite E. eapply IH; eauto.
  - apply Ascii.compare_eq_iff in Exy. subst. rewrite Eyz. reflexivity.
  - apply Ascii.compare_eq_iff in Eyz. subst. rewrite Exy. reflexivity.
  - rewrite (ascii_compare_lt_trans _ _ _ Exy Eyz). reflexivity.
Qed.

Lemma string_compare_refl (a : string) : String.compare a a = Eq.
Proof.
  pose proof (String.compare_antisym a a) as H.
  destruct (String.compare a a); simpl in H; congruence.
Qed.

(** [a <= b] and [c < a] give [c < b]. *)
Lemma string_compare_le_lt (a b c : string) :
  String.compare b a <> Lt -> String.compare c a = Lt -> String.compare c b = Lt.
Proof.
  intros Hle Hlt. destruct (String.compare a b) eqn:E.
  - apply String.compare_eq_iff in E. subst. exact Hlt.
  - eapply string_compare_lt_trans; eauto.
  - exfalso. apply Hle. rewrite String.compare_antisym, E. reflexivity.
Qed.

Lemma string_ltb_lt (a b : string) :
  String.ltb a b = true <-> String.compare a b = Lt.
Proof.
  unfold String.ltb. destruct (String.compare a b); split; congruence.
Qed.

Lemma key_gt_iff (k1 k2 : Q * string) :
  key_gt k1 k2 = true <->
  fst k2 < fst k1 \/ (fst k1 == fst k2 /\ String.compare (snd k2) (snd k1) = Lt).
Proof.
  unfold key_gt. destruct (Qeq_bool (fst k1) (fst k2)) eqn:E.
  - apply Qeq_bool_iff in E. rewrite string_ltb_lt. split; [auto|].
    intros [H|[_ H]]; [lra | exact H].
  - rewrite Qltb_lt. split; [auto|]. intros [H|[H _]]; [exact H|].
    apply Qeq_bool_iff in H. congruence.
Qed.

Lemma key_gt_irrefl (k : Q * string) : key_gt k k = false.
Proof.
  destruct (key_gt k k) eqn:E; [|reflexivity].
  apply key_gt_iff in E as [H|[_ H]]; [lra|].
  rewrite string_compare_refl in H. discriminate.
Qed.

(** If [a > c] then every [b] has [a > b] or [b > c]. *)
Lemma key_gt_between (a b c : Q * string) :
  key_gt a c = true -> key_gt a b = true \/ key_gt b c = true.
Proof.
  rewrite !key_gt_iff. intros [H|[Hq Hs]].
  - destruct (Qlt_le_dec (fst b) (fst a)) as [H1|H1]; [auto|].
    right. left. lra.
  - destruct (Qlt_le_dec (fst b) (fst a)) as [H1|H1]; [auto|].
    destruct (Qlt_le_dec (fst a) (fst b)) as [H2|H2]; [right; left; lra|].
    assert (Hab : fst a == fst b) by lra.
    destruct (String.compare (snd b) (snd a)) eqn:E.
    + apply String.compare_eq_iff in E. right. right. rewrite E.
      split; [lra | exact Hs].
    + left. right. auto.
    + right. right. split; [lra|].
      apply (string_compare_le_lt (snd a)); [|exact Hs].
      rewrite E. discriminate.
Qed.

Lemma key_gt_trans (a b c : Q * string) :
  key_gt a b = true -> key_gt b c = true -> key_gt a c = true.
Proof.
  rewrite !key_gt_iff. intros [H1|[Hq1 Hs1]] [H2|[Hq2 Hs2]].
  - left. lra.
  - left. lra.
  - left. lra.
  - right. split; [lra|]. eapply string_compare_lt_trans; eauto.
Qed.

(** The scan with [key_gt] ends on an item no other item's key exceeds. *)
Lemma pick_by_key_gt_max {A : Type} (key : A -> Q * string) (items : list A)
    (best : A) :
  let r := pick_by key_gt key best items in
  key_gt (key best) (key r) = false /\
  forall x, In x items -> key_gt (key x) (key r) = false.
Proof.
  revert best. induction items as [|x rest IH]; intros best; cbn [pick_by].
  - split; [apply key_gt_irrefl | intros x []].
  - cbv zeta.
    destruct (IH (if key_gt (key x) (key best) then x else best)) as [H1 H2].
    set (r := pick_by key_gt key (if key_gt (key x) (key best) then x else best)
                      rest) in *.
    destruct (key_gt (key x) (key best)) eqn:E.
    + split.
      * destruct (key_gt (key best) (key r)) eqn:E'; [|reflexivity].
        rewrite (key_gt_trans _ _ _ E E') in H1. discriminate.
      * intros y [<-|Hy]; auto.
    + split; [exact H1|]. intros y [<-|Hy]; [|auto].
      destruct (key_gt (key x) (key r)) eqn:E'; [|reflexivity].
      destruct (key_gt_between _ (key best) _ E'); congruence.
Qed.

(** C2, as the program has it.  The next eater is a hungry animal with the
    largest current reserve among the hungry animals, and among those with
    that reserve it is the one with the lexicographically largest name. *)
Theorem next_eater_largest (cp : gmap string Q) (first : string)
    (others : list string) :
  let eater := next_eater cp first others in
  In eater (first :: others) /\
  (forall a, In a (first :: others) -> get cp a <= get cp eater) /\
  (forall a, In a (first :: others) -> get cp a == get cp eater ->
     String.leb a eater = true).
Proof.
  cbv zeta. split; [apply pick_by_In|].
  assert (Hmax : forall a, In a (first :: others) ->
            key_gt (get cp a, a)
                   (get cp (next_eater cp first others),
                    next_eater cp first others) = false).
  { destruct (pick_by_key_gt_max (fun a => (get cp a, a)) others first)
      as [H1 H2].
    intros a [<-|Ha]; [exact H1 | exact (H2 a Ha)]. }
  split.
  - intros a Ha. specialize (Hmax a Ha).
    destruct (Qlt_le_dec (get cp (next_eater cp first others)) (get cp a))
      as [Hlt|Hle]; [|exact Hle].
    assert (E : key_gt (get cp a, a)
                  (get cp (next_eater cp first others),
                   next_eater cp first others) = true).
    { apply key_gt_iff. left. exact Hlt. }
    congruence.
  - intros a Ha Heq. specialize (Hmax a Ha).
    unfold String.leb. rewrite String.compare_antisym.
    destruct (String.compare (next_eater cp first others) a) eqn:E;
      try reflexivity.
    assert (E' : key_gt (get cp a, a)
                   (get cp (next_eater cp first others),
                    next_eater cp first others) = true).
    { apply key_gt_iff. right. split; [exact Heq | exact E]. }
    congruence.
Qed.

(** C2 fails as stated: A1 and A2 are hungry with the same reserve, the
    largest, and A2 eats first; in the run, P1 loses A2's 20 before A1's
    10. *)
Lemma tie_goes_to_larger_name :
  let cp : gmap string Q := {["A1" := 10; "A2" := 10]} in
  get cp "A1" == get cp "A2" /\
  String.ltb "A1" "A2" = true /\
  next_eater cp "A1" ["A2"] = "A2" /\
  next_eater cp "A1" ["A2"] <> "A1" /\
  exists p,
    simulate_set Examples.eco_tie Examples.P123 Examples.A12345 eps_default
    = Some (Returned true p) /\
    writes p = [("P1", 80); ("P1", 70)].
Proof.
  cbv zeta. split; [reflexivity|]. split; [reflexivity|].
  split; [reflexivity|]. split; [vm_compute; discriminate|].
  eexists. split; vm_compute; reflexivity.
Qed.

Lemma next_eater_largest_witness :
  let cp : gmap string Q := {["A1" := 10; "A2" := 10]} in
  String.leb "A1" (next_eater cp "A1" ["A2"]) = true.
Proof.
  cbv zeta.
  refine (proj2 (proj2 (next_eater_largest {["A1" := 10; "A2" := 10]}
                          "A1" ["A2"])) "A1" _ _).
  - left. reflexivity.
  - reflexivity.
Defined.

(** ** The effect of a completed [for] loop *)

Lemma inject_count_S (n : nat) :
  inject_Z (Z.of_nat (S n)) == inject_Z (Z.of_nat n) + 1.
Proof.
  rewrite Nat2Z.inj_succ. unfold Z.succ. rewrite inject_Z_plus. reflexivity.
Qed.

Lemma draw_cp (eps take_each : Q) (top : list string) :
  forall (p p' : pool),
    draw eps take_each top p = (true, p') ->
    forall s,
      get (cp p') s ==
      get (cp p) s
      - inject_Z (Z.of_nat (count_occ String.string_dec top s)) * take_each.
Proof.
  induction top as [|f rest IH]; intros p p' Hd s.
  - inversion Hd; subst. simpl. ring.
  - rewrite draw_cons in Hd. cbv zeta in Hd.
    destruct (Qltb _ (- eps)); [discriminate|].
    destruct (Qle_bool _ eps); [discriminate|].
    rewrite (IH _ _ Hd s). cbn [count_occ].
    destruct (String.string_dec f s) as [->|Hne].
    + rewrite get_set_cp, inject_count_S. ring.
    + rewrite get_set_cp_ne by exact Hne. reflexivity.
Qed.









(** ** The enumerator *)

(** With every selected name a key of [sp_map], a call returns a boolean. *)
Lemma simulate_set_returns (sp_map : SpMap) (producers animals : list string)
    (eps : Q) :
  (forall s, In s (producers ++ animals) -> is_Some (sp_lookup sp_map s)) ->
  exists b p, simulate_set sp_map producers animals eps = Some (Returned b p).
Proof.
  intros Hwf.
  destruct (simulate_set_fuel_total sp_map producers animals eps) as [r Hr].
  specialize (Hr O). rewrite Nat.add_0_r in Hr.
  unfold simulate_set. rewrite Hr.
  unfold simulate_set_fuel in Hr. cbv zeta in Hr.
  destruct (dict_of_is_Some sp_map cp0
              (elements (list_to_set producers ∪ list_to_set animals : gset string)))
    as [cp1 Hcp].
  { intros s Hs. apply Hwf, In_elements_selected, Hs. }
  destruct (dict_of_is_Some sp_map cn0 animals) as [cn1 Hcn].
  { intros s Hs. apply Hwf, in_app_iff. right. exact Hs. }
  rewrite Hcp, Hcn in Hr.
  assert (Hpost : exists b p, r = Returned b p);
    [|destruct Hpost as (b & p & ->); eauto].
  revert Hr.
  apply (turns_rule sp_map (list_to_set producers ∪ list_to_set animals)
           animals eps (fun _ _ => True) (fun o => exists b p, o = Returned b p));
    [| |exact I].
  - intros cn p o _ Ht.
    apply turn_return in Ht as [[_ ->]|(first & others & Ht)]; [eauto|].
    cbv zeta in Ht.
    destruct Ht as [Hh [[Hnone _]|(sp & _ & [[_ ->]|(p' & _ & _ & ->)])]]; eauto.
    exfalso.
    pose proof (next_eater_hungry eps cn (cp p) animals first others Hh) as Hin.
    apply In_hungry in Hin as [Hin _].
    destruct (Hwf (next_eater (cp p) first others)) as [sp Hsp];
      [apply in_app_iff; auto | congruence].
  - auto.
Qed.

(** [combinations] and [math.comb]. *)
Lemma combinations_length {A : Type} (pool : list A) :
  forall r, length (combinations pool r) = comb (length pool) r.
Proof.
  induction pool as [|x rest IH]; intros [|r]; try reflexivity.
  cbn [combinations comb length].
  rewrite length_app, length_map, !IH. reflexivity.
Qed.

Lemma combinations_In {A : Type} (pool : list A) :
  forall r c, In c (combinations pool r) ->
    length c = r /\ forall x, In x c -> In x pool.
Proof.
  induction pool as [|x rest IH]; intros [|r] c Hc; cbn [combinations] in Hc.
  - destruct Hc as [<-|[]]. split; [reflexivity | intros y []].
  - destruct Hc.
  - destruct Hc as [<-|[]]. split; [reflexivity | intros y []].
  - apply in_app_iff in Hc as [Hc|Hc].
    + apply in_map_iff in Hc as (c' & <- & Hc').
      destruct (IH _ _ Hc') as [Hl Hin]. split; [simpl; congruence|].
      intros y [<-|Hy]; [left; reflexivity | right; auto].
    + destruct (IH _ _ Hc) as [Hl Hin]. split; [exact Hl|].
      intros y Hy. right. auto.
Qed.

Lemma comb_gt (n : nat) : forall k, (n < k)%nat -> comb n k = 0%nat.
Proof.
  induction n as [|n IH]; intros [|k] H; try lia; [reflexivity|].
  cbn [comb]. rewrite !IH by lia. reflexivity.
Qed.

(** [comb] is the binomial coefficient. *)
Lemma comb_fact (n : nat) :
  forall k, (k <= n)%nat -> (comb n k * (fact k * fact (n - k)) = fact n)%nat.
Proof.
  induction n as [|n IH]; intros [|k] H; try lia.
  - reflexivity.
  - cbn [comb]. rewrite Nat.sub_0_r. simpl fact at 1. lia.
  - cbn [comb]. destruct (Nat.eq_dec k n) as [->|Hne].
    + rewrite (comb_gt n (S n)) by lia.
      pose proof (IH n (Nat.le_refl n)) as E. rewrite Nat.sub_diag in *.
      change (fact 0) with 1%nat in *.
      rewrite Nat.add_0_r, !Nat.mul_1_r in *.
      pose proof (lt_O_fact n) as Hpos.
      assert (Hone : comb n n = 1%nat) by nia. rewrite Hone. lia.
    + pose proof (IH k ltac:(lia)) as E1.
      pose proof (IH (S k) ltac:(lia)) as E2.
      replace (S n - S k)%nat with (S (n - S k)) by lia.
      replace (n - k)%nat with (S (n - S k)) in E1 by lia.
      set (a := comb n k) in *. set (b := comb n (S k)) in *.
      change (fact (S k)) with (S k * fact k)%nat in *.
      change (fact (S (n - S k))) with (S (n - S k) * fact (n - S k))%nat in *.
      change (fact (S n)) with (S n * fact n)%nat.
      set (fk := fact k) in *. set (fr := fact (n - S k)) in *.
      set (fn := fact n) in *.
      assert (Hs : S n = (S k + S (n - S k))%nat) by lia.
      rewrite Hs. set (r := S (n - S k)) in *. set (k1 := S k) in *.
      nia.
Qed.

Lemma sweep_uncapped (sp_map : SpMap) (producers : list string)
    (combos : list (list string)) :
  (forall c, In c combos ->
     exists b p, simulate_set sp_map producers c eps_default
                 = Some (Returned b p)) ->
  forall results calls,
    sweep sp_map producers None combos results calls =
    Some {| answer :=
              inl (results ++
                   map (row_of producers)
                       (filter (fun c => passed sp_map producers c = true) combos));
            calls := calls ++ map (pair producers) combos |}.
Proof.
  induction combos as [|c rest IH]; intros Hret results calls.
  - simpl. rewrite !app_nil_r. reflexivity.
  - cbn [sweep]. destruct (Hret c) as (b & p & Hc); [left; reflexivity|].
    assert (Hp : passed sp_map producers c = b).
    { unfold passed. rewrite Hc. destruct b; reflexivity. }
    rewrite Hc, filter_cons.
    destruct b; rewrite IH by (intros c' Hc'; apply Hret; right; exact Hc').
    + rewrite decide_True by exact Hp. cbn [map].
      rewrite <- !app_assoc. reflexivity.
    + rewrite decide_False by (rewrite Hp; discriminate). cbn [map].
      rewrite <- !app_assoc. reflexivity.
Qed.

Lemma simulate_set_total (sp_map : SpMap) (producers animals : list string)
    (eps : Q) :
  exists r, simulate_set sp_map producers animals eps = Some r.
Proof.
  destruct (simulate_set_fuel_total sp_map producers animals eps) as [r Hr].
  exists r. specialize (Hr O). rewrite Nat.add_0_r in Hr. exact Hr.
Qed.

Lemma sweep_capped (sp_map : SpMap) (producers : list string) (cap : Z)
    (combos : list (list string)) :
  forall acc log,
    (Z.of_nat (length acc) < cap)%Z ->
    exists rep done rest,
      sweep sp_map producers (Some cap) combos acc log = Some rep /\
      combos = done ++ rest /\
      calls rep = log ++ map (pair producers) done /\
      (forall pre x post, done = pre ++ x :: post ->
         (Z.of_nat (length acc
                    + length (filter (fun c => passed sp_map producers c = true) pre))
          < cap)%Z) /\
      (forall rows, answer rep = inl rows ->
         rows = acc ++
                map (row_of producers)
                    (filter (fun c => passed sp_map producers c = true) done) /\
         (Z.of_nat (length rows) <= cap)%Z /\
         ((Z.of_nat (length rows) < cap)%Z -> rest = [])).
Proof.
  induction combos as [|c combos IH]; intros acc log Hlen.
  - exists {| answer := inl acc; calls := log |}, [], [].
    cbn [sweep]. split; [reflexivity|]. split; [reflexivity|].
    split; [simpl; rewrite app_nil_r; reflexivity|]. split.
    + intros [|y pre] x post E; discriminate E.
    + intros rows E. inversion E; subst. simpl. rewrite app_nil_r.
      split; [reflexivity|]. split; [lia | reflexivity].
  - cbn [sweep].
    destruct (simulate_set_total sp_map producers c eps_default) as [r Hr].
    assert (Hp : passed sp_map producers c =
                 match r with Returned true _ => true | _ => false end).
    { unfold passed. rewrite Hr. reflexivity. }
    rewrite Hr.
    assert (Hfirst : forall (pre : list (list string)) x post,
              [c] = pre ++ x :: post -> pre = []).
    { intros [|y [|z pre]] x post E; [reflexivity | discriminate E | discriminate E]. }
    destruct r as [[|] p|e].
    + destruct (cap <=? Z.of_nat (length (acc ++ [row_of producers c])))%Z
        eqn:Ecap.
      * apply Z.leb_le in Ecap. rewrite length_app in Ecap. simpl in Ecap.
        eexists _, [c], combos. split; [reflexivity|]. split; [reflexivity|].
        split; [reflexivity|]. split.
        -- intros pre x post E. rewrite (Hfirst _ _ _ E). simpl. lia.
        -- intros rows E. inversion E; subst. cbn [answer].
           rewrite filter_cons, decide_True by exact Hp. cbn [map filter].
           rewrite filter_nil. split; [reflexivity|].
           rewrite length_app. simpl. split; lia.
      * apply Z.leb_gt in Ecap.
        destruct (IH (acc ++ [row_of producers c])
                     (log ++ [(producers, c)]) Ecap)
          as (rep & done & rest & Hs & Hc & Hcalls & Hpre & Hrows).
        exists rep, (c :: done), rest. split; [exact Hs|].
        split; [rewrite Hc; reflexivity|].
        split; [rewrite Hcalls, <- app_assoc; reflexivity|]. split.
        -- intros [|y pre] x post E.
           ++ simpl. rewrite length_app in Ecap. simpl in Ecap. lia.
           ++ inversion E; subst.
              specialize (Hpre _ _ _ eq_refl).
              rewrite filter_cons, decide_True by exact Hp.
              rewrite length_app in Hpre. simpl in Hpre |- *. lia.
        -- intros rows E. destruct (Hrows rows E) as (-> & H1 & H2).
           rewrite filter_cons, decide_True by exact Hp. cbn [map].
           split; [rewrite <- app_assoc; reflexivity | exact (conj H1 H2)].
    + destruct (IH acc (log ++ [(producers, c)]) Hlen)
        as (rep & done & rest & Hs & Hc & Hcalls & Hpre & Hrows).
      exists rep, (c :: done), rest. split; [exact Hs|].
      split; [rewrite Hc; reflexivity|].
      split; [rewrite Hcalls, <- app_assoc; reflexivity|]. split.
      * intros [|y pre] x post E.
        -- simpl. lia.
        -- inversion E; subst. specialize (Hpre _ _ _ eq_refl).
           rewrite filter_cons, decide_False by (rewrite Hp; discriminate).
           exact Hpre.
      * intros rows E. destruct (Hrows rows E) as (-> & H1 & H2).
        rewrite filter_cons, decide_False by (rewrite Hp; discriminate). auto.
    + eexists _, [c], combos. split; [reflexivity|]. split; [reflexivity|].
      split; [reflexivity|]. split.
      * intros pre x post E. rewrite (Hfirst _ _ _ E). simpl. lia.
      * intros rows E. discriminate E.
Qed.

Lemma sp_lookup_In (sp_map : SpMap) (key : string) (s : Species) :
  In (key, s) sp_map -> is_Some (sp_lookup sp_map key).
Proof.
  induction sp_map as [|[k' s'] rest IH]; intros Hin; [destruct Hin|].
  cbn [sp_lookup]. destruct (String.eqb k' key) eqn:E; [eauto|].
  destruct Hin as [Hin|Hin]; [|auto].
  inversion Hin; subst. rewrite String.eqb_refl in E. discriminate.
Qed.

Lemma names_are_keys (sp_map : SpMap) (P : Species -> Prop)
    `{!forall s, Decision (P s)} (x : string) :
  (forall key s, In (key, s) sp_map -> key = name s) ->
  In x (map name (filter P (sp_values sp_map))) ->
  is_Some (sp_lookup sp_map x).
Proof.
  intros Hwf Hx. apply in_map_iff in Hx as (s & <- & Hs).
  apply list_elem_of_In, list_elem_of_filter in Hs as [_ Hs].
  apply list_elem_of_In in Hs. unfold sp_values in Hs.
  apply in_map_iff in Hs as ([key s'] & E & Hin). simpl in E. subst s'.
  rewrite <- (Hwf _ _ Hin). eapply sp_lookup_In. exact Hin.
Qed.

(** C7.  With a producer count other than 3 or an animal count other than
    10, [find_sustainable_sets_for_ecosystem] raises [ValueError] and the
    simulator was never called; the producer count is checked first. *)
Theorem wrong_counts_raise (sp_map : SpMap) (animals_to_choose : Z)
    (cap_results : option Z) :
  let producers :=
    map name (filter (fun s => typ s = "Producer") (sp_values sp_map)) in
  let animals_all :=
    map name (filter (fun s => typ s = "Animal") (sp_values sp_map)) in
  length producers <> 3%nat \/ length animals_all <> 10%nat ->
  exists e,
    find_sustainable_sets_for_ecosystem sp_map animals_to_choose cap_results
    = Some {| answer := inr e; calls := [] |} /\
    (length producers <> 3%nat /\ e = ValueError_producers (length producers) \/
     length producers = 3%nat /\ e = ValueError_animals (length animals_all)).
Proof.
  cbv zeta. intros H. unfold find_sustainable_sets_for_ecosystem. cbv zeta.
  destruct (length (map name (filter (fun s => typ s = "Producer")
                                     (sp_values sp_map))) =? 3)%nat eqn:Ep.
  - apply Nat.eqb_eq in Ep. cbn [negb].
    destruct (length (map name (filter (fun s => typ s = "Animal")
                                       (sp_values sp_map))) =? 10)%nat eqn:Ea.
    + apply Nat.eqb_eq in Ea. tauto.
    + cbn [negb]. eexists. split; [reflexivity|]. right. auto.
  - apply Nat.eqb_neq in Ep. cbn [negb]. eexists. split; [reflexivity|].
    left. auto.
Qed.

Lemma wrong_counts_raise_witness :
  find_sustainable_sets_for_ecosystem Examples.eco_short 5 None
  = Some {| answer := inr (ValueError_producers 2); calls := [] |}.
Proof.
  destruct (wrong_counts_raise Examples.eco_short 5 None) as (e & Hrun & He).
  - left. vm_compute. discriminate.
  - rewrite Hrun. destruct He as [[_ ->]|[Hp _]].
    + reflexivity.
    + vm_compute in Hp. discriminate Hp.
Defined.

(** C8.  With a cap (a positive integer), the combinations passed to the
    simulator are an initial segment of the canonical order, each of them
    was passed while fewer than [cap] of the earlier ones had passed, so no
    combination is evaluated once [cap] sets have passed; the rows returned
    are those of the passing combinations evaluated, at most [cap] of them,
    and the enumeration stops short of the end only when the cap is
    reached. *)
Theorem cap_stops_the_enumeration (sp_map : SpMap) (animals_to_choose cap : Z) :
  let producers :=
    map name (filter (fun s => typ s = "Producer") (sp_values sp_map)) in
  let animals_all :=
    map name (filter (fun s => typ s = "Animal") (sp_values sp_map)) in
  let combos := combinations animals_all (Z.to_nat animals_to_choose) in
  (0 < cap)%Z ->
  exists rep done rest,
    find_sustainable_sets_for_ecosystem sp_map animals_to_choose (Some cap)
    = Some rep /\
    combos = done ++ rest /\
    calls rep = map (pair producers) done /\
    (forall pre x post, done = pre ++ x :: post ->
       (Z.of_nat (length (filter (fun c => passed sp_map producers c = true) pre))
        < cap)%Z) /\
    (forall rows, answer rep = inl rows ->
       rows = map (row_of producers)
                  (filter (fun c => passed sp_map producers c = true) done) /\
       (Z.of_nat (length rows) <= cap)%Z /\
       ((Z.of_nat (length rows) < cap)%Z -> rest = [])).
Proof.
  cbv zeta. intros Hcap. unfold find_sustainable_sets_for_ecosystem. cbv zeta.
  set (producers := map name (filter (fun s => typ s = "Producer")
                                     (sp_values sp_map))).
  set (animals_all := map name (filter (fun s => typ s = "Animal")
                                       (sp_values sp_map))).
  assert (Herr : forall e,
    exists rep done rest,
      Some {| answer := inr e; calls := [] |} = Some rep /\
      combinations animals_all (Z.to_nat animals_to_choose) = done ++ rest /\
      calls rep = map (pair producers) done /\
      (forall pre x post, done = pre ++ x :: post ->
         (Z.of_nat (length (filter (fun c => passed sp_map producers c = true) pre))
          < cap)%Z) /\
      (forall rows, answer rep = inl rows ->
         rows = map (row_of producers)
                    (filter (fun c => passed sp_map producers c = true) done) /\
         (Z.of_nat (length rows) <= cap)%Z /\
         ((Z.of_nat (length rows) < cap)%Z -> rest = []))).
  { intros e. eexists _, [], _. split; [reflexivity|]. split; [reflexivity|].
    split; [reflexivity|]. split.
    - intros [|y pre] x post E; discriminate E.
    - intros rows E. discriminate E. }
  destruct (negb (length producers =? 3)%nat); [apply Herr|].
  destruct (negb (length animals_all =? 10)%nat); [apply Herr|].
  destruct (animals_to_choose <? 0)%Z; [apply Herr|].
  destruct (sweep_capped sp_map producers cap
              (combinations animals_all (Z.to_nat animals_to_choose)) [] [])
    as (rep & done & rest & Hs & Hc & Hcalls & Hpre & Hrows).
  { simpl. exact Hcap. }
  exists rep, done, rest. repeat split; auto.
  - apply (Hrows rows); assumption.
  - apply (Hrows rows); assumption.
  - apply (Hrows rows); assumption.
Qed.

Lemma cap_stops_the_enumeration_witness :
  exists rep rows,
    find_sustainable_sets_for_ecosystem Examples.eco_mixed 5 (Some 2%Z)
    = Some rep /\
    answer rep = inl rows /\ (Z.of_nat (length rows) <= 2)%Z.
Proof.
  destruct (cap_stops_the_enumeration Examples.eco_mixed 5 2 eq_refl)
    as (rep & done & rest & Hrun & _ & _ & _ & Hrows).
  destruct (answer rep) as [rows|e] eqn:Ea.
  - exists rep, rows. split; [exact Hrun|]. split; [exact Ea|].
    apply (Hrows rows eq_refl).
  - exfalso. vm_compute in Hrun. inversion Hrun; subst. discriminate Ea.
Defined.



(** * Further properties of the simulator *)

(** ** Reserves only go down *)

(** The first member of the tie group is within [eps] of the group's
    smallest reserve. *)
Lemma head_near_min (eps : Q) (allowed_foods : list string) (p : pool)
    (f : string) (rest : list string) :
  top_now eps allowed_foods (cp p) = f :: rest ->
  get (cp p) f - min_of (map (get (cp p)) (top_now eps allowed_foods (cp p)))
  <= eps /\
  eps < min_of (map (get (cp p)) (top_now eps allowed_foods (cp p))) /\
  0 <= eps.
Proof.
  intros E.
  assert (Hne : top_now eps allowed_foods (cp p) <> [])
    by (rewrite E; discriminate).
  destruct (min_top_member eps allowed_foods p Hne) as [g [Hg Hmin]].
  apply (top_member eps allowed_foods p) in Hg as (_ & Hglt & Hgmax & Hgabs).
  assert (Hf : In f (top_now eps allowed_foods (cp p)))
    by (rewrite E; left; auto).
  apply (top_member eps allowed_foods p) in Hf as (_ & _ & Hfmax & _).
  pose proof (top_eps_nonneg eps allowed_foods p Hne) as Heps.
  rewrite Hmin. apply Qabs_Qle_condition in Hgabs. lra.
Qed.

Lemma each_now_pos (eps need : Q) (allowed_foods : list string) (p : pool) :
  eps < need -> top_now eps allowed_foods (cp p) <> [] ->
  0 < each_now eps need allowed_foods (cp p).
Proof.
  intros Hneed Hne.
  pose proof (k_pos eps allowed_foods p Hne) as Hk.
  destruct (top_now eps allowed_foods (cp p)) as [|f rest] eqn:Et; [congruence|].
  destruct (head_near_min eps allowed_foods p f rest Et) as (_ & Hmin & Heps).
  unfold each_now, take_now. cbv zeta. rewrite Et in *.
  set (k := inject_Z (Z.of_nat (length (f :: rest)))) in *.
  set (m := min_of (map (get (cp p)) (f :: rest))) in *.
  apply Qlt_shift_div_l; [exact Hk|]. rewrite Qmult_0_l.
  apply Q.min_glb_lt; [lra|]. apply Qmult_lt_0_compat; lra.
Qed.

Lemma draw_le (eps take_each : Q) (top : list string) :
  0 <= take_each ->
  forall p s,
    get (cp (snd (draw eps take_each top p))) s <= get (cp p) s /\
    (~ In s top -> get (cp (snd (draw eps take_each top p))) s = get (cp p) s).
Proof.
  intros Hpos. induction top as [|f rest IH]; intros p s.
  - simpl. split; [lra | reflexivity].
  - rewrite draw_cons. cbv zeta.
    set (p1 := set_cp f (get (cp p) f - take_each) p).
    assert (H1 : get (cp p1) s <= get (cp p) s /\
                 (~ In s (f :: rest) -> get (cp p1) s = get (cp p) s)).
    { unfold p1. destruct (decide (f = s)) as [->|Hne].
      - rewrite get_set_cp. split; [lra|]. intros H. exfalso. apply H. left. auto.
      - rewrite get_set_cp_ne by exact Hne. split; [lra | reflexivity]. }
    destruct (Qltb _ (- eps)); [exact H1|].
    destruct (Qle_bool _ eps); [exact H1|].
    destruct (IH p1 s) as [H2 H3]. destruct H1 as [H1 H1'].
    split; [lra|]. intros Hs. rewrite H3, H1'; auto.
    intros Hin. apply Hs. right. exact Hin.
Qed.

Lemma feed_once_le (eps need : Q) (allowed_foods : list string) (p : pool)
    (s : string) :
  get (cp (snd (feed_once eps allowed_foods need p))) s <= get (cp p) s /\
  (~ In s allowed_foods ->
   get (cp (snd (feed_once eps allowed_foods need p))) s = get (cp p) s).
Proof.
  unfold feed_once. destruct (Qltb eps need) eqn:Hb.
  2:{ simpl. split; [lra | reflexivity]. }
  apply Qltb_lt in Hb.
  destruct (top_now eps allowed_foods (cp p)) as [|f rest] eqn:Et.
  { simpl. split; [lra | reflexivity]. }
  assert (Hpos : 0 <= each_now eps need allowed_foods (cp p)).
  { apply Qlt_le_weak, each_now_pos; [exact Hb|]. rewrite Et. discriminate. }
  destruct (draw_le eps _ (f :: rest) Hpos p s) as [H1 H2].
  split; [exact H1|]. intros Hs. apply H2. intros Hin. apply Hs.
  apply (top_now_allowed eps allowed_foods (cp p)). rewrite Et. exact Hin.
Qed.

(** No reserve ever grows during a run, and a species that no chosen animal
    lists as a food source ends with the reserve it started with. *)
Theorem reserves_never_grow (fuel : nat) (sp_map : SpMap)
    (producers animals : list string) (eps : Q) (b : bool) (p : pool) :
  simulate_set_fuel fuel sp_map producers animals eps = Some (Returned b p) ->
  exists cp_init,
    dict_of sp_map cp0
            (elements (list_to_set producers ∪ list_to_set animals : gset string))
    = Some cp_init /\
    forall s,
      get (cp p) s <= get cp_init s /\
      ((forall a sa, In a animals -> sp_lookup sp_map a = Some sa ->
                     ~ In s (foods sa)) ->
       get (cp p) s = get cp_init s).
Proof.
  unfold simulate_set_fuel. cbv zeta.
  destruct (dict_of sp_map cp0 _) as [cp1|]; [|discriminate].
  destruct (dict_of sp_map cn0 animals) as [cn1|]; [|discriminate].
  intros H. exists cp1. split; [reflexivity|].
  destruct fuel as [|fuel]; [discriminate|].
  set (quiet := fun s : string =>
         forall a sa, In a animals -> sp_lookup sp_map a = Some sa ->
                      ~ In s (foods sa)).
  set (good := fun q : pool =>
         forall s, get (cp q) s <= get cp1 s /\
                   (quiet s -> get (cp q) s = get cp1 s)).
  assert (Hpost : match Returned b p with
                  | Returned _ q => good q
                  | Raised _ => True
                  end); [|exact Hpost].
  revert H.
  apply (turns_rule sp_map (list_to_set producers ∪ list_to_set animals)
           animals eps (fun _ q => good q)
           (fun o => match o with Returned _ q => good q | Raised _ => True end)).
  - intros cn q o Hq Ht.
    apply turn_return in Ht as [[_ ->]|(first & others & Ht)]; [exact Hq|].
    cbv zeta in Ht.
    destruct Ht as [Hh [[_ ->]|(sp & Hsp & [[_ ->]|(q' & _ & Hf & ->)])]];
      [exact I | exact Hq |].
    pose proof (next_eater_hungry eps cn (cp q) animals first others Hh) as Hin.
    apply In_hungry in Hin as [Hin _].
    intros s. destruct (Hq s) as [H1 H2].
    pose proof (feed_once_le eps (get cn (next_eater (cp q) first others))
                  (filter (fun f => f ∈ (list_to_set producers
                                         ∪ list_to_set animals : gset string))
                          (foods sp)) q s) as [H3 H4].
    rewrite Hf in H3, H4. simpl in H3, H4. split; [lra|].
    intros Hs. rewrite H4, H2; auto.
    intros Hs'. apply list_elem_of_In, list_elem_of_filter in Hs' as [_ Hs'].
    apply list_elem_of_In in Hs'. exact (Hs _ _ Hin Hsp Hs').
  - intros cn q cn' q' Hq Ht.
    apply turn_next in Ht as (first & others & sp & Ht). cbv zeta in Ht.
    destruct Ht as (Hh & Hin & _ & Hsp & _ & Hf & _).
    intros s. destruct (Hq s) as [H1 H2].
    pose proof (feed_once_le eps (get cn (next_eater (cp q) first others))
                  (filter (fun f => f ∈ (list_to_set producers
                                         ∪ list_to_set animals : gset string))
                          (foods sp)) q s) as [H3 H4].
    rewrite Hf in H3, H4. simpl in H3, H4. split; [lra|].
    intros Hs. rewrite H4, H2; auto.
    intros Hs'. apply list_elem_of_In, list_elem_of_filter in Hs' as [_ Hs'].
    apply list_elem_of_In in Hs'. exact (Hs _ _ Hin Hsp Hs').
  - intros s. simpl. split; [lra | reflexivity].
Qed.

Lemma reserves_never_grow_witness :
  match simulate_set_fuel 6 Examples.eco_mixed Examples.P123 Examples.A12345
          eps_default with
  | Some (Returned _ p) => get (cp p) "P1" <= 100 /\ get (cp p) "A4" = 5
  | _ => False
  end.
Proof.
  destruct (simulate_set_fuel 6 Examples.eco_mixed Examples.P123 Examples.A12345
              eps_default) as [[b p|e]|] eqn:E;
    try (vm_compute in E; discriminate E).
  destruct (reserves_never_grow _ _ _ _ _ _ _ E) as (cp_init & Hinit & H).
  clear E.
  assert (HP1 : get cp_init "P1" = 100).
  { apply (dict_of_get _ _ _ _ "P1"
             (snd (Examples.species "P1" "Producer" 100 0 [])) Hinit);
      [|reflexivity].
    apply In_elements_selected. simpl. tauto. }
  assert (HA4 : get cp_init "A4" = 5).
  { apply (dict_of_get _ _ _ _ "A4"
             (snd (Examples.species "A4" "Animal" 5 100 ["P3"])) Hinit);
      [|reflexivity].
    apply In_elements_selected. simpl. tauto. }
  clear Hinit. split.
  - destruct (H "P1") as [H1 _]. rewrite HP1 in H1. exact H1.
  - destruct (H "A4") as [_ H2]. clear H. rewrite H2; [exact HA4|].
    intros a sa Ha Hsa Hin. simpl in Ha.
    repeat (destruct Ha as [<-|Ha];
            [vm_compute in Hsa; inversion Hsa; subst sa; simpl in Hin;
             repeat (destruct Hin as [Hin|Hin]; [discriminate Hin|]);
             destruct Hin|]).
    destruct Ha.
Defined.

(** ** What a run reads *)

Lemma dict_of_ext (sp_map sp_map' : SpMap) (field : Species -> Q)
    (keys : list string) :
  (forall s, In s keys ->
     option_map field (sp_lookup sp_map s)
     = option_map field (sp_lookup sp_map' s)) ->
  dict_of sp_map field keys = dict_of sp_map' field keys.
Proof.
  induction keys as [|k rest IH]; intros H; [reflexivity|].
  cbn [dict_of]. rewrite IH by (intros s Hs; apply H; right; exact Hs).
  specialize (H k (or_introl eq_refl)).
  destruct (sp_lookup sp_map k), (sp_lookup sp_map' k); simpl in H;
    try discriminate; [|reflexivity].
  inversion H as [E]. rewrite E. reflexivity.
Qed.

Lemma turns_ext (sp_map sp_map' : SpMap) (selected : gset string)
    (animals : list string) (eps : Q) :
  (forall a, In a animals ->
     option_map foods (sp_lookup sp_map a)
     = option_map foods (sp_lookup sp_map' a)) ->
  forall fuel i cn p,
    turns i fuel sp_map selected animals eps cn p
    = turns i fuel sp_map' selected animals eps cn p.
Proof.
  intros H. induction fuel as [|fuel IH]; intros i cn p; [reflexivity|].
  cbn [turns].
  destruct (hungry_of eps cn animals) as [|first others] eqn:Hh; [reflexivity|].
  cbv zeta. rewrite !IH.
  destruct (Qle_bool _ eps); [reflexivity|].
  pose proof (next_eater_hungry eps cn (cp p) animals first others Hh) as Hin.
  apply In_hungry in Hin as [Hin _]. specialize (H _ Hin).
  destruct (sp_lookup sp_map _) as [sp|], (sp_lookup sp_map' _) as [sp'|];
    simpl in H; try discriminate; [|reflexivity].
  inversion H as [E]. rewrite E.
  destruct (filter _ (foods sp')); [reflexivity|].
  destruct (feed i eps _ _ p) as [[[|] p']|]; try reflexivity. apply IH.
Qed.

(** A run reads the initial reserve of each selected species and the need
    and food list of each chosen animal, and nothing else: two species maps
    that agree on these give the same run.  Unselected species, the [name]
    and [typ] fields, and the needs and food lists of the producers play no
    part. *)
Theorem simulate_set_reads_only (fuel : nat) (sp_map sp_map' : SpMap)
    (producers animals : list string) (eps : Q) :
  (forall s, In s (producers ++ animals) ->
     option_map cp0 (sp_lookup sp_map s) = option_map cp0 (sp_lookup sp_map' s)) ->
  (forall a, In a animals ->
     option_map cn0 (sp_lookup sp_map a) = option_map cn0 (sp_lookup sp_map' a) /\
     option_map foods (sp_lookup sp_map a)
     = option_map foods (sp_lookup sp_map' a)) ->
  simulate_set_fuel fuel sp_map producers animals eps
  = simulate_set_fuel fuel sp_map' producers animals eps.
Proof.
  intros Hcp Han. unfold simulate_set_fuel. cbv zeta.
  rewrite (dict_of_ext sp_map sp_map' cp0)
    by (intros s Hs; apply Hcp, In_elements_selected, Hs).
  rewrite (dict_of_ext sp_map sp_map' cn0 animals)
    by (intros s Hs; apply Han, Hs).
  destruct (dict_of sp_map' cp0 _); [|reflexivity].
  destruct (dict_of sp_map' cn0 animals); [|reflexivity].
  apply turns_ext. intros a Ha. apply Han, Ha.
Qed.

Lemma simulate_set_reads_only_witness :
  simulate_set_fuel 6 Examples.eco_A Examples.P123 ["A1"; "A2"] eps_default
  = simulate_set_fuel 6
      (Examples.producers3 ++
       [Examples.species "A1" "Animal" 10 50 ["P1"];
        Examples.species "A2" "Beast" 10 0 []])
      Examples.P123 ["A1"; "A2"] eps_default.
Proof.
  apply simulate_set_reads_only.
  - intros s Hs. simpl in Hs.
    repeat (destruct Hs as [<-|Hs]; [reflexivity|]). destruct Hs.
  - intros a Ha. simpl in Ha.
    repeat (destruct Ha as [<-|Ha]; [split; reflexivity|]). destruct Ha.
Defined.

(** ** The order of the listing does not matter *)

Lemma key_gt_neither (cp : gmap string Q) (a b : string) :
  key_gt (get cp a, a) (get cp b, b) = false ->
  key_gt (get cp b, b) (get cp a, a) = false -> a = b.
Proof.
  intros H1 H2.
  destruct (String.compare a b) eqn:E.
  - apply String.compare_eq_iff. exact E.
  - exfalso.
    destruct (Qlt_le_dec (get cp b) (get cp a)) as [Hlt|Hle].
    + assert (Ht : key_gt (get cp a, a) (get cp b, b) = true)
        by (apply key_gt_iff; left; exact Hlt).
      congruence.
    + destruct (Qlt_le_dec (get cp a) (get cp b)) as [Hlt|Hle'].
      * assert (Ht : key_gt (get cp b, b) (get cp a, a) = true)
          by (apply key_gt_iff; left; exact Hlt).
        congruence.
      * assert (Ht : key_gt (get cp b, b) (get cp a, a) = true).
        { apply key_gt_iff. right. simpl. split; [lra | exact E]. }
        congruence.
  - exfalso.
    assert (E' : String.compare b a = Lt).
    { rewrite String.compare_antisym, E. reflexivity. }
    destruct (Qlt_le_dec (get cp b) (get cp a)) as [Hlt|Hle].
    + assert (Ht : key_gt (get cp a, a) (get cp b, b) = true)
        by (apply key_gt_iff; left; exact Hlt).
      congruence.
    + destruct (Qlt_le_dec (get cp a) (get cp b)) as [Hlt|Hle'].
      * assert (Ht : key_gt (get cp b, b) (get cp a, a) = true)
          by (apply key_gt_iff; left; exact Hlt).
        congruence.
      * assert (Ht : key_gt (get cp a, a) (get cp b, b) = true).
        { apply key_gt_iff. right. simpl. split; [lra | exact E']. }
        congruence.
Qed.

Lemma next_eater_max (cp : gmap string Q) (first : string) (others : list string)
    (a : string) :
  In a (first :: others) ->
  key_gt (get cp a, a)
         (get cp (next_eater cp first others), next_eater cp first others)
  = false.
Proof.
  destruct (pick_by_key_gt_max (fun a => (get cp a, a)) others first) as [H1 H2].
  intros [<-|Ha]; [exact H1 | exact (H2 a Ha)].
Qed.

(** The eater chosen depends on which animals are hungry, not on the order
    in which they are listed. *)
Lemma next_eater_same_members (cp : gmap string Q) (first first' : string)
    (others others' : list string) :
  (forall a, In a (first :: others) <-> In a (first' :: others')) ->
  next_eater cp first others = next_eater cp first' others'.
Proof.
  intros H. apply (key_gt_neither cp).
  - apply next_eater_max, H, pick_by_In.
  - apply next_eater_max, H, pick_by_In.
Qed.

Lemma dict_of_None_iff (sp_map : SpMap) (field : Species -> Q) (keys : list string) :
  dict_of sp_map field keys = None <->
  exists s, In s keys /\ sp_lookup sp_map s = None.
Proof.
  induction keys as [|k rest IH]; cbn [dict_of].
  - split; [discriminate | intros (s & [] & _)].
  - destruct (sp_lookup sp_map k) as [sp|] eqn:Hk.
    + destruct (dict_of sp_map field rest) as [d|].
      * split; [discriminate|]. intros (s & [<-|Hs] & Hn); [congruence|].
        assert (Hnone : Some d = None) by (apply IH; eauto).
        discriminate Hnone.
      * split; [|reflexivity]. intros _.
        destruct (proj1 IH eq_refl) as (s & Hs & Hn). exists s. split; auto.
        right. exact Hs.
    + split; [|reflexivity]. intros _. exists k. split; [left|]; auto.
Qed.

Lemma dict_of_lookup_notin (sp_map : SpMap) (field : Species -> Q)
    (keys : list string) (d : gmap string Q) (s : string) :
  dict_of sp_map field keys = Some d -> ~ In s keys -> d !! s = None.
Proof.
  revert d. induction keys as [|k rest IH]; intros d Hd Hs; cbn [dict_of] in Hd.
  - inversion Hd. apply lookup_empty.
  - destruct (sp_lookup sp_map k); [|discriminate].
    destruct (dict_of sp_map field rest) as [d'|]; [|discriminate].
    inversion Hd; subst. rewrite lookup_insert_ne.
    + apply IH; [reflexivity|]. intros H. apply Hs. right. exact H.
    + intros ->. apply Hs. left. reflexivity.
Qed.

(** The dict built depends on the set of keys only. *)
Lemma dict_of_same_members (sp_map : SpMap) (field : Species -> Q)
    (keys keys' : list string) :
  (forall s, In s keys <-> In s keys') ->
  dict_of sp_map field keys = dict_of sp_map field keys'.
Proof.
  intros H.
  destruct (dict_of sp_map field keys) as [d|] eqn:Hd;
    destruct (dict_of sp_map field keys') as [d'|] eqn:Hd'.
  - f_equal. apply map_eq. intros s.
    destruct (in_dec String.string_dec s keys) as [Hs|Hs].
    + destruct (dict_of_lookup _ _ _ _ _ Hd Hs) as (sp & H1 & H2).
      destruct (dict_of_lookup _ _ _ _ _ Hd' (proj1 (H s) Hs)) as (sp' & H1' & H2').
      congruence.
    + rewrite (dict_of_lookup_notin _ _ _ _ _ Hd Hs).
      symmetry. apply (dict_of_lookup_notin _ _ _ _ _ Hd').
      intros Hs'. apply Hs, H, Hs'.
  - exfalso. apply dict_of_None_iff in Hd' as (s & Hs & Hn).
    destruct (dict_of_lookup _ _ _ _ _ Hd (proj2 (H s) Hs)) as (sp & H1 & _).
    congruence.
  - exfalso. apply dict_of_None_iff in Hd as (s & Hs & Hn).
    destruct (dict_of_lookup _ _ _ _ _ Hd' (proj1 (H s) Hs)) as (sp & H1 & _).
    congruence.
  - reflexivity.
Qed.

Lemma hungry_same_members (eps : Q) (cn : gmap string Q)
    (animals animals' : list string) :
  (forall x, In x animals <-> In x animals') ->
  forall a, In a (hungry_of eps cn animals) <-> In a (hungry_of eps cn animals').
Proof.
  intros H a. rewrite !In_hungry, H. reflexivity.
Qed.

Lemma turns_same_members (sp_map : SpMap) (selected : gset string)
    (animals animals' : list string) (eps : Q) :
  (forall x, In x animals <-> In x animals') ->
  forall fuel i cn p,
    turns i fuel sp_map selected animals eps cn p
    = turns i fuel sp_map selected animals' eps cn p.
Proof.
  intros H. induction fuel as [|fuel IH]; intros i cn p; [reflexivity|].
  cbn [turns].
  pose proof (hungry_same_members eps cn animals animals' H) as Hh.
  destruct (hungry_of eps cn animals) as [|first others];
    destruct (hungry_of eps cn animals') as [|first' others'].
  - reflexivity.
  - exfalso. apply (proj2 (Hh first')). left. reflexivity.
  - exfalso. apply (proj1 (Hh first)). left. reflexivity.
  - cbv zeta.
    rewrite (next_eater_same_members (cp p) first first' others others' Hh).
    destruct (Qle_bool _ eps); [apply IH|].
    destruct (sp_lookup sp_map _) as [sp|]; [|reflexivity].
    destruct (filter _ (foods sp)); [reflexivity|].
    destruct (feed i eps _ _ p) as [[[|] p']|]; try reflexivity. apply IH.
Qed.

Lemma simulate_set_fuel_same_members (fuel : nat) (sp_map : SpMap)
    (producers producers' animals animals' : list string) (eps : Q) :
  (forall x, In x producers <-> In x producers') ->
  (forall x, In x animals <-> In x animals') ->
  simulate_set_fuel fuel sp_map producers animals eps
  = simulate_set_fuel fuel sp_map producers' animals' eps.
Proof.
  intros Hp Ha. unfold simulate_set_fuel. cbv zeta.
  assert (Hsel : (list_to_set producers ∪ list_to_set animals : gset string)
                 = list_to_set producers' ∪ list_to_set animals').
  { apply set_eq. intros x.
    rewrite !elem_of_union, !elem_of_list_to_set, !list_elem_of_In, Hp, Ha.
    reflexivity. }
  rewrite Hsel, (dict_of_same_members sp_map cn0 animals animals' Ha).
  destruct (dict_of sp_map cp0 _); [|reflexivity].
  destruct (dict_of sp_map cn0 animals'); [|reflexivity].
  apply turns_same_members. exact Ha.
Qed.

(** The outcome of a call, history included, depends on which producers and
    which animals are selected, not on the order, or the number of times,
    they are listed. *)
Theorem simulate_set_order_free (sp_map : SpMap)
    (producers producers' animals animals' : list string) (eps : Q) :
  (forall x, In x producers <-> In x producers') ->
  (forall x, In x animals <-> In x animals') ->
  simulate_set sp_map producers animals eps
  = simulate_set sp_map producers' animals' eps.
Proof.
  intros Hp Ha. unfold simulate_set.
  destruct (simulate_set_fuel_total sp_map producers animals eps) as [r Hr].
  destruct (simulate_set_fuel_total sp_map producers' animals' eps) as [r' Hr'].
  pose proof (Hr O) as H0. rewrite Nat.add_0_r in H0.
  pose proof (Hr' O) as H0'. rewrite Nat.add_0_r in H0'.
  rewrite H0, H0'.
  specialize (Hr (length animals')). specialize (Hr' (length animals)).
  replace (S (length animals') + length animals)%nat
    with (S (length animals) + length animals')%nat in Hr' by lia.
  rewrite (simulate_set_fuel_same_members _ sp_map producers producers'
             animals animals' eps Hp Ha) in Hr.
  congruence.
Qed.

Lemma simulate_set_order_free_witness :
  simulate_set Examples.eco_mixed ["P1"; "P2"; "P3"] ["A1"; "A2"; "A3"] eps_default
  = simulate_set Examples.eco_mixed ["P3"; "P1"; "P2"; "P1"] ["A3"; "A1"; "A2"; "A3"]
      eps_default.
Proof.
  apply simulate_set_order_free; intros x; simpl; tauto.
Defined.

(** ** When the simulator raises *)



(** * Further properties of the enumerator *)

(** ** The combinations are the subsequences *)

(** [combinations pool r] lists exactly the subsequences of [pool] of
    length [r]. *)
Lemma combinations_sublist {A : Type} (pool : list A) :
  forall r c, In c (combinations pool r) <-> sublist c pool /\ length c = r.
Proof.
  induction pool as [|x rest IH]; intros [|r] c; cbn [combinations].
  - split.
    + intros [<-|[]]. split; [constructor | reflexivity].
    + intros [_ Hl]. destruct c; [left; reflexivity | discriminate].
  - split; [intros [] | intros [Hs Hl]].
    apply sublist_nil_r in Hs. subst. discriminate.
  - split.
    + intros [<-|[]]. split; [apply sublist_nil_l | reflexivity].
    + intros [_ Hl]. destruct c; [left; reflexivity | discriminate].
  - rewrite in_app_iff, in_map_iff, sublist_cons_r. split.
    + intros [(c' & <- & Hc')|Hc].
      * apply IH in Hc' as [Hs Hl]. split; [|simpl; congruence].
        right. eauto.
      * apply IH in Hc as [Hs Hl]. split; [left; exact Hs | exact Hl].
    + intros [[Hs|(c' & -> & Hs)] Hl].
      * right. apply IH. auto.
      * left. exists c'. split; [reflexivity|]. apply IH.
        split; [exact Hs|]. simpl in Hl. congruence.
Qed.

Lemma NoDup_map_cons {A : Type} (x : A) (l : list (list A)) :
  NoDup l -> NoDup (map (cons x) l).
Proof.
  induction 1 as [|c l Hc Hnd IH]; cbn [map]; constructor; [|exact IH].
  rewrite list_elem_of_In, in_map_iff. intros (c' & E & Hc').
  inversion E; subst. apply Hc, list_elem_of_In, Hc'.
Qed.

(** With no repetition in the pool, no combination comes twice. *)
Lemma combinations_NoDup {A : Type} (pool : list A) :
  NoDup pool -> forall r, NoDup (combinations pool r).
Proof.
  induction pool as [|x rest IH]; intros Hnd [|r]; cbn [combinations];
    try (repeat constructor; rewrite list_elem_of_In; simpl; tauto).
  apply NoDup_cons in Hnd as [Hx Hnd].
  apply NoDup_app. split; [apply NoDup_map_cons, IH, Hnd|].
  split; [|apply IH, Hnd].
  intros c Hc Hc'. apply list_elem_of_In in Hc, Hc'.
  apply in_map_iff in Hc as (c' & <- & _).
  apply combinations_sublist in Hc' as [Hs _].
  apply Hx. eapply elem_of_sublist; [left | exact Hs].
Qed.

(** ** The whole sweep *)

Lemma names_of_keys (sp_map : SpMap) :
  (forall key s, In (key, s) sp_map -> key = name s) ->
  map name (sp_values sp_map) = map fst sp_map.
Proof.
  induction sp_map as [|[key s] rest IH]; intros H; [reflexivity|].
  cbn [sp_values map fst snd]. f_equal.
  - symmetry. apply H. left. reflexivity.
  - apply IH. intros key' s' Hin. apply H. right. exact Hin.
Qed.

Lemma NoDup_map_filter {A B : Type} (f : A -> B) (P : A -> Prop)
    `{!forall x, Decision (P x)} (l : list A) :
  NoDup (map f l) -> NoDup (map f (filter P l)).
Proof.
  induction l as [|x l IH]; intros Hnd; [constructor|].
  cbn [map] in Hnd. apply NoDup_cons in Hnd as [Hx Hnd].
  rewrite filter_cons. destruct (decide (P x)); [|apply IH, Hnd].
  cbn [map]. constructor; [|apply IH, Hnd].
  intros Hin. apply Hx. apply list_elem_of_In in Hin.
  apply in_map_iff in Hin as (y & E & Hy).
  apply list_elem_of_In, list_elem_of_filter in Hy as [_ Hy].
  apply list_elem_of_In. apply in_map_iff. exists y.
  split; [exact E | apply list_elem_of_In, Hy].
Qed.

(** The run with no cap on a well-formed ecosystem, in closed form. *)
Lemma find_uncapped_eq (sp_map : SpMap) (k : nat) :
  let producers :=
    map name (filter (fun s => typ s = "Producer") (sp_values sp_map)) in
  let animals_all :=
    map name (filter (fun s => typ s = "Animal") (sp_values sp_map)) in
  (forall key s, In (key, s) sp_map -> key = name s) ->
  length producers = 3%nat -> length animals_all = 10%nat ->
  find_sustainable_sets_for_ecosystem sp_map (Z.of_nat k) None =
  Some {| answer :=
            inl (map (row_of producers)
                     (filter (fun c => passed sp_map producers c = true)
                             (combinations animals_all k)));
          calls := map (pair producers) (combinations animals_all k) |}.
Proof.
  cbv zeta. intros Hwf Hp Ha. unfold find_sustainable_sets_for_ecosystem.
  cbv zeta. rewrite Hp, Ha. cbn [Nat.eqb negb].
  assert (Hk : (Z.of_nat k <? 0)%Z = false) by (apply Z.ltb_ge; lia).
  rewrite Hk, Nat2Z.id, sweep_uncapped; [reflexivity|].
  intros c Hc. apply combinations_In in Hc as [_ Hc].
  apply simulate_set_returns. intros s Hs.
  apply in_app_iff in Hs as [Hs|Hs]; eapply names_are_keys; eauto.
Qed.

(** With no cap, on a well-formed ecosystem, every subset of
    [animals_to_choose] of the ten animals is passed to the simulator
    exactly once, with the three producers, and nothing else is. *)
Theorem every_subset_once (sp_map : SpMap) (k : nat) :
  let producers :=
    map name (filter (fun s => typ s = "Producer") (sp_values sp_map)) in
  let animals_all :=
    map name (filter (fun s => typ s = "Animal") (sp_values sp_map)) in
  NoDup (map fst sp_map) ->
  (forall key s, In (key, s) sp_map -> key = name s) ->
  length producers = 3%nat -> length animals_all = 10%nat ->
  exists rep,
    find_sustainable_sets_for_ecosystem sp_map (Z.of_nat k) None = Some rep /\
    NoDup (calls rep) /\
    forall ps c,
      In (ps, c) (calls rep) <->
      ps = producers /\ sublist c animals_all /\ length c = k.
Proof.
  cbv zeta. intros Hnd Hwf Hp Ha.
  rewrite (find_uncapped_eq sp_map k Hwf Hp Ha).
  eexists. split; [reflexivity|]. cbn [calls].
  assert (Hnames : NoDup (map name (filter (fun s => typ s = "Animal")
                                           (sp_values sp_map)))).
  { apply NoDup_map_filter. rewrite names_of_keys by exact Hwf. exact Hnd. }
  split.
  - pose proof (combinations_NoDup _ Hnames k) as Hc.
    induction Hc as [|c l Hc Hl IH]; cbn [map]; constructor; [|exact IH].
    rewrite list_elem_of_In, in_map_iff. intros (c' & E & Hc').
    inversion E; subst. apply Hc, list_elem_of_In, Hc'.
  - intros ps c. rewrite in_map_iff. split.
    + intros (c' & E & Hc'). inversion E; subst.
      split; [reflexivity|]. apply combinations_sublist. exact Hc'.
    + intros (-> & Hs). eexists. split; [reflexivity|].
      apply combinations_sublist. exact Hs.
Qed.

Lemma every_subset_once_witness :
  exists rep,
    find_sustainable_sets_for_ecosystem Examples.eco_mixed 5 None = Some rep /\
    In (Examples.P123, ["A2"; "A4"; "A6"; "A8"; "A10"]) (calls rep).
Proof.
  destruct (every_subset_once Examples.eco_mixed 5) as (rep & Hrun & _ & Hin).
  - repeat constructor; rewrite list_elem_of_In; simpl; intuition discriminate.
  - intros key s H. simpl in H.
    repeat (destruct H as [H|H]; [inversion H; reflexivity|]). destruct H.
  - reflexivity.
  - reflexivity.
  - exists rep. split; [exact Hrun|]. apply Hin.
    split; [reflexivity|]. split; [|reflexivity].
    change (map name (filter (fun s => typ s = "Animal")
                             (sp_values Examples.eco_mixed)))
      with ["A1"; "A2"; "A3"; "A4"; "A5"; "A6"; "A7"; "A8"; "A9"; "A10"].
    repeat first [apply sublist_nil_l | apply sublist_skip | apply sublist_cons].
Defined.

Lemma sweep_capped_take (sp_map : SpMap) (producers : list string) (cap : Z)
    (combos : list (list string)) :
  (forall c, In c combos ->
     exists b p, simulate_set sp_map producers c eps_default
                 = Some (Returned b p)) ->
  forall acc log,
    (Z.of_nat (length acc) < cap)%Z ->
    exists rep,
      sweep sp_map producers (Some cap) combos acc log = Some rep /\
      answer rep =
      inl (take (Z.to_nat cap)
                (acc ++ map (row_of producers)
                            (filter (fun c => passed sp_map producers c = true)
                                    combos))).
Proof.
  induction combos as [|c combos IH]; intros Hret acc log Hlen.
  - eexists. split; [reflexivity|]. cbn [answer map filter].
    rewrite filter_nil, app_nil_r, take_ge by lia. reflexivity.
  - cbn [sweep]. destruct (Hret c) as (b & p & Hc); [left; reflexivity|].
    assert (Hp : passed sp_map producers c = b).
    { unfold passed. rewrite Hc. destruct b; reflexivity. }
    assert (Hret' : forall c', In c' combos ->
              exists b p, simulate_set sp_map producers c' eps_default
                          = Some (Returned b p))
      by (intros c' Hc'; apply Hret; right; exact Hc').
    rewrite Hc, filter_cons. destruct b.
    + rewrite decide_True by exact Hp. cbn [map].
      destruct (cap <=? Z.of_nat (length (acc ++ [row_of producers c])))%Z
        eqn:Ecap.
      * apply Z.leb_le in Ecap. rewrite length_app in Ecap. simpl in Ecap.
        eexists. split; [reflexivity|]. cbn [answer].
        replace (acc ++ row_of producers c ::
                 map (row_of producers)
                     (filter (fun c0 => passed sp_map producers c0 = true) combos))
          with ((acc ++ [row_of producers c]) ++
                map (row_of producers)
                    (filter (fun c0 => passed sp_map producers c0 = true) combos))
          by (rewrite <- app_assoc; reflexivity).
        rewrite take_app_length'; [reflexivity|].
        rewrite length_app. simpl. lia.
      * apply Z.leb_gt in Ecap.
        destruct (IH Hret' (acc ++ [row_of producers c])
                     (log ++ [(producers, c)]) Ecap) as (rep & Hs & Hans).
        exists rep. split; [exact Hs|]. rewrite Hans, <- app_assoc. reflexivity.
    + rewrite decide_False by (rewrite Hp; discriminate).
      apply IH; assumption.
Qed.

(** On a well-formed ecosystem, a run with a positive cap returns the first
    [cap] rows of the run with no cap (all of them when there are fewer). *)
Theorem cap_returns_first_rows (sp_map : SpMap) (k : nat) (cap : Z) :
  let producers :=
    map name (filter (fun s => typ s = "Producer") (sp_values sp_map)) in
  let animals_all :=
    map name (filter (fun s => typ s = "Animal") (sp_values sp_map)) in
  (forall key s, In (key, s) sp_map -> key = name s) ->
  length producers = 3%nat -> length animals_all = 10%nat ->
  (0 < cap)%Z ->
  exists rep_all rep rows_all,
    find_sustainable_sets_for_ecosystem sp_map (Z.of_nat k) None = Some rep_all /\
    answer rep_all = inl rows_all /\
    find_sustainable_sets_for_ecosystem sp_map (Z.of_nat k) (Some cap) = Some rep /\
    answer rep = inl (take (Z.to_nat cap) rows_all).
Proof.
  cbv zeta. intros Hwf Hp Ha Hcap.
  rewrite (find_uncapped_eq sp_map k Hwf Hp Ha).
  unfold find_sustainable_sets_for_ecosystem. cbv zeta.
  rewrite Hp, Ha. cbn [Nat.eqb negb].
  assert (Hk : (Z.of_nat k <? 0)%Z = false) by (apply Z.ltb_ge; lia).
  rewrite Hk, Nat2Z.id.
  destruct (sweep_capped_take sp_map
              (map name (filter (fun s => typ s = "Producer") (sp_values sp_map)))
              cap
              (combinations
                 (map name (filter (fun s => typ s = "Animal") (sp_values sp_map)))
                 k)) with (acc := @nil Row)
                          (log := @nil (list string * list string))
    as (rep & Hs & Hans).
  - intros c Hc. apply combinations_In in Hc as [_ Hc].
    apply simulate_set_returns. intros s Hs.
    apply in_app_iff in Hs as [Hs|Hs]; eapply names_are_keys; eauto.
  - simpl. exact Hcap.
  - eexists _, rep, _. split; [reflexivity|]. split; [reflexivity|].
    split; [exact Hs | exact Hans].
Qed.

Lemma cap_returns_first_rows_witness :
  exists rep_all rep rows_all,
    find_sustainable_sets_for_ecosystem Examples.eco_mixed 5 None = Some rep_all /\
    answer rep_all = inl rows_all /\
    find_sustainable_sets_for_ecosystem Examples.eco_mixed 5 (Some 2%Z) = Some rep /\
    answer rep = inl (take 2 rows_all).
Proof.
  apply (cap_returns_first_rows Examples.eco_mixed 5 2).
  - intros key s H. simpl in H.
    repeat (destruct H as [H|H]; [inversion H; reflexivity|]). destruct H.
  - reflexivity.
  - reflexivity.
  - reflexivity.
Defined.

Lemma combinations_too_many {A : Type} (pool : list A) (r : nat) :
  (length pool < r)%nat -> combinations pool r = [].
Proof.
  intros H. apply length_zero_iff_nil.
  rewrite combinations_length. apply comb_gt. exact H.
Qed.

Lemma simulate_set_no_animals (sp_map : SpMap) (producers : list string) (eps : Q) :
  (forall s, In s producers -> is_Some (sp_lookup sp_map s)) ->
  exists p, simulate_set sp_map producers [] eps = Some (Returned true p).
Proof.
  intros Hwf. unfold simulate_set, simulate_set_fuel. cbv zeta.
  destruct (dict_of_is_Some sp_map cp0
              (elements (list_to_set producers ∪ list_to_set [] : gset string)))
    as [cp1 Hcp].
  { intros s Hs. apply In_elements_selected in Hs. rewrite app_nil_r in Hs.
    apply Hwf, Hs. }
  rewrite Hcp. cbn. eauto.
Qed.

(** The choices at the edge, on an ecosystem with 3 producers and 10
    animals, for an [animals_to_choose] within range: a negative one raises
    [ValueError] with no call made; more than 10 returns no row with no call
    made; and 0 makes one call, with no animal, which passes, so that one
    row with an empty animal list is returned, whatever the cap. *)
Theorem degenerate_choices (sp_map : SpMap) (cap_results : option Z) :
  let producers :=
    map name (filter (fun s => typ s = "Producer") (sp_values sp_map)) in
  let animals_all :=
    map name (filter (fun s => typ s = "Animal") (sp_values sp_map)) in
  length producers = 3%nat -> length animals_all = 10%nat ->
  (forall k, (r_min <= k < 0)%Z ->
     find_sustainable_sets_for_ecosystem sp_map k cap_results
     = Some {| answer := inr ValueError_negative_r; calls := [] |}) /\
  (forall k, (10 < k <= r_max)%Z ->
     find_sustainable_sets_for_ecosystem sp_map k cap_results
     = Some {| answer := inl []; calls := [] |}) /\
  ((forall key s, In (key, s) sp_map -> key = name s) ->
   find_sustainable_sets_for_ecosystem sp_map 0 cap_results
   = Some {| answer := inl [row_of producers []];
             calls := [(producers, [])] |}).
Proof.
  cbv zeta. intros Hp Ha. unfold find_sustainable_sets_for_ecosystem.
  cbv zeta. rewrite Hp, Ha. cbn [Nat.eqb negb]. split; [|split].
  - intros k [_ Hk]. apply Z.ltb_lt in Hk. rewrite Hk. reflexivity.
  - intros k [Hk _].
    assert (Hk' : (k <? 0)%Z = false) by (apply Z.ltb_ge; lia).
    rewrite Hk', combinations_too_many by (rewrite Ha; lia). reflexivity.
  - intros Hwf. change (0 <? 0)%Z with false. change (Z.to_nat 0) with 0%nat.
    cbv iota.
    assert (Hc : combinations
                   (map name (filter (fun s => typ s = "Animal")
                                     (sp_values sp_map))) 0 = [[]]).
    { generalize (map name (filter (fun s => typ s = "Animal")
                                   (sp_values sp_map))).
      intros [|x l]; reflexivity. }
    rewrite Hc. cbn [sweep].
    destruct (simulate_set_no_animals sp_map
                (map name (filter (fun s => typ s = "Producer")
                                  (sp_values sp_map))) eps_default) as [p Hrun].
    { intros s Hs. eapply names_are_keys; eauto. }
    rewrite Hrun. cbn [app length].
    destruct cap_results as [cap|]; [|reflexivity].
    destruct (cap <=? Z.of_nat 1)%Z; reflexivity.
Qed.

Lemma degenerate_choices_witness :
  find_sustainable_sets_for_ecosystem Examples.eco_A (-1) (Some 3%Z)
  = Some {| answer := inr ValueError_negative_r; calls := [] |} /\
  find_sustainable_sets_for_ecosystem Examples.eco_A 11 (Some 3%Z)
  = Some {| answer := inl []; calls := [] |} /\
  find_sustainable_sets_for_ecosystem Examples.eco_A 0 (Some 3%Z)
  = Some {| answer := inl [{| Producers := "P1, P2, P3"; Animals := "";
                              AllSpecies := "P1, P2, P3" |}];
            calls := [(Examples.P123, [])] |}.
Proof.
  destruct (degenerate_choices Examples.eco_A (Some 3%Z) eq_refl eq_refl)
    as (Hneg & Hmany & Hnone).
  split; [|split].
  - apply Hneg. unfold r_min. lia.
  - apply Hmany. unfold r_max. lia.
  - apply Hnone. intros key s H. simpl in H.
    repeat (destruct H as [H|H]; [inversion H; reflexivity|]). destruct H.
Defined.


(** * The loader *)

(** ** Stripping *)

Lemma lstrip_length (s : string) :
  lstrip s = s \/ (String.length (lstrip s) < String.length s)%nat.
Proof.
  induction s as [|c s IH]; [left; reflexivity|].
  cbn [lstrip]. destruct (is_space c); [|left; reflexivity].
  right. simpl. destruct IH as [->|IH]; lia.
Qed.

Lemma rstrip_length (s : string) :
  (String.length (rstrip s) <= String.length s)%nat.
Proof.
  induction s as [|c s IH]; [reflexivity|].
  cbn [rstrip]. destruct (rstrip s); [destruct (is_space c)|];
    simpl in *; lia.
Qed.

Lemma strip_fixed (y : string) : strip y = y -> lstrip y = y /\ rstrip y = y.
Proof.
  unfold strip. intros H.
  destruct (lstrip_length y) as [E|Hlt].
  - rewrite E in H. auto.
  - exfalso. pose proof (rstrip_length (lstrip y)) as Hle.
    rewrite H in Hle. lia.
Qed.

Lemma lstrip_head (s : string) :
  lstrip s = EmptyString \/
  exists c r, lstrip s = String c r /\ is_space c = false.
Proof.
  induction s as [|c s IH]; [left; reflexivity|].
  cbn [lstrip]. destruct (is_space c) eqn:E; [exact IH|]. right. eauto.
Qed.

Lemma rstrip_head (c : Ascii.ascii) (s : string) :
  rstrip (String c s) = EmptyString \/
  exists r, rstrip (String c s) = String c r.
Proof.
  cbn [rstrip]. destruct (rstrip s); [destruct (is_space c)|]; eauto.
Qed.

Lemma rstrip_idem (s : string) : rstrip (rstrip s) = rstrip s.
Proof.
  induction s as [|c s IH]; [reflexivity|].
  cbn [rstrip]. destruct (rstrip s) as [|c' r] eqn:E.
  - destruct (is_space c) eqn:Ec; [reflexivity|].
    cbn [rstrip]. rewrite Ec. reflexivity.
  - cbn [rstrip]. cbn [rstrip] in IH.
    destruct (rstrip r) as [|c'' r'] eqn:E'.
    + destruct (is_space c'); [discriminate IH|].
      inversion IH; subst. reflexivity.
    + inversion IH; subst. reflexivity.
Qed.

(** Stripping twice is stripping once. *)
Lemma strip_idem (s : string) : strip (strip s) = strip s.
Proof.
  unfold strip.
  destruct (lstrip_head s) as [E|(c & r & E & Hc)]; rewrite E.
  - reflexivity.
  - destruct (rstrip_head c r) as [E'|[r' E']]; rewrite E'.
    + reflexivity.
    + cbn [lstrip]. rewrite Hc, <- E'. apply rstrip_idem.
Qed.

Lemma lstrip_chars (s : string) (c : Ascii.ascii) :
  In c (String.list_ascii_of_string (lstrip s)) -> In c (String.list_ascii_of_string s).
Proof.
  induction s as [|c' s IH]; [tauto|].
  cbn [lstrip]. destruct (is_space c'); [|tauto].
  intros H. right. apply IH, H.
Qed.

Lemma rstrip_chars (s : string) (c : Ascii.ascii) :
  In c (String.list_ascii_of_string (rstrip s)) -> In c (String.list_ascii_of_string s).
Proof.
  induction s as [|c' s IH]; [tauto|].
  cbn [rstrip]. destruct (rstrip s) as [|c'' r].
  - destruct (is_space c'); simpl; tauto.
  - simpl in *. intros [H|H]; [left; exact H | right; apply IH, H].
Qed.

Lemma strip_chars (s : string) (c : Ascii.ascii) :
  In c (String.list_ascii_of_string (strip s)) -> In c (String.list_ascii_of_string s).
Proof. intros H. apply lstrip_chars, rstrip_chars, H. Qed.

Lemma lstrip_app (x t : string) :
  x <> EmptyString -> lstrip x = x -> lstrip (String.append x t) = String.append x t.
Proof.
  destruct x as [|c x]; [congruence|]. intros _ H.
  simpl in *.
  destruct (is_space c); [|reflexivity].
  exfalso. destruct (lstrip_length x) as [E|Hlt].
  - rewrite E in H. apply (f_equal String.length) in H. simpl in H. lia.
  - rewrite H in Hlt. simpl in Hlt. lia.
Qed.

Lemma rstrip_app (t y : string) :
  rstrip y <> EmptyString ->
  rstrip (String.append t y) = String.append t (rstrip y).
Proof.
  intros Hy. induction t as [|c t IH]; [reflexivity|].
  change (String.append (String c t) y) with (String c (String.append t y)).
  change (String.append (String c t) (rstrip y))
    with (String c (String.append t (rstrip y))).
  cbn [rstrip]. rewrite IH.
  destruct (String.append t (rstrip y)) eqn:E; [|reflexivity].
  exfalso. destruct t as [|c' t'].
  - change (rstrip y = EmptyString) in E. contradiction.
  - change (String c' (String.append t' (rstrip y)) = EmptyString) in E.
    discriminate E.
Qed.

(** ** Splitting at commas *)

Lemma split_on_not_nil (sep : Ascii.ascii) (s : string) : split_on sep s <> [].
Proof.
  induction s as [|c s IH]; [discriminate|].
  cbn [split_on]. destruct (Ascii.eqb c sep); [discriminate|].
  destruct (split_on sep s); discriminate.
Qed.

Lemma split_on_no_sep (sep : Ascii.ascii) (s piece : string) :
  In piece (split_on sep s) -> ~ In sep (String.list_ascii_of_string piece).
Proof.
  revert piece. induction s as [|c s IH]; intros piece.
  - intros [<-|[]]. simpl. tauto.
  - cbn [split_on]. destruct (Ascii.eqb c sep) eqn:E.
    + intros [<-|H]; [simpl; tauto | apply IH, H].
    + destruct (split_on sep s) as [|p ps] eqn:Es.
      * intros [<-|[]]. simpl. intros [->|[]].
        rewrite Ascii.eqb_refl in E. discriminate.
      * intros [<-|H].
        -- simpl. intros [->|H].
           ++ rewrite Ascii.eqb_refl in E. discriminate.
           ++ apply (IH p); [left; reflexivity | exact H].
        -- apply IH. right. exact H.
Qed.

(** A piece without the separator, then the separator: the piece is split
    off. *)
Lemma split_on_app (sep : Ascii.ascii) (a t : string) :
  ~ In sep (String.list_ascii_of_string a) ->
  split_on sep (String.append a (String sep t)) = a :: split_on sep t.
Proof.
  induction a as [|c a IH]; intros Ha.
  - change (String.append EmptyString (String sep t)) with (String sep t).
    cbn [split_on]. rewrite Ascii.eqb_refl. reflexivity.
  - change (String.append (String c a) (String sep t))
      with (String c (String.append a (String sep t))).
    cbn [split_on].
    destruct (Ascii.eqb c sep) eqn:E.
    + apply Ascii.eqb_eq in E. subst. exfalso. apply Ha. left. reflexivity.
    + rewrite IH; [reflexivity|]. intros H. apply Ha. right. exact H.
Qed.

Lemma split_on_whole (sep : Ascii.ascii) (a : string) :
  ~ In sep (String.list_ascii_of_string a) -> split_on sep a = [a].
Proof.
  induction a as [|c a IH]; intros Ha; [reflexivity|].
  cbn [split_on]. destruct (Ascii.eqb c sep) eqn:E.
  - apply Ascii.eqb_eq in E. subst. exfalso. apply Ha. left. reflexivity.
  - rewrite IH; [reflexivity|]. intros H. apply Ha. right. exact H.
Qed.

(** ** What [parse_food_sources] returns *)

Lemma parse_clean (c : cell) : Forall clean_name (parse_food_sources c).
Proof.
  destruct c as [| |text]; cbn [parse_food_sources]; try constructor.
  cbv zeta. destruct (String.eqb (strip text) ""); [constructor|].
  apply Forall_forall. intros x Hx. apply list_elem_of_In in Hx.
  apply in_map_iff in Hx as (piece & <- & Hp).
  apply list_elem_of_In, list_elem_of_filter in Hp as [Hne Hp].
  apply list_elem_of_In in Hp.
  split; [exact Hne|]. split; [apply strip_idem|].
  intros Hc. apply strip_chars in Hc.
  exact (split_on_no_sep _ _ _ Hp Hc).
Qed.

(** Every name returned is clean: not empty, stripped, without a comma; and
    a missing, NaN or blank cell gives no name. *)
Theorem parse_food_sources_clean (c : cell) :
  Forall clean_name (parse_food_sources c) /\
  (match c with
   | CellOther text => strip text = EmptyString -> parse_food_sources c = []
   | _ => parse_food_sources c = []
   end).
Proof.
  split; [apply parse_clean|].
  destruct c as [| |text]; try reflexivity.
  intros E. cbn [parse_food_sources]. cbv zeta. rewrite E. reflexivity.
Qed.

(** ** Reading back a joined list *)

Lemma join_cons2 (sep x y : string) (l : list string) :
  join sep (x :: y :: l)
  = String.append x (String.append sep (join sep (y :: l))).
Proof. reflexivity. Qed.

Lemma join_not_empty (sep x : string) (l : list string) :
  x <> EmptyString -> join sep (x :: l) <> EmptyString.
Proof.
  intros Hx. destruct l as [|y l]; [exact Hx|].
  rewrite join_cons2. destruct x as [|c x]; [congruence | discriminate].
Qed.

Lemma strip_space_cons (y : string) : strip (String (Ascii.ascii_of_nat 32) y) = strip y.
Proof. reflexivity. Qed.

Lemma split_join (x : string) (l : list string) :
  Forall clean_name (x :: l) ->
  split_on comma (join ", " (x :: l)) = x :: map (String (Ascii.ascii_of_nat 32)) l.
Proof.
  revert x. induction l as [|y l IH]; intros x Hall.
  - apply Forall_cons in Hall as [(_ & _ & Hc) _].
    apply split_on_whole. exact Hc.
  - apply Forall_cons in Hall as [(_ & _ & Hc) Hall].
    rewrite join_cons2.
    change (String.append ", " (join ", " (y :: l)))
      with (String comma (String (Ascii.ascii_of_nat 32) (join ", " (y :: l)))).
    rewrite split_on_app by exact Hc. f_equal.
    cbn [split_on]. change (Ascii.eqb (Ascii.ascii_of_nat 32) comma) with false. cbv iota.
    rewrite (IH y Hall). reflexivity.
Qed.

Lemma rstrip_join (x : string) (l : list string) :
  Forall clean_name (x :: l) ->
  rstrip (join ", " (x :: l)) = join ", " (x :: l).
Proof.
  revert x. induction l as [|y l IH]; intros x Hall.
  - apply Forall_cons in Hall as [(_ & Hs & _) _].
    apply strip_fixed in Hs. apply Hs.
  - apply Forall_cons in Hall as [_ Hall].
    pose proof (IH y Hall) as E.
    assert (Hne : join ", " (y :: l) <> EmptyString).
    { apply join_not_empty. apply Forall_cons in Hall as [(H & _) _]. exact H. }
    rewrite join_cons2.
    assert (E2 : rstrip (String.append ", " (join ", " (y :: l)))
                 = String.append ", " (join ", " (y :: l))).
    { rewrite rstrip_app; rewrite E; [reflexivity | exact Hne]. }
    rewrite rstrip_app; rewrite E2; [reflexivity | discriminate].
Qed.

Lemma strip_join (x : string) (l : list string) :
  Forall clean_name (x :: l) ->
  strip (join ", " (x :: l)) = join ", " (x :: l).
Proof.
  intros Hall. unfold strip.
  assert (Hl : lstrip (join ", " (x :: l)) = join ", " (x :: l)).
  { apply Forall_cons in Hall as [(Hne & Hs & _) _].
    apply strip_fixed in Hs as [Hs _].
    destruct l as [|y l]; [exact Hs|].
    rewrite join_cons2. apply lstrip_app; assumption. }
  rewrite Hl. apply rstrip_join. exact Hall.
Qed.

Lemma strip_pieces (l : list string) :
  Forall clean_name l ->
  map strip (filter (fun x => strip x <> EmptyString) (map (String (Ascii.ascii_of_nat 32)) l)) = l.
Proof.
  induction l as [|y l IH]; intros Hall; [reflexivity|].
  apply Forall_cons in Hall as [(Hne & Hs & _) Hall].
  cbn [map]. rewrite filter_cons, strip_space_cons.
  rewrite decide_True by (rewrite Hs; exact Hne).
  cbn [map]. rewrite strip_space_cons, Hs, (IH Hall). reflexivity.
Qed.

(** A list of clean names, joined with [", "] as the result rows are, is
    read back by [parse_food_sources] as it was. *)
Theorem parse_food_sources_join (names : list string) :
  Forall clean_name names ->
  parse_food_sources (CellOther (join ", " names)) = names.
Proof.
  intros Hall. destruct names as [|x l]; [reflexivity|].
  cbn [parse_food_sources]. cbv zeta. rewrite (strip_join x l Hall).
  assert (Hne : join ", " (x :: l) <> EmptyString).
  { apply join_not_empty. apply Forall_cons in Hall as [(H & _) _]. exact H. }
  apply String.eqb_neq in Hne. rewrite Hne, (split_join x l Hall).
  apply Forall_cons in Hall as [(Hx & Hs & _) Hall].
  rewrite filter_cons, decide_True by (rewrite Hs; exact Hx).
  cbn [map]. rewrite Hs, (strip_pieces l Hall). reflexivity.
Qed.

Lemma parse_food_sources_join_witness :
  parse_food_sources (CellOther (join ", " ["P1"; "A 3"; "A10"]))
  = ["P1"; "A 3"; "A10"].
Proof.
  apply parse_food_sources_join.
  repeat constructor; try discriminate; try reflexivity;
    simpl; intuition discriminate.
Defined.

(** ** Insertion-ordered dicts *)

Lemma sp_lookup_dict_get (sp_map : SpMap) (k : string) :
  sp_lookup sp_map k = dict_get sp_map k.
Proof.
  induction sp_map as [|[k' s] rest IH]; [reflexivity|].
  cbn [sp_lookup dict_get]. rewrite IH. reflexivity.
Qed.

Lemma dict_get_set {V : Type} (d : list (string * V)) (k k' : string) (v : V) :
  dict_get (dict_set d k v) k'
  = if String.eqb k k' then Some v else dict_get d k'.
Proof.
  induction d as [|[k0 v0] rest IH]; cbn [dict_set dict_get].
  - reflexivity.
  - destruct (String.eqb k0 k) eqn:E0; cbn [dict_get].
    + apply String.eqb_eq in E0. subst k0.
      destruct (String.eqb k k'); reflexivity.
    + destruct (String.eqb k0 k') eqn:E1; [|exact IH].
      apply String.eqb_eq in E1. subst k0.
      rewrite String.eqb_sym, E0. reflexivity.
Qed.

Lemma dict_get_In {V : Type} (d : list (string * V)) (k : string) (v : V) :
  dict_get d k = Some v -> In (k, v) d.
Proof.
  induction d as [|[k0 v0] rest IH]; cbn [dict_get]; [discriminate|].
  destruct (String.eqb k0 k) eqn:E.
  - apply String.eqb_eq in E. intros H. inversion H; subst. left. reflexivity.
  - intros H. right. apply IH, H.
Qed.

Lemma dict_get_None {V : Type} (d : list (string * V)) (k : string) :
  dict_get d k = None -> ~ In k (map fst d).
Proof.
  induction d as [|[k0 v0] rest IH]; cbn [dict_get]; [tauto|].
  destruct (String.eqb k0 k) eqn:E; [discriminate|].
  apply String.eqb_neq in E. intros H [H'|H']; [exact (E H') | exact (IH H H')].
Qed.

Lemma dict_set_In {V : Type} (d : list (string * V)) (k k' : string) (v v' : V) :
  In (k', v') (dict_set d k v) -> (k' = k /\ v' = v) \/ In (k', v') d.
Proof.
  induction d as [|[k0 v0] rest IH]; cbn [dict_set].
  - intros [H|[]]. inversion H. auto.
  - destruct (String.eqb k0 k) eqn:E.
    + apply String.eqb_eq in E. subst k0.
      intros [H|H]; [inversion H; auto | right; right; exact H].
    + intros [H|H]; [right; left; exact H|].
      destruct (IH H) as [H'|H']; [auto | right; right; exact H'].
Qed.

Lemma dict_set_keys {V : Type} (d : list (string * V)) (k : string) (v : V) :
  map fst (dict_set d k v)
  = match dict_get d k with
    | Some _ => map fst d
    | None => map fst d ++ [k]
    end.
Proof.
  induction d as [|[k0 v0] rest IH]; cbn [dict_set dict_get]; [reflexivity|].
  destruct (String.eqb k0 k) eqn:E; [reflexivity|].
  cbn [map fst]. rewrite IH. destruct (dict_get rest k); reflexivity.
Qed.

(** Assignment keeps the keys distinct. *)
Lemma dict_set_NoDup {V : Type} (d : list (string * V)) (k : string) (v : V) :
  NoDup (map fst d) -> NoDup (map fst (dict_set d k v)).
Proof.
  intros H. rewrite dict_set_keys.
  destruct (dict_get d k) eqn:E; [exact H|].
  apply NoDup_app. split; [exact H|]. split.
  - intros x Hx Hk. apply list_elem_of_In in Hx.
    apply list_elem_of_In in Hk. destruct Hk as [<-|[]].
    exact (dict_get_None d k E Hx).
  - repeat constructor. rewrite list_elem_of_In. simpl. tauto.
Qed.

Lemma dict_set_In_NoDup {V : Type} (d : list (string * V)) (k k' : string)
    (v v' : V) :
  NoDup (map fst d) ->
  In (k', v') (dict_set d k v) ->
  (k' = k /\ v' = v) \/ (k' <> k /\ In (k', v') d).
Proof.
  induction d as [|[k0 v0] rest IH]; cbn [dict_set map fst]; intros Hnd.
  - intros [H|[]]. inversion H. auto.
  - apply NoDup_cons in Hnd as [Hk0 Hnd].
    destruct (String.eqb k0 k) eqn:E.
    + apply String.eqb_eq in E. subst k0.
      intros [H|H]; [inversion H; auto|]. right. split; [|right; exact H].
      intros ->. apply Hk0, list_elem_of_In, in_map_iff.
      exists (k, v'). auto.
    + apply String.eqb_neq in E.
      intros [H|H].
      * inversion H; subst. right. split; [exact E | left; reflexivity].
      * destruct (IH Hnd H) as [H'|[H1 H2]]; [auto|].
        right. split; [exact H1 | right; exact H2].
Qed.

Lemma dict_set_not_nil {V : Type} (d : list (string * V)) (k : string) (v : V) :
  dict_set d k v <> [].
Proof.
  destruct d as [|[k0 v0] rest]; cbn [dict_set]; [discriminate|].
  destruct (String.eqb k0 k); discriminate.
Qed.

(** ** What the loader builds *)

Lemma species_of_row_ok (r : RowIn) (provided needed : Q) :
  species_ok (strip (r_Species r)) (species_of_row r provided needed).
Proof.
  split; [reflexivity|]. split; [apply strip_idem|].
  split; [apply strip_idem|]. apply parse_clean.
Qed.

Lemma sp_map_ok_set (inner : SpMap) (r : RowIn) (provided needed : Q) :
  inner = [] \/ sp_map_ok inner ->
  sp_map_ok (dict_set inner (strip (r_Species r))
                      (species_of_row r provided needed)).
Proof.
  intros H. split; [apply dict_set_not_nil|].
  assert (Hnd : NoDup (map fst inner)).
  { destruct H as [->|(_ & H & _)]; [constructor | exact H]. }
  split; [apply dict_set_NoDup, Hnd|].
  intros key s Hin.
  apply (dict_set_In_NoDup _ _ _ _ _ Hnd) in Hin as [[-> ->]|[_ Hin]].
  - apply species_of_row_ok.
  - destruct H as [->|(_ & _ & H)]; [destruct Hin | exact (H _ _ Hin)].
Qed.

Lemma load_row_ok (ecosystems ecosystems' : list (string * SpMap)) (r : RowIn) :
  ecosystems_ok ecosystems ->
  load_row ecosystems r = Some ecosystems' ->
  ecosystems_ok ecosystems'.
Proof.
  intros [Hnd Hall]. unfold load_row. cbv zeta.
  destruct (r_CaloriesProvided r) as [provided|]; [|discriminate].
  destruct (r_CaloriesNeeded r) as [needed|]; [|discriminate].
  intros H. inversion H; subst. clear H.
  set (eco := strip (r_Ecosystem r)).
  destruct (dict_get ecosystems eco) as [inner|] eqn:E.
  - rewrite E. cbn [default].
    split; [apply dict_set_NoDup, Hnd|].
    intros e m Hin.
    apply (dict_set_In_NoDup _ _ _ _ _ Hnd) in Hin as [[-> ->]|[_ Hin]].
    + split; [apply strip_idem|]. apply sp_map_ok_set. right.
      apply (Hall eco inner), dict_get_In, E.
    + exact (Hall _ _ Hin).
  - rewrite dict_get_set, String.eqb_refl. cbn [default].
    pose proof (dict_set_NoDup ecosystems eco [] Hnd) as Hnd1.
    split; [apply dict_set_NoDup, Hnd1|].
    intros e m Hin.
    apply (dict_set_In_NoDup _ _ _ _ _ Hnd1) in Hin as [[-> ->]|[Hne Hin]].
    + split; [apply strip_idem|]. apply sp_map_ok_set. left. reflexivity.
    + apply (dict_set_In_NoDup _ _ _ _ _ Hnd) in Hin as [[-> _]|[_ Hin]];
        [congruence|].
      exact (Hall _ _ Hin).
Qed.

Lemma load_rows_ok (rs : list RowIn) :
  forall ecosystems ecosystems',
    ecosystems_ok ecosystems ->
    load_rows ecosystems rs = Some ecosystems' ->
    ecosystems_ok ecosystems'.
Proof.
  induction rs as [|r rs IH]; intros ecosystems ecosystems' Hok H.
  - inversion H; subst. exact Hok.
  - cbn [load_rows] in H.
    destruct (load_row ecosystems r) as [e1|] eqn:E; [|discriminate].
    eapply IH; [|exact H]. eapply load_row_ok; eauto.
Qed.

Lemma loaded_rows (df : DataFrame) (ecosystems : list (string * SpMap)) :
  load_ecosystems df = Loaded ecosystems ->
  load_rows [] (df_rows df) = Some ecosystems.
Proof.
  unfold load_ecosystems.
  destruct (filter _ required); [|discriminate].
  destruct (load_rows [] (df_rows df)) as [e|]; [|discriminate].
  intros H. inversion H; subst. reflexivity.
Qed.

Lemma nothing_loaded_ok : ecosystems_ok [].
Proof. split; [constructor | intros eco m []]. Qed.

(** Every ecosystem loaded is a proper dict of species: its keys are
    distinct, each key is the name of the species stored under it, names,
    types and ecosystem names are stripped, food names are clean, and no
    ecosystem is empty. *)
Theorem load_ecosystems_ok (df : DataFrame) (ecosystems : list (string * SpMap)) :
  load_ecosystems df = Loaded ecosystems -> ecosystems_ok ecosystems.
Proof.
  intros H. apply loaded_rows in H.
  exact (load_rows_ok (df_rows df) [] ecosystems nothing_loaded_ok H).
Qed.

Lemma load_ecosystems_ok_witness :
  exists ecosystems,
    load_ecosystems Sheets.pond = Loaded ecosystems /\
    ecosystems_ok ecosystems.
Proof.
  eexists. split; [vm_compute; reflexivity|].
  apply (load_ecosystems_ok Sheets.pond). vm_compute. reflexivity.
Defined.

(** ** Which row a lookup finds *)

Lemma load_row_lookup (ecosystems ecosystems' : list (string * SpMap))
    (r : RowIn) (eco nm : string) :
  load_row ecosystems r = Some ecosystems' ->
  match dict_get ecosystems' eco with
  | Some m => dict_get m nm
  | None => None
  end
  = if String.eqb (strip (r_Ecosystem r)) eco
       && String.eqb (strip (r_Species r)) nm
    then match r_CaloriesProvided r, r_CaloriesNeeded r with
         | Some provided, Some needed => Some (species_of_row r provided needed)
         | _, _ => None
         end
    else match dict_get ecosystems eco with
         | Some m => dict_get m nm
         | None => None
         end.
Proof.
  unfold load_row. cbv zeta.
  destruct (r_CaloriesProvided r) as [provided|]; [|discriminate].
  destruct (r_CaloriesNeeded r) as [needed|]; [|discriminate].
  intros H. inversion H; subst. clear H.
  rewrite dict_get_set.
  destruct (String.eqb (strip (r_Ecosystem r)) eco) eqn:Ee; cbn [andb].
  - apply String.eqb_eq in Ee. subst eco. rewrite dict_get_set.
    destruct (String.eqb (strip (r_Species r)) nm); [reflexivity|].
    destruct (dict_get ecosystems (strip (r_Ecosystem r))) as [m|] eqn:E.
    + rewrite E. reflexivity.
    + rewrite dict_get_set, String.eqb_refl. reflexivity.
  - destruct (dict_get ecosystems (strip (r_Ecosystem r))); [reflexivity|].
    rewrite dict_get_set, Ee. reflexivity.
Qed.

Lemma find_snoc {A : Type} (f : A -> bool) (l : list A) (x : A) :
  find f (l ++ [x])
  = match find f l with
    | Some y => Some y
    | None => if f x then Some x else None
    end.
Proof.
  induction l as [|y l IH]; cbn [app find]; [reflexivity|].
  destruct (f y); [reflexivity | exact IH].
Qed.

Lemma load_rows_lookup (rs : list RowIn) (eco nm : string) :
  forall ecosystems ecosystems',
    load_rows ecosystems rs = Some ecosystems' ->
    match dict_get ecosystems' eco with
    | Some m => dict_get m nm
    | None => None
    end
    = match find (fun r => String.eqb (strip (r_Ecosystem r)) eco
                           && String.eqb (strip (r_Species r)) nm) (rev rs) with
      | Some r =>
          match r_CaloriesProvided r, r_CaloriesNeeded r with
          | Some provided, Some needed =>
              Some (species_of_row r provided needed)
          | _, _ => None
          end
      | None =>
          match dict_get ecosystems eco with
          | Some m => dict_get m nm
          | None => None
          end
      end.
Proof.
  induction rs as [|r rs IH]; intros ecosystems ecosystems' H.
  - inversion H; subst. reflexivity.
  - cbn [load_rows] in H.
    destruct (load_row ecosystems r) as [e1|] eqn:E; [|discriminate].
    rewrite (IH _ _ H). cbn [rev]. rewrite find_snoc.
    destruct (find _ (rev rs)); [reflexivity|].
    apply (load_row_lookup _ _ _ eco nm) in E. rewrite E.
    destruct (String.eqb (strip (r_Ecosystem r)) eco
              && String.eqb (strip (r_Species r)) nm); reflexivity.
Qed.

(** Looking a species up in what was loaded finds the species built from
    the last row that carries, once stripped, that ecosystem and that name,
    and finds nothing when no row does. *)
Theorem load_ecosystems_last_row_wins (df : DataFrame)
    (ecosystems : list (string * SpMap)) (eco nm : string) :
  load_ecosystems df = Loaded ecosystems ->
  match dict_get ecosystems eco with
  | Some sp_map => sp_lookup sp_map nm
  | None => None
  end
  = match find (fun r => String.eqb (strip (r_Ecosystem r)) eco
                         && String.eqb (strip (r_Species r)) nm)
               (rev (df_rows df)) with
    | Some r =>
        match r_CaloriesProvided r, r_CaloriesNeeded r with
        | Some provided, Some needed => Some (species_of_row r provided needed)
        | _, _ => None
        end
    | None => None
    end.
Proof.
  unfold load_ecosystems.
  destruct (filter _ required); [|discriminate].
  destruct (load_rows [] (df_rows df)) as [e|] eqn:E; [|discriminate].
  intros H. inversion H; subst.
  pose proof (load_rows_lookup _ eco nm _ _ E) as L. cbn [dict_get] in L.
  rewrite <- L.
  destruct (dict_get ecosystems eco); [apply sp_lookup_dict_get | reflexivity].
Qed.

Lemma load_ecosystems_last_row_wins_witness :
  exists ecosystems,
    load_ecosystems Sheets.pond = Loaded ecosystems /\
    match dict_get ecosystems "Pond" with
    | Some sp_map => sp_lookup sp_map "Frog"
    | None => None
    end
    = Some {| name := "Frog"; typ := "Animal"; cp0 := 20; cn0 := 7;
              foods := ["Algae"] |}.
Proof.
  eexists. split; [vm_compute; reflexivity|].
  etransitivity.
  - apply (load_ecosystems_last_row_wins Sheets.pond). vm_compute. reflexivity.
  - vm_compute. reflexivity.
Defined.

(** ** When the loader raises *)

Lemma load_rows_None (rs : list RowIn) :
  forall ecosystems,
    load_rows ecosystems rs = None <->
    exists r, In r rs /\
      (r_CaloriesProvided r = None \/ r_CaloriesNeeded r = None).
Proof.
  induction rs as [|r rs IH]; intros ecosystems; cbn [load_rows].
  - split; [discriminate | intros (r & [] & _)].
  - destruct (load_row ecosystems r) as [e1|] eqn:E.
    + rewrite IH. unfold load_row in E. cbv zeta in E.
      destruct (r_CaloriesProvided r) eqn:E1; [|discriminate].
      destruct (r_CaloriesNeeded r) eqn:E2; [|discriminate].
      split.
      * intros (r' & Hr & H). exists r'. split; [right; exact Hr | exact H].
      * intros (r' & [<-|Hr] & H); [|eauto].
        destruct H; congruence.
    + split; [|reflexivity]. intros _. exists r.
      split; [left; reflexivity|]. unfold load_row in E. cbv zeta in E.
      destruct (r_CaloriesProvided r); [|auto].
      destruct (r_CaloriesNeeded r); [discriminate | auto].
Qed.

(** The loader raises for missing columns exactly when a required column
    is absent, naming the absent ones in the order of [required], whatever
    the rows hold; it raises the error of [float] exactly when all the
    columns are there and some row has a number [float] rejects.  In every
    other case it returns. *)
Theorem load_ecosystems_raises (df : DataFrame) :
  (forall missing,
     load_ecosystems df = MissingColumns missing <->
     missing <> [] /\ missing = filter (fun c => c ∉ df_columns df) required) /\
  (load_ecosystems df = FloatError <->
   (forall c, In c required -> In c (df_columns df)) /\
   exists r, In r (df_rows df) /\
             (r_CaloriesProvided r = None \/ r_CaloriesNeeded r = None)).
Proof.
  split.
  - intros missing. unfold load_ecosystems.
    destruct (filter _ required) as [|c l] eqn:E.
    + destruct (load_rows [] (df_rows df)); split; try discriminate;
        intros [H ->]; congruence.
    + split; [intros H; inversion H; subst; split; [discriminate | reflexivity]|].
      intros [_ ->]. reflexivity.
  - unfold load_ecosystems.
    destruct (filter _ required) as [|c l] eqn:Ef.
    + assert (Hcols : forall c, In c required -> In c (df_columns df)).
      { intros c Hc. destruct (decide (c ∈ df_columns df)) as [Hin|Hn];
          [apply list_elem_of_In, Hin|].
        exfalso. assert (Hc' : c ∈ filter (fun c => c ∉ df_columns df) required)
          by (apply list_elem_of_filter; split;
              [exact Hn | apply list_elem_of_In, Hc]).
        rewrite Ef in Hc'. inversion Hc'. }
      destruct (load_rows [] (df_rows df)) eqn:E.
      * split; [discriminate|]. intros [_ H].
        apply (proj2 (load_rows_None (df_rows df) [])) in H. congruence.
      * split; [|reflexivity]. intros _. split; [exact Hcols|].
        apply (proj1 (load_rows_None (df_rows df) [])), E.
    + split; [discriminate|]. intros [Hcols _]. exfalso.
      assert (Hc : c ∈ filter (fun c => c ∉ df_columns df) required)
        by (rewrite Ef; left).
      apply list_elem_of_filter in Hc as [Hn Hc].
      apply Hn, list_elem_of_In, Hcols, list_elem_of_In, Hc.
Qed.

(** ** Loading, then enumerating *)

Lemma sweep_returns_rows (sp_map : SpMap) (producers : list string)
    (cap_results : option Z) (combos : list (list string)) :
  (forall c, In c combos ->
     exists b p, simulate_set sp_map producers c eps_default
                 = Some (Returned b p)) ->
  forall acc log,
    exists rep found,
      sweep sp_map producers cap_results combos acc log = Some rep /\
      answer rep = inl found.
Proof.
  induction combos as [|c combos IH]; intros Hret acc log.
  - eexists _, _. split; reflexivity.
  - cbn [sweep]. destruct (Hret c) as (b & p & Hc); [left; reflexivity|].
    assert (Hret' : forall c', In c' combos ->
              exists b p, simulate_set sp_map producers c' eps_default
                          = Some (Returned b p))
      by (intros c' Hc'; apply Hret; right; exact Hc').
    rewrite Hc. destruct b; [|apply IH, Hret'].
    destruct cap_results as [cap|]; [|apply IH, Hret'].
    destruct (cap <=? _)%Z; [|apply IH, Hret'].
    eexists _, _. split; reflexivity.
Qed.

Lemma find_on_named_keys (sp_map : SpMap) (k : Z) (cap_results : option Z) :
  (forall key s, In (key, s) sp_map -> key = name s) ->
  exists rep,
    find_sustainable_sets_for_ecosystem sp_map k cap_results = Some rep /\
    match answer rep with
    | inl _ => counts_ok sp_map /\ (0 <= k)%Z
    | inr e => (~ counts_ok sp_map \/ (k < 0)%Z) /\ e <> KeyError
    end.
Proof.
  intros Hwf. unfold find_sustainable_sets_for_ecosystem, counts_ok. cbv zeta.
  fold (producers_of sp_map). fold (animals_of sp_map).
  destruct (length (producers_of sp_map) =? 3)%nat eqn:Ep; cbn [negb].
  2:{ apply Nat.eqb_neq in Ep. eexists. split; [reflexivity|]. cbn [answer].
      split; [left; tauto | discriminate]. }
  destruct (length (animals_of sp_map) =? 10)%nat eqn:Ea; cbn [negb].
  2:{ apply Nat.eqb_neq in Ea. eexists. split; [reflexivity|]. cbn [answer].
      split; [left; tauto | discriminate]. }
  apply Nat.eqb_eq in Ep, Ea.
  destruct (k <? 0)%Z eqn:Ek.
  { apply Z.ltb_lt in Ek. eexists. split; [reflexivity|]. cbn [answer].
    split; [right; exact Ek | discriminate]. }
  apply Z.ltb_ge in Ek.
  destruct (sweep_returns_rows sp_map (producers_of sp_map) cap_results
              (combinations (animals_of sp_map) (Z.to_nat k))) with
    (acc := @nil Row) (log := @nil (list string * list string))
    as (rep & found & Hs & Hans).
  { intros c Hc. apply combinations_In in Hc as [_ Hc].
    apply simulate_set_returns. intros s Hs.
    apply in_app_iff in Hs as [Hs|Hs]; eapply names_are_keys; eauto. }
  exists rep. split; [exact Hs|]. rewrite Hans. auto.
Qed.

(** ** The rows of a run *)

Lemma solver_loop_outcome (k : Z) (cap : option Z)
    (ecosystems : list (string * SpMap)) :
  (forall eco m, In (eco, m) ecosystems ->
     forall key s, In (key, s) m -> key = name s) ->
  forall summary_rows all_sets_rows,
    exists out,
      solver_loop ecosystems k cap summary_rows all_sets_rows = Some out /\
      match out with
      | SolverRows _ _ =>
          (ecosystems = [] \/ (0 <= k)%Z) /\
          Forall (fun em => counts_ok (snd em)) ecosystems
      | SolverRaised e =>
          e <> KeyError /\
          (Exists (fun em => ~ counts_ok (snd em)) ecosystems \/
           ecosystems <> [] /\ (k < 0)%Z)
      end.
Proof.
  induction ecosystems as [|[eco m] rest IH]; intros Hwf summary_rows all_sets_rows.
  - eexists. split; [reflexivity|]. split; [left; reflexivity | constructor].
  - cbn [solver_loop].
    destruct (find_on_named_keys m k cap) as (rep & Hrun & Hans).
    { intros key s Hs. apply (Hwf eco m); [left; reflexivity | exact Hs]. }
    rewrite Hrun. destruct (answer rep) as [found|e].
    + destruct Hans as [Hc Hk].
      assert (Ek : (k <? 0)%Z = false) by (apply Z.ltb_ge; exact Hk).
      rewrite Ek.
      destruct (IH (fun eco' m' H => Hwf eco' m' (or_intror H))
                   (summary_rows ++
                    [{| sum_Ecosystem := eco;
                        sum_AnimalsChosen := k;
                        sum_TotalCombosTested := comb 10 (Z.to_nat k);
                        sum_NumSustainableSetsFound := length found;
                        sum_HasAnySustainableSet := (0 <? length found)%nat;
                        sum_Capped := match cap with
                                      | Some _ => true
                                      | None => false
                                      end |}])
                   (all_sets_rows ++ number_from eco 1 found))
        as (out & Hout & Hpost).
      exists out. split; [exact Hout|].
      destruct out as [s a|e].
      * destruct Hpost as [_ Hall]. split; [right; exact Hk|].
        constructor; [exact Hc | exact Hall].
      * destruct Hpost as [He [Hex|[_ Hlt]]]; [|lia].
        split; [exact He|]. left. apply Exists_cons_tl. exact Hex.
    + destruct Hans as [Hbad He]. eexists. split; [reflexivity|].
      split; [exact He|]. destruct Hbad as [Hbad|Hlt].
      * left. apply Exists_cons_hd. exact Hbad.
      * right. split; [discriminate | exact Hlt].
Qed.

Lemma number_from_ids (eco : string) (found : list Row) :
  forall idx,
    map set_SetID (number_from eco idx found) = seq idx (length found) /\
    map set_Row (number_from eco idx found) = found /\
    forall r, In r (number_from eco idx found) -> set_Ecosystem r = eco.
Proof.
  induction found as [|row rest IH]; intros idx; cbn [number_from map seq length].
  - split; [reflexivity|]. split; [reflexivity | intros r []].
  - destruct (IH (S idx)) as (H1 & H2 & H3).
    rewrite H1, H2. split; [reflexivity|]. split; [reflexivity|].
    intros r [<-|Hr]; [reflexivity | apply H3, Hr].
Qed.

Lemma filter_all {A : Type} (P : A -> Prop) `{!forall x, Decision (P x)}
    (l : list A) :
  (forall x, In x l -> P x) -> filter P l = l.
Proof.
  induction l as [|x l IH]; intros Hall; [reflexivity|].
  rewrite filter_cons, decide_True by (apply Hall; left; reflexivity).
  rewrite IH; [reflexivity|]. intros y Hy. apply Hall. right. exact Hy.
Qed.

(** What the loop adds to its two lists. *)
Lemma solver_loop_rows (k : Z) (cap : option Z)
    (ecosystems : list (string * SpMap)) :
  forall summary_rows all_sets_rows summary_rows' all_sets_rows',
    solver_loop ecosystems k cap summary_rows all_sets_rows
    = Some (SolverRows summary_rows' all_sets_rows') ->
    exists news newsets,
      summary_rows' = summary_rows ++ news /\
      all_sets_rows' = all_sets_rows ++ newsets /\
      map sum_Ecosystem news = map fst ecosystems /\
      (forall r, In r newsets -> In (set_Ecosystem r) (map fst ecosystems)) /\
      (NoDup (map fst ecosystems) ->
       forall eco sp_map, In (eco, sp_map) ecosystems ->
         exists rep found,
           find_sustainable_sets_for_ecosystem sp_map k cap = Some rep /\
           answer rep = inl found /\
           map set_Row (filter (fun r => set_Ecosystem r = eco) newsets)
           = found /\
           map set_SetID (filter (fun r => set_Ecosystem r = eco) newsets)
           = seq 1 (length found) /\
           In {| sum_Ecosystem := eco;
                 sum_AnimalsChosen := k;
                 sum_TotalCombosTested := comb 10 (Z.to_nat k);
                 sum_NumSustainableSetsFound := length found;
                 sum_HasAnySustainableSet := (0 <? length found)%nat;
                 sum_Capped := match cap with
                               | Some _ => true
                               | None => false
                               end |} news).
Proof.
  induction ecosystems as [|[eco m] rest IH];
    intros summary_rows all_sets_rows summary_rows' all_sets_rows' H.
  - inversion H; subst. exists [], []. rewrite !app_nil_r.
    split; [reflexivity|]. split; [reflexivity|]. split; [reflexivity|].
    split; [intros ? []|]. intros _ ? ? [].
  - cbn [solver_loop] in H.
    destruct (find_sustainable_sets_for_ecosystem m k cap) as [rep|] eqn:Hrun;
      [|discriminate].
    destruct (answer rep) as [found|e] eqn:Hans; [|discriminate].
    destruct (k <? 0)%Z; [discriminate|].
    apply IH in H as (news & newsets & -> & -> & Hnames & Hin & Hrows).
    set (s0 := {| sum_Ecosystem := eco;
                  sum_AnimalsChosen := k;
                  sum_TotalCombosTested := comb 10 (Z.to_nat k);
                  sum_NumSustainableSetsFound := length found;
                  sum_HasAnySustainableSet := (0 <? length found)%nat;
                  sum_Capped := match cap with
                                | Some _ => true
                                | None => false
                                end |}) in *.
    destruct (number_from_ids eco found 1%nat) as (Hid0 & Hrow0 & Heco0).
    exists (s0 :: news), (number_from eco 1 found ++ newsets).
    rewrite <- !app_assoc. split; [reflexivity|]. split; [reflexivity|].
    split; [cbn [map fst]; rewrite Hnames; reflexivity|].
    split.
    { intros r Hr. apply in_app_iff in Hr as [Hr|Hr].
      - left. symmetry. apply Heco0, Hr.
      - right. apply Hin, Hr. }
    intros Hnd eco' m' Hem. cbn [map fst] in Hnd.
    apply NoDup_cons in Hnd as [Heco Hnd].
    rewrite filter_app, !map_app. destruct Hem as [Hem|Hem].
    + inversion Hem; subst eco' m'. exists rep, found.
      split; [exact Hrun|]. split; [exact Hans|].
      rewrite (filter_all _ (number_from eco 1 found))
        by (intros r Hr; apply Heco0, Hr).
      rewrite (filter_nil_intro _ newsets).
      2:{ intros r Hr E. apply Heco, list_elem_of_In. rewrite <- E.
          apply Hin, Hr. }
      cbn [map]. rewrite !app_nil_r.
      split; [exact Hrow0|]. split; [exact Hid0|]. left. reflexivity.
    + destruct (Hrows Hnd eco' m' Hem) as (rep' & found' & H1 & H2 & H3 & H4 & H5).
      exists rep', found'. split; [exact H1|]. split; [exact H2|].
      rewrite (filter_nil_intro _ (number_from eco 1 found)).
      2:{ intros r Hr E. apply Heco, list_elem_of_In.
          rewrite <- (Heco0 r Hr), E.
          apply in_map_iff. exists (eco', m'). split; [reflexivity | exact Hem]. }
      cbn [map app]. split; [exact H3|]. split; [exact H4|]. right. exact H5.
Qed.

(** The loop of [run_solver] over the ecosystems that were loaded, for an
    [animals_to_choose] within range.  It builds its rows, one summary row
    per ecosystem, when every ecosystem has 3 producers and 10 animals and
    [animals_to_choose] is not negative; otherwise it raises [ValueError]
    and no row is produced for any ecosystem.  No lookup [sp_map[...]] in
    the simulator raises [KeyError] there. *)
Theorem run_solver_rows_or_raises (df : DataFrame)
    (ecosystems : list (string * SpMap)) (k : Z) (cap : option Z) :
  load_ecosystems df = Loaded ecosystems -> ecosystems <> [] ->
  (r_min <= k <= r_max)%Z ->
  exists out,
    solver_loop ecosystems k cap [] [] = Some out /\
    match out with
    | SolverRows summary_rows _ =>
        (0 <= k)%Z /\
        Forall (fun em => counts_ok (snd em)) ecosystems /\
        map sum_Ecosystem summary_rows = map fst ecosystems
    | SolverRaised e =>
        e <> KeyError /\
        (Exists (fun em => ~ counts_ok (snd em)) ecosystems \/ (k < 0)%Z)
    end.
Proof.
  intros Hload Hne _. apply loaded_rows in Hload.
  destruct (load_rows_ok (df_rows df) [] ecosystems nothing_loaded_ok Hload)
    as [_ Hall].
  destruct (solver_loop_outcome k cap ecosystems) with
    (summary_rows := @nil SummaryRow) (all_sets_rows := @nil SetRow)
    as (out & Hout & Hpost).
  { intros eco m Hin key s Hs.
    destruct (Hall eco m Hin) as (_ & _ & _ & Hsp). apply (Hsp key s Hs). }
  exists out. split; [exact Hout|]. destruct out as [summary_rows sets|e].
  - destruct Hpost as [[Hnil|Hk] Hcounts]; [congruence|].
    split; [exact Hk|]. split; [exact Hcounts|].
    apply solver_loop_rows in Hout as (news & newsets & -> & _ & Hn & _).
    exact Hn.
  - destruct Hpost as [He [Hex|[_ Hlt]]]; auto.
Qed.

Lemma run_solver_rows_or_raises_witness :
  exists ecosystems,
    load_ecosystems Sheets.pond = Loaded ecosystems /\
    exists out,
      solver_loop ecosystems 5 None [] [] = Some out /\
      match out with
      | SolverRows summary_rows _ =>
          (0 <= 5)%Z /\
          Forall (fun em => counts_ok (snd em)) ecosystems /\
          map sum_Ecosystem summary_rows = map fst ecosystems
      | SolverRaised e =>
          e <> KeyError /\
          (Exists (fun em => ~ counts_ok (snd em)) ecosystems \/ (5 < 0)%Z)
      end.
Proof.
  eexists. split; [vm_compute; reflexivity|].
  apply (run_solver_rows_or_raises Sheets.pond).
  - vm_compute. reflexivity.
  - discriminate.
  - unfold r_min, r_max. lia.
Defined.

(** In the rows the loop builds, for distinct ecosystem names and an
    [animals_to_choose] within range: there is one summary row per
    ecosystem, in loading order, and every set row belongs to an ecosystem;
    the set rows of an ecosystem are the rows the enumerator returned for
    it, in that order, numbered 1, 2, ...; and its summary row counts them,
    reports [C(10, animals_to_choose)] combinations tested whether or not a
    cap stopped the sweep early, and says whether a cap was given. *)
Theorem run_solver_set_ids (ecosystems : list (string * SpMap)) (k : Z)
    (cap : option Z) (summary_rows : list SummaryRow)
    (all_sets_rows : list SetRow) :
  NoDup (map fst ecosystems) -> (k <= r_max)%Z ->
  solver_loop ecosystems k cap [] [] = Some (SolverRows summary_rows all_sets_rows) ->
  map sum_Ecosystem summary_rows = map fst ecosystems /\
  (forall r, In r all_sets_rows -> In (set_Ecosystem r) (map fst ecosystems)) /\
  forall eco sp_map, In (eco, sp_map) ecosystems ->
    exists rep found,
      find_sustainable_sets_for_ecosystem sp_map k cap = Some rep /\
      answer rep = inl found /\
      map set_Row (filter (fun r => set_Ecosystem r = eco) all_sets_rows)
      = found /\
      map set_SetID (filter (fun r => set_Ecosystem r = eco) all_sets_rows)
      = seq 1 (length found) /\
      In {| sum_Ecosystem := eco;
            sum_AnimalsChosen := k;
            sum_TotalCombosTested := comb 10 (Z.to_nat k);
            sum_NumSustainableSetsFound := length found;
            sum_HasAnySustainableSet := (0 <? length found)%nat;
            sum_Capped := match cap with
                          | Some _ => true
                          | None => false
                          end |} summary_rows.
Proof.
  intros Hnd _ H.
  apply solver_loop_rows in H as (news & newsets & -> & -> & Hn & Hin & Hrows).
  cbn [app]. split; [exact Hn|]. split; [exact Hin|]. exact (Hrows Hnd).
Qed.

Lemma run_solver_set_ids_witness :
  exists summary_rows all_sets_rows rep found,
    solver_loop Sheets.two 5 (Some 2%Z) [] []
    = Some (SolverRows summary_rows all_sets_rows) /\
    find_sustainable_sets_for_ecosystem Examples.eco_A 5 (Some 2%Z) = Some rep /\
    answer rep = inl found /\
    map set_Row (filter (fun r => set_Ecosystem r = "A") all_sets_rows) = found /\
    map set_SetID (filter (fun r => set_Ecosystem r = "A") all_sets_rows)
    = seq 1 (length found).
Proof.
  destruct (solver_loop Sheets.two 5 (Some 2%Z) [] []) as [[s a|e]|] eqn:E;
    try (vm_compute in E; discriminate E).
  destruct (run_solver_set_ids Sheets.two 5 (Some 2%Z) s a) as (_ & _ & H).
  - apply NoDup_ListNoDup. repeat constructor; cbn; intuition discriminate.
  - unfold r_max. lia.
  - exact E.
  - destruct (H "A" Examples.eco_A) as (rep & found & H1 & H2 & H3 & H4 & _).
    + right. left. reflexivity.
    + exists s, a, rep, found. auto.
Defined.
